(** * Texas Hold'em engine: a shallow embedding of the poker engine
    (deck, hand evaluator, betting state machine, settlement, redacted view)
    and the properties of its specification.

    Conventions of the embedding.
    - JavaScript numbers that hold chip counts, seat indices and scores are
      doubles holding integers; they are embedded as [Z], and [%] is the
      truncated remainder [Z.rem].  A double holds every integer up to 2^53
      in magnitude exactly and rounds beyond, so the sums and differences of
      the embedding are those of the source as long as they stay within
      that range: the theorems on amounts carry the bound [amountsSafe]
      (or [stakesSafe], where a hand starts), under which every number one
      call of the engine forms does.  Beyond the range the source's result
      is the nearest double, [roundDouble], and the embedding's definitions
      do not follow it there.  Seat indices and scores are far below the
      bound on every table.
    - A JavaScript array is a [list]; [a[i]] is the lookup [a !! i], which is
      [None] where JavaScript yields [undefined].
    - The [Set] of player ids is a [gset string]; the [roundBets] object is a
      [gmap string Z].
    - Engine entry points mutate [this]; here they take the game and return
      the new game next to the returned object. *)

From stdpp Require Import base numbers list strings gmap sorting pretty.

Local Open Scope Z_scope.

(** ** Deck *)

Inductive Rank := R2 | R3 | R4 | R5 | R6 | R7 | R8 | R9 | R10 | RJ | RQ | RK | RA.
Inductive Suit := Spades | Hearts | Diamonds | Clubs.

Global Instance Rank_eq_dec : EqDecision Rank.
Proof. solve_decision. Defined.
Global Instance Suit_eq_dec : EqDecision Suit.
Proof. solve_decision. Defined.

(** A card is the object [{ r, s }]. *)
Record Card := mkCard { r : Rank; s : Suit }.

Global Instance Card_eq_dec : EqDecision Card.
Proof. solve_decision. Defined.

Definition RANKS : list Rank := [R2; R3; R4; R5; R6; R7; R8; R9; R10; RJ; RQ; RK; RA].
Definition SUITS : list Suit := [Spades; Hearts; Diamonds; Clubs].

(** [RANKS.forEach((r, i) => RANK_VAL[r] = i + 2)] *)
Definition RANK_VAL (x : Rank) : Z :=
  match x with
  | R2 => 2 | R3 => 3 | R4 => 4 | R5 => 5 | R6 => 6 | R7 => 7 | R8 => 8
  | R9 => 9 | R10 => 10 | RJ => 11 | RQ => 12 | RK => 13 | RA => 14
  end.

(** The strings of the source's rank and suit literals, used by the log. *)
Definition rank_str (x : Rank) : string :=
  match x with
  | R2 => "2" | R3 => "3" | R4 => "4" | R5 => "5" | R6 => "6" | R7 => "7"
  | R8 => "8" | R9 => "9" | R10 => "10" | RJ => "J" | RQ => "Q" | RK => "K"
  | RA => "A"
  end.

Definition suit_str (x : Suit) : string :=
  match x with
  | Spades => "♠" | Hearts => "♥" | Diamonds => "♦" | Clubs => "♣"
  end.

(** [for (const s of SUITS) for (const r of RANKS) d.push({ r, s })] *)
Definition orderedDeck : list Card :=
  flat_map (λ su, map (λ ra, mkCard ra su) RANKS) SUITS.

(** [Math.random()] yields a number in [0, 1).  A draw is embedded as the
    fraction [num / (num + gap + 1)], which ranges over the rationals of
    that interval. *)
Record Draw := mkDraw { num : nat; gap : nat }.

(** [Math.floor(Math.random() * k)] *)
Definition floorMul (u : Draw) (k : nat) : nat :=
  ((num u * k) `div` (num u + gap u + 1))%nat.

(** [[a[i], a[j]] = [a[j], a[i]]]: both reads happen before the writes. *)
Definition swap {A} (i j : nat) (a : list A) : list A :=
  match a !! i, a !! j with
  | Some x, Some y => <[j:=x]> (<[i:=y]> a)
  | _, _ => a
  end.

(** The loop [for (let i = a.length - 1; i > 0; i--)] of [shuffle]; [k] is
    the loop variable [i] plus one, and [rnd i] is the draw taken at [i]. *)
Fixpoint shuffle_loop {A} (rnd : nat → Draw) (k : nat) (a : list A) : list A :=
  match k with
  | O => a
  | S i =>
      match i with
      | O => a
      | S _ => shuffle_loop rnd i (swap i (floorMul (rnd i) (i + 1)) a)
      end
  end.

Definition shuffle {A} (rnd : nat → Draw) (arr : list A) : list A :=
  shuffle_loop rnd (length arr) arr.

Definition newDeck (rnd : nat → Draw) : list Card := shuffle rnd orderedDeck.

(** ** Hand evaluator *)

(** [Array.prototype.sort] with a numeric comparator; on numbers the result
    is the one ordered arrangement, whatever the algorithm. *)
Definition sort_desc (l : list Z) : list Z := merge_sort Z.ge l.
Definition sort_asc (l : list Z) : list Z := merge_sort Z.le l.

(** [sorted.every((v, i) => i === 0 || v === sorted[i - 1] + 1)] *)
Fixpoint consecutive (l : list Z) : bool :=
  match l with
  | a :: (b :: _) as t => bool_decide (b = a + 1) && consecutive t
  | _ => true
  end.

(** [for (const v of vals) counts[v] = (counts[v] || 0) + 1] *)
Definition countVals (vals : list Z) : gmap Z Z :=
  foldl (λ counts v, <[v := default 0 (counts !! v) + 1]> counts) ∅ vals.

Record HandResult := mkHandResult { rank : Z; name : string; score : Z }.

(** [tieVals[k] || 0] *)
Definition tieAt (tv : list Z) (k : nat) : Z := default 0 (tv !! k).

(** [cards.map(c => RANK_VAL[c.r]).sort((a, b) => b - a)] *)
Definition handVals (cards : list Card) : list Z :=
  sort_desc (map (λ c, RANK_VAL (r c)) cards).

(** [sorted.join(',') === '2,3,4,5,14'] *)
Definition isWheel (cards : list Card) : bool :=
  bool_decide (sort_asc (handVals cards) = [2; 3; 4; 5; 14]).

(** The category [rank] and its [name], the chain of tests of [evalFive]. *)
Definition category (cards : list Card) : Z * string :=
  let vals := handVals cards in
  let suits := map s cards in
  let flush := forallb (λ x, bool_decide (Some x = suits !! 0%nat)) suits in
  let sorted := sort_asc vals in
  let straight := isWheel cards || consecutive sorted in
  let counts := countVals vals in
  let freq := sort_desc (map_to_list counts).*2 in
  let pairs := length (filter (λ f, f = 2) freq) in
  if flush && straight then
    (8, if bool_decide (vals !! 0%nat = Some 14) && negb (isWheel cards)
        then "Royal Flush" else "Straight Flush")
  else if bool_decide (freq !! 0%nat = Some 4) then (7, "Four of a Kind")
  else if bool_decide (freq !! 0%nat = Some 3) && bool_decide (freq !! 1%nat = Some 2)
    then (6, "Full House")
  else if flush then (5, "Flush")
  else if straight then (4, "Straight")
  else if bool_decide (freq !! 0%nat = Some 3) then (3, "Three of a Kind")
  else if bool_decide (pairs = 2%nat) then (2, "Two Pair")
  else if bool_decide (pairs = 1%nat) then (1, "One Pair")
  else (0, "High Card").

(** [const tieVals = isWheel ? [5, 4, 3, 2, 1] : vals] *)
Definition tieVals (cards : list Card) : list Z :=
  if isWheel cards then [5; 4; 3; 2; 1] else handVals cards.

(** [rank * 1e10 + tieVals[0] * 1e7 + (tieVals[1] || 0) * 1e5 + ...] *)
Definition weigh (rk : Z) (tv : list Z) : Z :=
  rk * 10000000000 + tieAt tv 0 * 10000000 + tieAt tv 1 * 100000 +
  tieAt tv 2 * 1000 + tieAt tv 3 * 10 + tieAt tv 4.

(** [evalFive].  The source reads [tieVals[0]] without the [|| 0] guard, so
    on an empty array its score is NaN; the engine only ever evaluates
    non-empty arrays (five cards out of a hand and the board), and there the
    two agree. *)
Definition evalFive (cards : list Card) : HandResult :=
  let '(rk, nm) := category cards in
  mkHandResult rk nm (weigh rk (tieVals cards)).

(** [cards.filter((_, idx) => idx !== i && idx !== j)], with [k] the index
    of the head of [l]. *)
Fixpoint omitTwo {A} (i j k : nat) (l : list A) : list A :=
  match l with
  | [] => []
  | x :: l' =>
      if bool_decide (k ≠ i) && bool_decide (k ≠ j)
      then x :: omitTwo i j (S k) l' else omitTwo i j (S k) l'
  end.

(** The index pairs [i < j < n] in the order of the two nested loops. *)
Definition indexPairs (n : nat) : list (nat * nat) :=
  flat_map (λ i, map (λ j, (i, j)) (seq (S i) (n - S i))) (seq 0 n).

(** One iteration of the loop body of [bestOf7]. *)
Definition bestStep (cards : list Card) (best : option HandResult) (ij : nat * nat)
    : option HandResult :=
  let five := omitTwo ij.1 ij.2 0 cards in
  if bool_decide (length five ≠ 5%nat) then best
  else
    let h := evalFive five in
    match best with
    | None => Some h
    | Some b => if bool_decide (score h > score b) then Some h else best
    end.

Definition bestOf7 (cards : list Card) : HandResult :=
  let best := foldl (bestStep cards) None (indexPairs (length cards)) in
  default (evalFive (take 5 cards)) best.

(** The candidates of [bestOf7]: the array left by each pair of the loops. *)
Definition candidates (cards : list Card) : list (list Card) :=
  map (λ ij, omitTwo ij.1 ij.2 0 cards) (indexPairs (length cards)).

(** The sub-lists of [k] elements of a list, the "[k]-card subsets". *)
Fixpoint combinations {A} (k : nat) (l : list A) : list (list A) :=
  match k, l with
  | O, _ => [[]]
  | S _, [] => []
  | S k', x :: l' => map (cons x) (combinations k' l') ++ combinations k l'
  end.

(** Descending lexicographic comparison of two tie-break arrays: [a] wins
    at the first position where they differ. *)
Fixpoint lexGt (a b : list Z) : bool :=
  match a, b with
  | x :: a', y :: b' => bool_decide (x > y) || (bool_decide (x = y) && lexGt a' b')
  | _ :: _, [] => true
  | [], _ => false
  end.

(** ** Table state *)

Inductive Phase := Waiting | Preflop | Flop | Turn | River | Showdown.

Global Instance Phase_eq_dec : EqDecision Phase.
Proof. solve_decision. Defined.

Definition phase_str (ph : Phase) : string :=
  match ph with
  | Waiting => "waiting" | Preflop => "preflop" | Flop => "flop"
  | Turn => "turn" | River => "river" | Showdown => "showdown"
  end.

(** A seat: the player object of [addPlayer]. *)
Module Player.
Record t := mk {
    id : string;
    name : string;
    chips : Z;
    hand : list Card;
    bet : Z;
    folded : bool;
    allIn : bool;
    sitOut : bool;
    connected : bool;
    buyIns : Z;
    emoji : string;
    seatIndex : Z
}.

Definition set_id (v : string) (x : t) : t :=
  mk v (name x) (chips x) (hand x) (bet x) (folded x) (allIn x) (sitOut x) (connected x) (buyIns x) (emoji x) (seatIndex x).
Definition set_name (v : string) (x : t) : t :=
  mk (id x) v (chips x) (hand x) (bet x) (folded x) (allIn x) (sitOut x) (connected x) (buyIns x) (emoji x) (seatIndex x).
Definition set_chips (v : Z) (x : t) : t :=
  mk (id x) (name x) v (hand x) (bet x) (folded x) (allIn x) (sitOut x) (connected x) (buyIns x) (emoji x) (seatIndex x).
Definition set_hand (v : list Card) (x : t) : t :=
  mk (id x) (name x) (chips x) v (bet x) (folded x) (allIn x) (sitOut x) (connected x) (buyIns x) (emoji x) (seatIndex x).
Definition set_bet (v : Z) (x : t) : t :=
  mk (id x) (name x) (chips x) (hand x) v (folded x) (allIn x) (sitOut x) (connected x) (buyIns x) (emoji x) (seatIndex x).
Definition set_folded (v : bool) (x : t) : t :=
  mk (id x) (name x) (chips x) (hand x) (bet x) v (allIn x) (sitOut x) (connected x) (buyIns x) (emoji x) (seatIndex x).
Definition set_allIn (v : bool) (x : t) : t :=
  mk (id x) (name x) (chips x) (hand x) (bet x) (folded x) v (sitOut x) (connected x) (buyIns x) (emoji x) (seatIndex x).
Definition set_sitOut (v : bool) (x : t) : t :=
  mk (id x) (name x) (chips x) (hand x) (bet x) (folded x) (allIn x) v (connected x) (buyIns x) (emoji x) (seatIndex x).
Definition set_connected (v : bool) (x : t) : t :=
  mk (id x) (name x) (chips x) (hand x) (bet x) (folded x) (allIn x) (sitOut x) v (buyIns x) (emoji x) (seatIndex x).
Definition set_buyIns (v : Z) (x : t) : t :=
  mk (id x) (name x) (chips x) (hand x) (bet x) (folded x) (allIn x) (sitOut x) (connected x) v (emoji x) (seatIndex x).
Definition set_emoji (v : string) (x : t) : t :=
  mk (id x) (name x) (chips x) (hand x) (bet x) (folded x) (allIn x) (sitOut x) (connected x) (buyIns x) v (seatIndex x).
Definition set_seatIndex (v : Z) (x : t) : t :=
  mk (id x) (name x) (chips x) (hand x) (bet x) (folded x) (allIn x) (sitOut x) (connected x) (buyIns x) (emoji x) v.
End Player.

(** [this.lastAction = { playerId, action, amount }] *)
Record LastAction := mkLastAction {
  la_playerId : string;
  la_action : string;
  la_amount : Z
}.

(** The fields of a [PokerGame].  A log entry is its [msg]; the wall-clock
  [time] stamp that [addLog] stores next to it is left out.  [minRaise] is
  [None] where the source holds [undefined] (the constructor reads
  [this.BIG_BLIND] before assigning it). *)
Module Game.
Record t := mk {
    roomId : string;
    players : list Player.t;
    community : list Card;
    pot : Z;
    sidePots : list Z;
    deck : list Card;
    phase : Phase;
    dealerIndex : Z;
    currentIndex : Z;
    callAmount : Z;
    minRaise : option Z;
    actedThisRound : gset string;
    roundBets : gmap string Z;
    log : list string;
    handNumber : Z;
    lastAction : option LastAction;
    SMALL_BLIND : Z;
    BIG_BLIND : Z;
    defaultStack : Z
}.

Definition set_players (v : list Player.t) (x : t) : t :=
  mk (roomId x) v (community x) (pot x) (sidePots x) (deck x) (phase x) (dealerIndex x) (currentIndex x) (callAmount x) (minRaise x) (actedThisRound x) (roundBets x) (log x) (handNumber x) (lastAction x) (SMALL_BLIND x) (BIG_BLIND x) (defaultStack x).
Definition set_community (v : list Card) (x : t) : t :=
  mk (roomId x) (players x) v (pot x) (sidePots x) (deck x) (phase x) (dealerIndex x) (currentIndex x) (callAmount x) (minRaise x) (actedThisRound x) (roundBets x) (log x) (handNumber x) (lastAction x) (SMALL_BLIND x) (BIG_BLIND x) (defaultStack x).
Definition set_pot (v : Z) (x : t) : t :=
  mk (roomId x) (players x) (community x) v (sidePots x) (deck x) (phase x) (dealerIndex x) (currentIndex x) (callAmount x) (minRaise x) (actedThisRound x) (roundBets x) (log x) (handNumber x) (lastAction x) (SMALL_BLIND x) (BIG_BLIND x) (defaultStack x).
Definition set_sidePots (v : list Z) (x : t) : t :=
  mk (roomId x) (players x) (community x) (pot x) v (deck x) (phase x) (dealerIndex x) (currentIndex x) (callAmount x) (minRaise x) (actedThisRound x) (roundBets x) (log x) (handNumber x) (lastAction x) (SMALL_BLIND x) (BIG_BLIND x) (defaultStack x).
Definition set_deck (v : list Card) (x : t) : t :=
  mk (roomId x) (players x) (community x) (pot x) (sidePots x) v (phase x) (dealerIndex x) (currentIndex x) (callAmount x) (minRaise x) (actedThisRound x) (roundBets x) (log x) (handNumber x) (lastAction x) (SMALL_BLIND x) (BIG_BLIND x) (defaultStack x).
Definition set_phase (v : Phase) (x : t) : t :=
  mk (roomId x) (players x) (community x) (pot x) (sidePots x) (deck x) v (dealerIndex x) (currentIndex x) (callAmount x) (minRaise x) (actedThisRound x) (roundBets x) (log x) (handNumber x) (lastAction x) (SMALL_BLIND x) (BIG_BLIND x) (defaultStack x).
Definition set_dealerIndex (v : Z) (x : t) : t :=
  mk (roomId x) (players x) (community x) (pot x) (sidePots x) (deck x) (phase x) v (currentIndex x) (callAmount x) (minRaise x) (actedThisRound x) (roundBets x) (log x) (handNumber x) (lastAction x) (SMALL_BLIND x) (BIG_BLIND x) (defaultStack x).
Definition set_currentIndex (v : Z) (x : t) : t :=
  mk (roomId x) (players x) (community x) (pot x) (sidePots x) (deck x) (phase x) (dealerIndex x) v (callAmount x) (minRaise x) (actedThisRound x) (roundBets x) (log x) (handNumber x) (lastAction x) (SMALL_BLIND x) (BIG_BLIND x) (defaultStack x).
Definition set_callAmount (v : Z) (x : t) : t :=
  mk (roomId x) (players x) (community x) (pot x) (sidePots x) (deck x) (phase x) (dealerIndex x) (currentIndex x) v (minRaise x) (actedThisRound x) (roundBets x) (log x) (handNumber x) (lastAction x) (SMALL_BLIND x) (BIG_BLIND x) (defaultStack x).
Definition set_minRaise (v : option Z) (x : t) : t :=
  mk (roomId x) (players x) (community x) (pot x) (sidePots x) (deck x) (phase x) (dealerIndex x) (currentIndex x) (callAmount x) v (actedThisRound x) (roundBets x) (log x) (handNumber x) (lastAction x) (SMALL_BLIND x) (BIG_BLIND x) (defaultStack x).
Definition set_actedThisRound (v : gset string) (x : t) : t :=
  mk (roomId x) (players x) (community x) (pot x) (sidePots x) (deck x) (phase x) (dealerIndex x) (currentIndex x) (callAmount x) (minRaise x) v (roundBets x) (log x) (handNumber x) (lastAction x) (SMALL_BLIND x) (BIG_BLIND x) (defaultStack x).
Definition set_roundBets (v : gmap string Z) (x : t) : t :=
  mk (roomId x) (players x) (community x) (pot x) (sidePots x) (deck x) (phase x) (dealerIndex x) (currentIndex x) (callAmount x) (minRaise x) (actedThisRound x) v (log x) (handNumber x) (lastAction x) (SMALL_BLIND x) (BIG_BLIND x) (defaultStack x).
Definition set_log (v : list string) (x : t) : t :=
  mk (roomId x) (players x) (community x) (pot x) (sidePots x) (deck x) (phase x) (dealerIndex x) (currentIndex x) (callAmount x) (minRaise x) (actedThisRound x) (roundBets x) v (handNumber x) (lastAction x) (SMALL_BLIND x) (BIG_BLIND x) (defaultStack x).
Definition set_handNumber (v : Z) (x : t) : t :=
  mk (roomId x) (players x) (community x) (pot x) (sidePots x) (deck x) (phase x) (dealerIndex x) (currentIndex x) (callAmount x) (minRaise x) (actedThisRound x) (roundBets x) (log x) v (lastAction x) (SMALL_BLIND x) (BIG_BLIND x) (defaultStack x).
Definition set_lastAction (v : option LastAction) (x : t) : t :=
  mk (roomId x) (players x) (community x) (pot x) (sidePots x) (deck x) (phase x) (dealerIndex x) (currentIndex x) (callAmount x) (minRaise x) (actedThisRound x) (roundBets x) (log x) (handNumber x) v (SMALL_BLIND x) (BIG_BLIND x) (defaultStack x).
Definition set_SMALL_BLIND (v : Z) (x : t) : t :=
  mk (roomId x) (players x) (community x) (pot x) (sidePots x) (deck x) (phase x) (dealerIndex x) (currentIndex x) (callAmount x) (minRaise x) (actedThisRound x) (roundBets x) (log x) (handNumber x) (lastAction x) v (BIG_BLIND x) (defaultStack x).
Definition set_BIG_BLIND (v : Z) (x : t) : t :=
  mk (roomId x) (players x) (community x) (pot x) (sidePots x) (deck x) (phase x) (dealerIndex x) (currentIndex x) (callAmount x) (minRaise x) (actedThisRound x) (roundBets x) (log x) (handNumber x) (lastAction x) (SMALL_BLIND x) v (defaultStack x).
End Game.
Export Game.
Abbreviation Game := Game.t.

(** The object returned by an entry point.  An [error] string of the source
    is one of eight kinds; [errorMessage] gives the string. *)
Inductive ErrorKind :=
  | NotYourTurn | MustCallOrFold | RaiseTooLow | InsufficientChips
  | UnknownAction | NotEnoughPlayers | TableFull | AlreadySeated.

Definition errorMessage (e : ErrorKind) : string :=
  match e with
  | NotYourTurn => "Not your turn"
  | MustCallOrFold => "Cannot check, must call or fold"
  | RaiseTooLow => "Raise must be higher than call amount"
  | InsufficientChips => "Not enough chips"
  | UnknownAction => "Unknown action"
  | NotEnoughPlayers => "Need at least 2 players"
  | TableFull => "Table is full"
  | AlreadySeated => "Already seated"
  end.

(** An entry of the [winners] array of a result. *)
Module Winner.
Record t := mk {
    id : string;
    name : string;
    handName : option string;
    amount : Z
}.
End Winner.

Inductive Result :=
  | RError (e : ErrorKind)
  | RSuccess (seatIndex : option Z)
  | RHandOver (winners : list Winner.t)
  | RNextTurn (currentPlayer : string)
  | RNewStreet (ph : Phase) (currentPlayer : option string)
  | RShowdown (winners : list Winner.t).


Definition isError (res : Result) : bool :=
  match res with RError _ => true | _ => false end.

(** [startHand(settings = {})] reads [settings.smallBlind] and
    [settings.bigBlind]; an absent field is [None]. *)
Record Settings := mkSettings { smallBlind : option Z; bigBlind : option Z }.

(** JavaScript truthiness of an optional number and of an optional string. *)
Definition truthyZ (x : option Z) : option Z :=
  match x with
  | Some v => if bool_decide (v = 0) then None else Some v
  | None => None
  end.

Definition truthyStr (x : option string) : option string :=
  match x with
  | Some v => if bool_decide (v = "") then None else Some v
  | None => None
  end.

(** [a[i]] for a number [i] that may be negative. *)
Definition lookupZ {A} (l : list A) (i : Z) : option A :=
  if bool_decide (0 ≤ i) then l !! Z.to_nat i else None.

(** [((x % n) + n) % n] *)
Definition wrap (x n : Z) : Z := Z.rem (Z.rem x n + n) n.

(** [arr.pop()]: the last element and the array without it; [None] on an
    empty array, where the source would hand out [undefined] as a card. *)
Definition pop {A} (l : list A) : option (A * list A) :=
  match reverse l with
  | [] => None
  | x :: l' => Some (x, reverse l')
  end.

(** [new PokerGame(roomId)] *)
Definition newGame (rid : string) : Game :=
  Game.mk rid [] [] 0 [] [] Waiting (-1) (-1) 0 None ∅ ∅ [] 0 None 25 50 1500.

(** [addLog(msg)]: [unshift], then drop the oldest entry beyond fifty. *)
Definition addLog (msg : string) (g : Game) : Game :=
  let l := msg :: log g in
  set_log (if bool_decide (50 < length l)%nat then removelast l else l) g.

(** [this.players.find(p => p.id === id)], with the seat it was found at. *)
Definition findPlayer (pid : string) (g : Game) : option (nat * Player.t) :=
  list_find (λ p, Player.id p = pid) (players g).

(** In-place update of the player object at seat [i]. *)
Definition updPlayer (i : nat) (f : Player.t → Player.t) (g : Game) : Game :=
  set_players (alter f i (players g)) g.

Definition addPlayer (pid nm : string) (startingStack : option Z) (emo : option string)
    (g : Game) : Result * Game :=
  match findPlayer pid g with
  | Some (i, existing) =>
      if negb (Player.connected existing) then
        let g1 := updPlayer i (Player.set_connected true) g in
        let g2 := addLog (Player.name existing +:+ " reconnected.") g1 in
        (RSuccess (Some (Player.seatIndex existing)), g2)
      else (RError AlreadySeated, g)
  | None =>
      if bool_decide (9 ≤ length (players g))%nat then (RError TableFull, g)
      else
        let stack :=
          match truthyZ startingStack with
          | Some v => v
          | None => default 1500 (truthyZ (Some (defaultStack g)))
          end in
        let player :=
          Player.mk pid nm stack [] 0 false false false true 1
            (default "🎭" (truthyStr emo)) (Z.of_nat (length (players g))) in
        let g1 := set_players (players g ++ [player]) g in
        let g2 := addLog (nm +:+ " joined the table.") g1 in
        (RSuccess (Some (Player.seatIndex player)), g2)
  end.

Definition removePlayer (pid : string) (g : Game) : Game :=
  match findPlayer pid g with
  | Some (i, p) =>
      addLog (Player.name p +:+ " disconnected.") (updPlayer i (Player.set_connected false) g)
  | None => g
  end.

Definition reconnectPlayer (pid : string) (g : Game) : Game :=
  match findPlayer pid g with
  | Some (i, p) =>
      addLog (Player.name p +:+ " reconnected.") (updPlayer i (Player.set_connected true) g)
  | None => g
  end.

(** The test of [activePlayers]: [p.chips > 0 && p.connected && !p.sitOut]. *)
Definition isActive (p : Player.t) : bool :=
  bool_decide (Player.chips p > 0) && Player.connected p && negb (Player.sitOut p).

Definition activePlayers (g : Game) : list Player.t := filter isActive (players g).

Definition canStart (g : Game) : bool :=
  bool_decide (2 ≤ length (activePlayers g))%nat && bool_decide (phase g = Waiting).

(** The test of [inHandPlayers]: [!p.folded && p.hand.length === 2]. *)
Definition inHand (p : Player.t) : bool :=
  negb (Player.folded p) && bool_decide (length (Player.hand p) = 2%nat).

Definition inHandPlayers (g : Game) : list Player.t := filter inHand (players g).

(** The same selection with the seat of each object, through which the
    engine's later writes to these objects reach [players]. *)
Definition inHandSeats (g : Game) : list (nat * Player.t) :=
  filter (λ ip, inHand ip.2) (imap pair (players g)).

(** The [while] loop of [nextActiveIndex]; [k] is [n - count]. *)
Fixpoint nextActive_loop (ps : list Player.t) (n step : Z) (k : nat) (i : Z) : option Z :=
  p ← lookupZ ps i;
  match k with
  | O => Some i
  | S k' =>
      if Player.folded p || Player.allIn p
      then nextActive_loop ps n step k' (wrap (i + step) n)
      else Some i
  end.

(** [nextActiveIndex(from, step)]; [None] where the source throws on reading
    a field of [undefined] (an empty table). *)
Definition nextActiveIndex (g : Game) (from step : Z) : option Z :=
  let n := Z.of_nat (length (players g)) in
  nextActive_loop (players g) n step (length (players g)) (wrap (from + step) n).

Definition getCurrentPlayer (g : Game) : option Player.t :=
  if bool_decide (currentIndex g < 0) then None else lookupZ (players g) (currentIndex g).

(** The writes of [postBlind] to the player object; exact for amounts
    within [stakesSafe]. *)
Definition postBlindOn (amount : Z) (p : Player.t) : Player.t :=
  let actual := Z.min amount (Player.chips p) in
  let chips' := Player.chips p - actual in
  let p1 := Player.set_bet (Player.bet p + actual) (Player.set_chips chips' p) in
  if bool_decide (chips' = 0) then Player.set_allIn true p1 else p1.

(** [postBlind(idx, amount, type)] *)
Definition postBlind (idx amount : Z) (g : Game) : option Game :=
  p ← lookupZ (players g) idx;
  let actual := Z.min amount (Player.chips p) in
  Some (set_roundBets
          (<[Player.id p := default 0 (truthyZ (roundBets g !! Player.id p)) + actual]> (roundBets g))
          (set_pot (pot g + actual)
             (set_players (<[Z.to_nat idx := postBlindOn amount p]> (players g)) g))).

(** The "reset players" loop of [startHand]. *)
Definition resetPlayer (p : Player.t) : Player.t :=
  Player.set_allIn false
    (Player.set_folded
       (bool_decide (Player.chips p ≤ 0) || negb (Player.connected p) || Player.sitOut p)
       (Player.set_bet 0 (Player.set_hand [] p))).

(** The "deal cards" loop of [startHand]: two pops for every seat that is
    not folded, in seat order. *)
Fixpoint dealAll (ps : list Player.t) (d : list Card) : option (list Player.t * list Card) :=
  match ps with
  | [] => Some ([], d)
  | p :: ps' =>
      if Player.folded p then
        '(ps'', d') ← dealAll ps' d; Some (p :: ps'', d')
      else
        '(c1, d1) ← pop d;
        '(c2, d2) ← pop d1;
        '(ps'', d') ← dealAll ps' d2;
        Some (Player.set_hand [c1; c2] p :: ps'', d')
  end.

Definition playerName (g : Game) (i : Z) : option string :=
  Player.name <$> lookupZ (players g) i.

(** [startHand] after its guard, first part: the counter, the settings, the
    fresh deck, the cleared table and the "reset players" loop.  [rnd]
    supplies the draws of the shuffle. *)
Definition startHand_reset (rnd : nat → Draw) (settings : Settings) (g : Game) : Game :=
  let g := set_handNumber (handNumber g + 1) g in
  let g := match truthyZ (smallBlind settings) with
           | Some v => set_SMALL_BLIND v g | None => g end in
  let g := match truthyZ (bigBlind settings) with
           | Some v => set_BIG_BLIND v g | None => g end in
  let g := set_deck (newDeck rnd) g in
  let g := set_community [] g in
  let g := set_pot 0 g in
  let g := set_sidePots [] g in
  let g := set_callAmount (BIG_BLIND g) g in
  let g := set_minRaise (Some (BIG_BLIND g)) g in
  let g := set_actedThisRound ∅ g in
  let g := set_roundBets ∅ g in
  let g := set_lastAction None g in
  set_players (map resetPlayer (players g)) g.

(** Second part: "advance dealer" and "deal cards". *)
Definition startHand_deal (g : Game) : option Game :=
  d ← nextActiveIndex g (dealerIndex g) 1;
  let g := set_dealerIndex d g in
  '(ps, dk) ← dealAll (players g) (deck g);
  Some (set_deck dk (set_players ps g)).

(** Third part: "blinds"; the two seats are found before either posts. *)
Definition startHand_blinds (g : Game) : option (Z * Z * Game) :=
  sbIdx ← nextActiveIndex g (dealerIndex g) 1;
  bbIdx ← nextActiveIndex g sbIdx 1;
  g ← postBlind sbIdx (SMALL_BLIND g) g;
  g ← postBlind bbIdx (BIG_BLIND g) g;
  Some (sbIdx, bbIdx, g).

(** Last part: the phase, the first seat to act and the three log lines. *)
Definition startHand_open (sbIdx bbIdx : Z) (g : Game) : option Game :=
  let g := set_phase Preflop g in
  cur ← nextActiveIndex g bbIdx 1;
  let g := set_currentIndex cur g in
  dn ← playerName g (dealerIndex g);
  let g := addLog ("--- Hand #" +:+ pretty (handNumber g) +:+ " --- Dealer: " +:+ dn) g in
  sn ← playerName g sbIdx;
  let g := addLog (sn +:+ " posts $" +:+ pretty (SMALL_BLIND g) +:+ " (SB)") g in
  bn ← playerName g bbIdx;
  let g := addLog (bn +:+ " posts $" +:+ pretty (BIG_BLIND g) +:+ " (BB)") g in
  Some g.

(** The writes of [startHand] once the guard has passed; [None] where the
    source reads a field of [undefined] or deals from an empty deck. *)
Definition startHand_writes (rnd : nat → Draw) (settings : Settings) (g : Game)
    : option Game :=
  g ← startHand_deal (startHand_reset rnd settings g);
  '(sbIdx, bbIdx, g) ← startHand_blinds g;
  startHand_open sbIdx bbIdx g.

(** [startHand(settings)] *)
Definition startHand (rnd : nat → Draw) (settings : Settings) (g : Game)
    : option (Result * Game) :=
  if bool_decide (length (activePlayers g) < 2)%nat then Some (RError NotEnoughPlayers, g)
  else g' ← startHand_writes rnd settings g; Some (RSuccess None, g').

(** The test of [findNextToAct] on a seat: not folded, not all-in, and
    either not yet in [actedThisRound] or with a bet below [callAmount]. *)
Definition needsToAct (g : Game) (p : Player.t) : bool :=
  negb (Player.folded p) && negb (Player.allIn p) &&
  (negb (bool_decide (Player.id p ∈ actedThisRound g)) ||
   bool_decide (Player.bet p < callAmount g)).

(** The loop of [findNextToAct]; [k] is the number of iterations left. *)
Fixpoint findNext_loop (g : Game) (n : Z) (k : nat) (i : Z) : option Z :=
  match k with
  | O => Some (-1)
  | S k' =>
      p ← lookupZ (players g) i;
      if needsToAct g p then Some i
      else findNext_loop g n k' (wrap (i + 1) n)
  end.

Definition findNextToAct (g : Game) : option Z :=
  let n := Z.of_nat (length (players g)) in
  findNext_loop g n (length (players g)) (wrap (currentIndex g + 1) n).

(** [c.r + c.s] and [p.hand.map(...).join(' ')] *)
Definition cardStr (c : Card) : string := rank_str (r c) +:+ suit_str (s c).
Definition handStr (h : list Card) : string := String.concat " " (map cardStr h).

(** An entry of [results] in [showdown]: the seat of the player object, the
    object as it is when the hands are evaluated, and its best hand. *)
Definition showdownResults (g : Game) : list (nat * Player.t * HandResult) :=
  map (λ ip, (ip.1, ip.2, bestOf7 (Player.hand ip.2 ++ community g))) (inHandSeats g).

(** The first loop of [showdown]: one log line per hand, and the running
    maximum [bestScore]. *)
Definition showdownEval (acc : Game * Z) (e : nat * Player.t * HandResult) : Game * Z :=
  let '(i, p, h) := e in
  let g := addLog (Player.name p +:+ ": " +:+ handStr (Player.hand p) +:+ " — " +:+ name h) acc.1 in
  (g, if bool_decide (score h > acc.2) then score h else acc.2).

(** [player.chips += amount], exact for amounts within [amountsSafe]
    (beyond, see [creditDouble]). *)
Definition credit (amount : Z) (q : Player.t) : Player.t :=
  Player.set_chips (Player.chips q + amount) q.

(** The second loop of [showdown]: pay one winner. *)
Definition payWinner (share : Z) (g : Game) (e : nat * Player.t * HandResult) : Game :=
  let '(i, p, h) := e in
  addLog (Player.name p +:+ " wins $" +:+ pretty share +:+ "!")
    (updPlayer i (credit share) g).

(** [showdown()].  [Math.floor(this.pot / winners.length)] is the integer
    quotient; with no winner the source's quotient is not a finite number
    and is used nowhere. *)
Definition showdown (g : Game) : Result * Game :=
  let g := set_phase Showdown g in
  let g := addLog "--- SHOWDOWN ---" g in
  let results := showdownResults g in
  let '(g, bestScore) := foldl showdownEval (g, -1) results in
  let winners := filter (λ e, score e.2 = bestScore) results in
  let share := pot g `div` Z.of_nat (length winners) in
  let g := foldl (payWinner share) g winners in
  let winnerInfo :=
    map (λ e, Winner.mk (Player.id e.1.2) (Player.name e.1.2) (Some (name e.2)) share) winners in
  let g := set_pot 0 g in
  let g := set_phase Waiting g in
  (RShowdown winnerInfo, g).

(** The resets at the head of [nextStreet]. *)
Definition streetReset (g : Game) : Game :=
  let g := set_players (map (Player.set_bet 0) (players g)) g in
  let g := set_callAmount 0 g in
  let g := set_minRaise (Some (BIG_BLIND g)) g in
  let g := set_actedThisRound ∅ g in
  set_roundBets ∅ g.

(** The community cards of the next street; [None] where a card would be
    popped off an empty deck. *)
Definition dealStreet (g : Game) : option Game :=
  match phase g with
  | Preflop =>
      '(c1, d1) ← pop (deck g);
      '(c2, d2) ← pop d1;
      '(c3, d3) ← pop d2;
      let g := set_community (community g ++ [c1; c2; c3]) (set_deck d3 g) in
      Some (addLog "--- FLOP ---" (set_phase Flop g))
  | Flop =>
      '(c1, d1) ← pop (deck g);
      let g := set_community (community g ++ [c1]) (set_deck d1 g) in
      Some (addLog "--- TURN ---" (set_phase Turn g))
  | Turn =>
      '(c1, d1) ← pop (deck g);
      let g := set_community (community g ++ [c1]) (set_deck d1 g) in
      Some (addLog "--- RIVER ---" (set_phase River g))
  | _ => Some g
  end.

(** The tail of [nextStreet]: the first seat to act on the new street. *)
Definition newStreetTurn (g : Game) : option (Result * Game) :=
  cur ← nextActiveIndex g (dealerIndex g) 1;
  let g := set_currentIndex cur g in
  Some (RNewStreet (phase g) (Player.id <$> lookupZ (players g) (currentIndex g)), g).

(** [nextStreet()]: on the river the hand goes to [showdown]. *)
Definition nextStreet (g : Game) : option (Result * Game) :=
  let g := streetReset g in
  match phase g with
  | River => Some (showdown g)
  | _ => g ← dealStreet g; newStreetTurn g
  end.

(** [advanceTurn()] *)
Definition advanceTurn (g : Game) : option (Result * Game) :=
  match inHandSeats g with
  | [(i, winner)] =>
      let g := updPlayer i (credit (pot g)) g in
      let g := addLog (Player.name winner +:+ " wins $" +:+ pretty (pot g) +:+
                       " (everyone folded)!") g in
      let g := set_pot 0 g in
      let g := set_phase Waiting g in
      Some (RHandOver [Winner.mk (Player.id winner) (Player.name winner) None (pot g)], g)
  | _ =>
      next ← findNextToAct g;
      if bool_decide (next = -1) then nextStreet g
      else
        let g := set_currentIndex next g in
        p ← lookupZ (players g) next;
        Some (RNextTurn (Player.id p), g)
  end.

(** The [switch] of [applyAction] for the player object [p] at seat [i]: the
    error returned before any write, or the game after the action's writes
    (sums and differences exact for amounts within [amountsSafe]). *)
Definition actionEffect (i : nat) (p : Player.t) (action : string) (amount : Z) (g : Game)
    : ErrorKind + Game :=
  let toCall := callAmount g - Player.bet p in
  if bool_decide (action = "fold") then
    inr (addLog (Player.name p +:+ " folds.") (updPlayer i (Player.set_folded true) g))
  else if bool_decide (action = "check") then
    if bool_decide (toCall > 0) then inl MustCallOrFold
    else inr (addLog (Player.name p +:+ " checks.") g)
  else if bool_decide (action = "call") then
    let amt := Z.min toCall (Player.chips p) in
    let chips' := Player.chips p - amt in
    let p1 := Player.set_bet (Player.bet p + amt) (Player.set_chips chips' p) in
    let p2 := if bool_decide (chips' = 0) then Player.set_allIn true p1 else p1 in
    let g := set_pot (pot g + amt) (updPlayer i (λ _, p2) g) in
    inr (addLog (Player.name p +:+ " calls $" +:+ pretty amt +:+ ".") g)
  else if bool_decide (action = "raise") then
    if bool_decide (amount ≤ callAmount g) then inl RaiseTooLow
    else if bool_decide (amount > Player.chips p + Player.bet p) then inl InsufficientChips
    else
      let extra := amount - Player.bet p in
      let chips' := Player.chips p - extra in
      let p1 := Player.set_bet amount (Player.set_chips chips' p) in
      let p2 := if bool_decide (chips' = 0) then Player.set_allIn true p1 else p1 in
      let g := set_pot (pot g + extra) g in
      let g := set_callAmount amount g in
      let g := set_minRaise (Some (amount - callAmount g)) g in
      let g := set_actedThisRound ∅ g in
      let g := updPlayer i (λ _, p2) g in
      inr (addLog (Player.name p +:+ " raises to $" +:+ pretty amount +:+ ".") g)
  else if bool_decide (action = "allin") then
    let amt := Player.chips p in
    let bet' := Player.bet p + amt in
    let p1 := Player.set_allIn true (Player.set_chips 0 (Player.set_bet bet' p)) in
    let g := set_pot (pot g + amt) (updPlayer i (λ _, p1) g) in
    let g := if bool_decide (bet' > callAmount g)
             then set_actedThisRound ∅ (set_callAmount bet' g) else g in
    inr (addLog (Player.name p +:+ " goes ALL IN for $" +:+ pretty bet' +:+ "!") g)
  else inl UnknownAction.

(** [applyAction(playerId, action, amount = 0)]; a caller that leaves
    [amount] out passes [0]. *)
Definition applyAction (playerId action : string) (amount : Z) (g : Game)
    : option (Result * Game) :=
  match lookupZ (players g) (currentIndex g) with
  | None => Some (RError NotYourTurn, g)
  | Some p =>
      if bool_decide (Player.id p ≠ playerId) then Some (RError NotYourTurn, g)
      else
        match actionEffect (Z.to_nat (currentIndex g)) p action amount g with
        | inl e => Some (RError e, g)
        | inr g =>
            let g := set_actedThisRound ({[playerId]} ∪ actedThisRound g) g in
            let g := set_lastAction (Some (mkLastAction playerId action amount)) g in
            advanceTurn g
        end
  end.

(** ** The redacted view *)

Module PlayerView.
Record t := mk {
    id : string;
    name : string;
    chips : Z;
    bet : Z;
    folded : bool;
    allIn : bool;
    connected : bool;
    seatIndex : Z;
    cardCount : nat;
    buyIns : Z;
    emoji : string;
    hand : option (list Card)
}.
End PlayerView.

Module View.
Record t := mk {
    phase : Phase;
    pot : Z;
    community : list Card;
    dealerIndex : Z;
    currentPlayerId : option string;
    callAmount : Z;
    minRaise : option Z;
    handNumber : Z;
    players : list PlayerView.t;
    log : list string;
    lastAction : option LastAction
}.
End View.

(** The object built for one player by [getStateFor]. *)
Definition playerViewFor (viewer : option string) (ph : Phase) (p : Player.t) : PlayerView.t :=
  PlayerView.mk (Player.id p) (Player.name p) (Player.chips p) (Player.bet p)
    (Player.folded p) (Player.allIn p) (Player.connected p) (Player.seatIndex p)
    (length (Player.hand p))
    (default 1 (truthyZ (Some (Player.buyIns p))))
    (default "🎭" (truthyStr (Some (Player.emoji p))))
    (if bool_decide (Some (Player.id p) = viewer) || bool_decide (ph = Showdown)
     then Some (Player.hand p) else None).

(** [getStateFor(playerId)]; [viewer] is [None] for [null]. *)
Definition getStateFor (viewer : option string) (g : Game) : View.t :=
  View.mk (phase g) (pot g) (community g) (dealerIndex g)
    (truthyStr (Player.id <$> lookupZ (players g) (currentIndex g)))
    (callAmount g) (minRaise g) (handNumber g)
    (map (playerViewFor viewer (phase g)) (players g))
    (take 20 (log g)) (lastAction g).

(** ** Quantities of the specification *)

Definition sumZ (l : list Z) : Z := foldr Z.add 0 l.

(** [sum(chips)] and [sum(bet)] over the seats. *)
Definition sumChips (g : Game) : Z := sumZ (Player.chips <$> players g).
Definition sumBets (g : Game) : Z := sumZ (Player.bet <$> players g).

(** ** A table used to run the engine: two seats and the first hand *)

Definition exDraws : nat → Draw := λ _, mkDraw 0 0.
Definition exSeated : Game :=
  Eval vm_compute in
    (addPlayer "b" "Bob" None None (addPlayer "a" "Alice" None None (newGame "R")).2).2.
Definition exPreflop : Game :=
  Eval vm_compute in
    default exSeated (snd <$> startHand exDraws (mkSettings None None) exSeated).

(** The score a seat shows down with, and the winners of a showdown as the
    specification words them: the seats still in the hand whose score is
    the maximum. *)
Definition handScore (g : Game) (p : Player.t) : Z :=
  score (bestOf7 (Player.hand p ++ community g)).


Definition winsWith (g : Game) (m : Z) (p : Player.t) : Prop :=
  inHand p = true ∧ handScore g p = m.

Global Instance winsWith_dec g m p : Decision (winsWith g m p).
Proof. unfold winsWith. apply _. Defined.

Definition winnersWith (g : Game) (m : Z) : list Player.t :=
  filter (winsWith g m) (players g).

(** Bob, who is to act in that hand; the table after the writes of his fold;
    and Alice, the one seat then left in the hand. *)
Definition exBob : Player.t :=
  Eval vm_compute in
    default (Player.mk "" "" 0 [] 0 false false false false 0 "" 0)
      (lookupZ (players exPreflop) (currentIndex exPreflop)).

(** A river table on which both seats hold ace, king: a split pot of 101. *)
Definition exTie : Game :=
  Eval vm_compute in
  set_phase River
    (set_pot 101
       (set_community
          [mkCard R2 Clubs; mkCard R7 Diamonds; mkCard R9 Clubs; mkCard RJ Diamonds; mkCard R3 Spades]
          (set_players
             [Player.mk "a" "Alice" 1450 [mkCard RA Spades; mkCard RK Spades] 0
                false false false true 1 "" 0;
              Player.mk "b" "Bob" 1449 [mkCard RA Hearts; mkCard RK Hearts] 0
                false false false true 1 "" 1]
             exPreflop))).

(** A seat that can still act in the hand: neither folded nor all-in. *)
Definition canAct (p : Player.t) : bool :=
  negb (Player.folded p) && negb (Player.allIn p).




(** [d] is the first seat after [from], going round the table, whose player
    passes the test [ok]. *)
Definition firstSeatAfter (ok : Player.t → bool) (ps : list Player.t) (from d : Z) : Prop :=
  ∃ t : nat,
    (t < length ps)%nat ∧
    d = (from + 1 + Z.of_nat t) `mod` Z.of_nat (length ps) ∧
    (∃ p, ps !! Z.to_nat d = Some p ∧ ok p = true) ∧
    (∀ t' : nat, (t' < t)%nat →
       ∃ q, ps !! Z.to_nat ((from + 1 + Z.of_nat t') `mod` Z.of_nat (length ps)) = Some q ∧
            ok q = false).

(** The blind in force for a hand started with [settings]. *)
Definition blindFor (setting : option Z) (current : Z) : Z :=
  default current (truthyZ setting).

(** The fields that the later parts of [startHand] leave as the first part
    set them. *)
Definition sameSetup (g g' : Game) : Prop :=
  handNumber g' = handNumber g ∧ community g' = community g ∧
  SMALL_BLIND g' = SMALL_BLIND g ∧ BIG_BLIND g' = BIG_BLIND g ∧
  callAmount g' = callAmount g.


(** ** Tactics *)

(** Membership in an explicit list. *)
Ltac elem_tac := repeat (first [apply list_elem_of_here | apply list_elem_of_further]).

(** One step of a chain of binds whose head has been computed. *)
Ltac bind_step :=
  match goal with
  | |- context [Some ?x ≫= ?f] => change (Some x ≫= f) with (f x); cbn beta
  end.
(** ** The range in which the amounts are exact *)

(** 2^50 *)
Definition SAFE_AMOUNT : Z := 1125899906842624.

Definition safeNum (z : Z) : Prop := - SAFE_AMOUNT ≤ z ≤ SAFE_AMOUNT.

Global Instance safeNum_dec z : Decision (safeNum z).
Proof. unfold safeNum. apply _. Defined.

(** Every amount of the table is within ±2^50.  On such a table one call of
    [startHand] or [applyAction] forms no number beyond ±2^53, the range in
    which a double holds every integer: a call or a raise takes at most
    [callAmount - bet] or [amount - bet], within ±2^51 (a raise that passes
    its guards has [amount] between [callAmount] and [chips + bet]), off a
    stack and onto a bet and the pot, which stay within ±2^52; the pay-out
    that may follow adds a pot and a stack of that size, within ±2^53; and
    [Math.floor(pot / k)] of such a pot is the integer quotient, the
    rounding of the division being below [1 / k].  There the integer
    arithmetic of the embedding is the arithmetic of the source. *)
Definition amountsSafe (g : Game) : Prop :=
  Forall (λ p, safeNum (Player.chips p) ∧ safeNum (Player.bet p)) (players g) ∧
  safeNum (pot g) ∧ safeNum (callAmount g).

Global Instance amountsSafe_dec g : Decision (amountsSafe g).
Proof. unfold amountsSafe. apply _. Defined.

(** ** Beyond the exact range *)

(** 2^53, up to which a double holds every integer. *)
Definition EXACT_MAX : Z := 9007199254740992.

(** The double nearest to an integer, ties going to the even significand
    of 53 bits: what [+] and [-] of the source return when the exact result
    is that integer (short of an overflow).  Up to 2^53 in magnitude it is
    the integer itself. *)
Definition roundDouble (z : Z) : Z :=
  let a := Z.abs z in
  if bool_decide (a ≤ EXACT_MAX) then z
  else
    let ulp := 2 ^ (Z.log2 a - 52) in
    let q := a `div` ulp in
    let r := a `mod` ulp in
    let half := ulp `div` 2 in
    let q' := if bool_decide (r < half) then q
              else if bool_decide (half < r) then q + 1
              else if Z.even q then q else q + 1 in
    Z.sgn z * (q' * ulp).

(** [player.chips += amount] as the source computes it, on doubles; within
    the exact range it is [credit]. *)
Definition creditDouble (amount : Z) (q : Player.t) : Player.t :=
  Player.set_chips (roundDouble (Player.chips q + amount)) q.

(** ** Tables on which claims fail *)

(** The first hand at the two-seat table when [startHand] is given a small
    blind of 100 over a big blind of 50: Bob has posted 100 and Alice 50,
    and [callAmount] is 50. *)
Definition exCrossed : Game :=
  Eval vm_compute in
    default exSeated (snd <$> startHand exDraws (mkSettings (Some 100) (Some 50)) exSeated).

(** That hand after Bob's check, with Alice to act. *)
Definition exCrossedChecked : Game :=
  Eval vm_compute in default exCrossed (snd <$> applyAction "b" "check" 0 exCrossed).

(** The table as [advanceTurn] finds it in Alice's check: the writes of the
    check, her id among those who acted, and the last action. *)
Definition exCrossedClosing : Game :=
  Eval vm_compute in
    match actionEffect 0 (default exBob (players exCrossedChecked !! 0%nat)) "check" 0
            exCrossedChecked with
    | inr g =>
        set_lastAction (Some (mkLastAction "a" "check" 0))
          (set_actedThisRound ({["a"]} ∪ actedThisRound g) g)
    | inl _ => exCrossedChecked
    end.

(** The first hand at the two-seat table when [startHand] is given the
    blinds -20 and -10: [callAmount] is -10. *)
Definition exNegBlinds : Game :=
  Eval vm_compute in
    default exSeated (snd <$> startHand exDraws (mkSettings (Some (-20)) (Some (-10))) exSeated).

(** The stacks and the blinds in force are within ±2^50: what a call of
    [startHand] needs for its subtractions and its pot to be exact. *)
Definition stakesSafe (g : Game) (SB BB : Z) : Prop :=
  Forall (λ p, safeNum (Player.chips p)) (players g) ∧ safeNum SB ∧ safeNum BB.

Global Instance stakesSafe_dec g SB BB : Decision (stakesSafe g SB BB).
Proof. unfold stakesSafe. apply _. Defined.



(** ** Quantities of the further properties *)

(** The log keeps at most fifty entries. *)
Definition logBounded (g : Game) : Prop := (length (log g) ≤ 50)%nat.

(** A seat without its stake: the player object with [chips], [bet],
    [folded] and [allIn] blanked.  Two seats with the same image hold the
    same [id], [name], [hand], [sitOut], [connected], [buyIns], [emoji] and
    [seatIndex]. *)
Definition seatIdentity (p : Player.t) : Player.t :=
  Player.set_allIn false (Player.set_folded false (Player.set_bet 0 (Player.set_chips 0 p))).


(** The fields of the table that belong to the room and to the hand as a
    whole rather than to the betting. *)
Definition tableIdentity (g : Game) : string * Z * Z * Z * Z * Z * list Z :=
  (roomId g, dealerIndex g, handNumber g, SMALL_BLIND g, BIG_BLIND g, defaultStack g,
   sidePots g).

(** The deck followed by the board, last card dealt first: the deck as it
    was before any community card was popped off it. *)
Definition cardsOut (g : Game) : list Card := deck g ++ reverse (community g).

(** Every card of the hand in progress: deck, board and hole cards. *)
Definition allCards (g : Game) : list Card :=
  deck g ++ community g ++ concat (Player.hand <$> players g).


(** What a step of the engine leaves alone: the bound on the log, the seats
    but for their stakes, the table but for the betting, and the cards. *)
Definition sameTable (g g' : Game) : Prop :=
  (logBounded g → logBounded g') ∧
  seatIdentity <$> players g' = seatIdentity <$> players g ∧
  tableIdentity g' = tableIdentity g ∧
  cardsOut g' = cardsOut g.

(** The street after a street; the other phases have none. *)
Definition nextPhase (ph : Phase) : Phase :=
  match ph with
  | Preflop => Flop
  | Flop => Turn
  | Turn => River
  | _ => ph
  end.

(** The number of community cards that leaving a phase puts on the board. *)
Definition streetCards (ph : Phase) : nat :=
  match ph with
  | Preflop => 3
  | Flop | Turn => 1
  | _ => 0
  end.


(** The seats are well formed: at most nine, no two with the same [id], and
    each [seatIndex] the position of its seat. *)
Definition seatsWellFormed (g : Game) : Prop :=
  (length (players g) ≤ 9)%nat ∧
  NoDup (Player.id <$> players g) ∧
  ∀ i p, players g !! i = Some p → Player.seatIndex p = Z.of_nat i.

(** The river table [exTie] after Bob's call: Alice's call ends the hand. *)
Definition exRiverCalled : Game :=
  Eval vm_compute in default exTie (snd <$> applyAction "b" "call" 0 exTie).

(** That table after Alice's call, which ends the hand in a showdown. *)
Definition exShownDown : Game :=
  Eval vm_compute in default exTie (snd <$> applyAction "a" "call" 0 exRiverCalled).

(** The line that [showdown] writes to the log for a seat still in the hand:
    the name, the two hole cards and the name of the best hand. *)
Definition showdownLine (g : Game) (p : Player.t) : string :=
  Player.name p +:+ ": " +:+ handStr (Player.hand p) +:+ " — " +:+
  name (bestOf7 (Player.hand p ++ community g)).

(** ** The room server: what its handlers write to a room

    A room is the object [{ game, hostId, createdAt, settings, webrtcPeers }]
    of the [rooms] map; the handlers below read and write its [game],
    [hostId] and [settings].  A handler is embedded from the point where it
    has looked up the caller ([info.playerId]) and the room; what it emits
    is summed up in its outcome: nothing at all, an error to the caller, or
    the new state of the room, which it broadcasts. *)

Module RoomSettings.
Record t := mk {
    smallBlind : Z;
    bigBlind : Z;
    startingStack : Z;
    turnTimer : Z;
    maxPlayers : Z;
    allowRebuy : bool
}.
End RoomSettings.

(** [defaultSettings()] *)
Definition defaultSettings : RoomSettings.t := RoomSettings.mk 25 50 1500 30 9 false.

(** The settings object sent by a client: a numeric field holds an integer
    or is absent; [allowRebuy] is read by its truthiness. *)
Module NewSettings.
Record t := mk {
    smallBlind : option Z;
    bigBlind : option Z;
    startingStack : option Z;
    turnTimer : option Z;
    maxPlayers : option Z;
    allowRebuy : bool
}.
End NewSettings.

Module Room.
Record t := mk {
    game : Game;
    hostId : option string;
    settings : RoomSettings.t
}.
End Room.

Inductive Handled :=
  | Ignored
  | Refused (msg : string)
  | Applied (room : Room.t).

(** [x >= k] and [x <= k] for a field that may be absent: a comparison with
    [undefined] is false. *)
Definition atLeast (x : option Z) (k : Z) : bool :=
  match x with Some v => bool_decide (k ≤ v) | None => false end.

(** 1e21, from which on a number is printed in exponent notation. *)
Definition EXPONENT_FROM : Z := 1000000000000000000000.



Section Handlers.

(** What [parseInt] reads off a number printed in exponent notation: the
    digits before the point or the [e] (["1e+21"] gives 1). *)
Variable leading : Z → Z.

(** [parseInt(x)] of a number holding an integer.  [parseInt] prints its
    argument and reads the leading integer of the print.  Below 1e21 in
    magnitude the print is the plain decimal of the number, which reads back
    as the number; from 1e21 on the print is in exponent notation. *)
Definition parseInt (x : Z) : Z :=
  if bool_decide (Z.abs x < EXPONENT_FROM) then x else leading x.

(** [if (cond) s.field = parseInt(x)] *)
Definition orKeep (cond : bool) (x : option Z) (old : Z) : Z :=
  if cond then default old (parseInt <$> x) else old.



(** The "apply settings" lines of [game:new_game], which merge four fields
    and check no blind against the other. *)
Definition mergeNewGame (ns : NewSettings.t) (s : RoomSettings.t) : RoomSettings.t :=
  RoomSettings.mk
    (orKeep (atLeast (NewSettings.smallBlind ns) 1) (NewSettings.smallBlind ns)
       (RoomSettings.smallBlind s))
    (orKeep (atLeast (NewSettings.bigBlind ns) 2) (NewSettings.bigBlind ns)
       (RoomSettings.bigBlind s))
    (orKeep (atLeast (NewSettings.startingStack ns) 100) (NewSettings.startingStack ns)
       (RoomSettings.startingStack s))
    (orKeep (atLeast (NewSettings.turnTimer ns) 0) (NewSettings.turnTimer ns)
       (RoomSettings.turnTimer s))
    (RoomSettings.maxPlayers s) (RoomSettings.allowRebuy s).

(** The "reset all players" loop of [game:new_game]. *)
Definition resetSeat (stack : Z) (p : Player.t) : Player.t :=
  Player.set_buyIns 1
    (Player.set_allIn false
       (Player.set_folded false
          (Player.set_bet 0 (Player.set_hand [] (Player.set_chips stack p))))).

(** The handler of [game:new_game]; [ns] is [None] when the client sends no
    settings. *)
Definition newGameStart (caller : string) (ns : option NewSettings.t) (room : Room.t)
    : Handled :=
  if bool_decide (Room.hostId room ≠ Some caller) then Ignored
  else
    let s := match ns with
             | Some x => mergeNewGame x (Room.settings room)
             | None => Room.settings room
             end in
    let g := match ns with
             | Some _ =>
                 set_BIG_BLIND (RoomSettings.bigBlind s)
                   (set_SMALL_BLIND (RoomSettings.smallBlind s) (Room.game room))
             | None => Room.game room
             end in
    let stack := default 1500 (truthyZ (Some (RoomSettings.startingStack s))) in
    let g := set_players (map (resetSeat stack) (players g)) g in
    let g := set_phase Waiting g in
    let g := set_pot 0 g in
    let g := set_community [] g in
    let g := set_currentIndex (-1) g in
    let g := set_handNumber 0 g in
    let g := set_log [] g in
    Applied (Room.mk g (Room.hostId room) s).

End Handlers.


(** The handler of [room:join] on the room found.  [nm] is the display name
    the handler has computed, [fresh] the id that [uuidv4()] yields if the
    handler asks for one; [playerId] and [emoji] are the optional fields of
    the message. *)
Definition roomJoin (fresh nm : string) (playerId emoji : option string) (room : Room.t)
    : Handled :=
  let safeEmoji := default "🎭" (truthyStr emoji) in
  let existing :=
    match truthyStr playerId with
    | Some pid => findPlayer pid (Room.game room)
    | None => None
    end in
  let joined : string + (string * Game) :=
    match existing with
    | Some _ =>
        let pid := default "" playerId in
        inr (pid, reconnectPlayer pid (Room.game room))
    | None =>
        let startingStack :=
          default 1500 (truthyZ (Some (RoomSettings.startingStack (Room.settings room)))) in
        match addPlayer fresh nm (Some startingStack) (Some safeEmoji) (Room.game room) with
        | (RError e, _) => inl (errorMessage e)
        | (_, g) => inr (fresh, g)
        end
    end in
  match joined with
  | inl msg => Refused msg
  | inr (pid, g) =>
      let host := match truthyStr (Room.hostId room) with
                  | Some h => Some h
                  | None => Some pid
                  end in
      Applied (Room.mk g host (Room.settings room))
  end.

(** The handler of [disconnect] on the caller's room. *)
Definition roomLeave (caller : string) (room : Room.t) : Room.t :=
  Room.mk (removePlayer caller (Room.game room)) (Room.hostId room) (Room.settings room).


(** ** Runs of the engine *)







(** * Properties *)

(** ** Hand evaluator *)

Lemma RANK_VAL_range x : 2 ≤ RANK_VAL x ≤ 14.
Proof. destruct x; simpl; lia. Qed.

Lemma RANK_VAL_RANKS (i : nat) x : RANKS !! i = Some x → RANK_VAL x = Z.of_nat i + 2.
Proof.
  do 13 (destruct i as [|i]; [intros [= <-]; reflexivity|]).
  intros [=].
Qed.

Lemma handVals_range cards : Forall (λ v, 2 ≤ v ≤ 14) (handVals cards).
Proof.
  unfold handVals, sort_desc.
  rewrite merge_sort_Permutation.
  apply Forall_forall. intros v Hv.
  apply list_elem_of_fmap in Hv as (c & -> & _).
  apply RANK_VAL_range.
Qed.

Lemma tieVals_range cards : Forall (λ v, 1 ≤ v ≤ 14) (tieVals cards).
Proof.
  unfold tieVals. destruct (isWheel cards).
  - repeat constructor; lia.
  - eapply Forall_impl; [apply handVals_range|]. simpl. intros; lia.
Qed.

Lemma tieAt_range cards k : 0 ≤ tieAt (tieVals cards) k ≤ 14.
Proof.
  unfold tieAt. destruct (tieVals cards !! k) as [v|] eqn:E; simpl; [|lia].
  pose proof (tieVals_range cards) as H.
  rewrite Forall_lookup in H. specialize (H _ _ E). simpl in H. lia.
Qed.

Lemma category_range cards : 0 ≤ (category cards).1 ≤ 8.
Proof.
  unfold category.
  repeat match goal with |- context [if ?b then _ else _] => destruct b end;
    simpl; lia.
Qed.

Lemma evalFive_rank cards : rank (evalFive cards) = (category cards).1.
Proof. unfold evalFive. destruct (category cards); reflexivity. Qed.

Lemma evalFive_score cards :
  score (evalFive cards) = weigh (rank (evalFive cards)) (tieVals cards).
Proof. unfold evalFive. destruct (category cards); reflexivity. Qed.

(** The tie-break part of a score is less than one category step. *)
Lemma weigh_bounds rk cards :
  rk * 10000000000 ≤ weigh rk (tieVals cards) ≤ rk * 10000000000 + 141414154.
Proof.
  unfold weigh.
  pose proof (tieAt_range cards 0). pose proof (tieAt_range cards 1).
  pose proof (tieAt_range cards 2). pose proof (tieAt_range cards 3).
  pose proof (tieAt_range cards 4). lia.
Qed.


(** A hand of a higher category outscores every hand of a lower one,
    whatever the kickers. *)
Lemma category_dominates c1 c2 :
  rank (evalFive c1) < rank (evalFive c2) → score (evalFive c1) < score (evalFive c2).
Proof.
  intros H. rewrite !evalFive_score.
  pose proof (weigh_bounds (rank (evalFive c1)) c1).
  pose proof (weigh_bounds (rank (evalFive c2)) c2). lia.
Qed.

(** The wheel is scored with the ace as 1: its tie-break array is
    [5, 4, 3, 2, 1]. *)
Lemma wheel_tieVals cards :
  sort_asc (handVals cards) = [2; 3; 4; 5; 14] → tieVals cards = [5; 4; 3; 2; 1].
Proof.
  intros H. unfold tieVals, isWheel. rewrite bool_decide_eq_true_2; done.
Qed.

Example wheel_below_six_high :
  let wheel := [mkCard RA Spades; mkCard R2 Hearts; mkCard R3 Diamonds; mkCard R4 Clubs; mkCard R5 Spades] in
  let six := [mkCard R2 Spades; mkCard R3 Hearts; mkCard R4 Diamonds; mkCard R5 Clubs; mkCard R6 Spades] in
  name (evalFive wheel) = "Straight" ∧ name (evalFive six) = "Straight" ∧
  tieVals wheel = [5; 4; 3; 2; 1] ∧ score (evalFive wheel) < score (evalFive six).
Proof. vm_compute. repeat split; reflexivity. Qed.

(** Within a category the tie-break array is the ranks in descending
    order, not grouped by multiplicity: deuces full of aces, [14,14,2,2,2],
    scores above threes full of fours, [4,4,3,3,3]. *)
Example full_house_by_rank_not_by_group :
  let deuces := [mkCard R2 Spades; mkCard R2 Hearts; mkCard R2 Diamonds; mkCard RA Clubs; mkCard RA Spades] in
  let threes := [mkCard R3 Spades; mkCard R3 Hearts; mkCard R3 Diamonds; mkCard R4 Clubs; mkCard R4 Spades] in
  name (evalFive deuces) = "Full House" ∧ name (evalFive threes) = "Full House" ∧
  tieVals deuces = [14; 14; 2; 2; 2] ∧ tieVals threes = [4; 4; 3; 3; 3] ∧
  score (evalFive threes) < score (evalFive deuces).
Proof. vm_compute. repeat split; reflexivity. Qed.

(** C3.  The score does not order two hands of one category by
    their tie-break arrays: aces and kings with a deuce, and aces and queens
    with a king, are both Two Pair, the first array [14,14,13,13,2] is
    lexicographically above the second [14,14,13,12,12], and yet the two
    scores are equal (the fourth value is weighed by 10 only, one step above
    the fifth, which ranges up to 14). *)
Theorem evalFive_score_ties_unequal_kickers :
  let h1 := [mkCard RA Spades; mkCard RA Hearts; mkCard RK Spades; mkCard RK Hearts; mkCard R2 Spades] in
  let h2 := [mkCard RA Diamonds; mkCard RA Clubs; mkCard RK Diamonds; mkCard RQ Spades; mkCard RQ Hearts] in
  NoDup (h1 ++ h2) ∧
  rank (evalFive h1) = 2 ∧ rank (evalFive h2) = 2 ∧
  tieVals h1 = [14; 14; 13; 13; 2] ∧ tieVals h2 = [14; 14; 13; 12; 12] ∧
  lexGt (tieVals h1) (tieVals h2) = true ∧
  score (evalFive h1) = score (evalFive h2).
Proof.
  simpl. split; [apply (bool_decide_unpack _); vm_compute; exact I|].
  vm_compute. repeat split; reflexivity.
Qed.


Lemma foldl_bestStep cards ps best :
  (∀ ij, ij ∈ ps → length (omitTwo ij.1 ij.2 0 cards) = 5%nat) →
  let res := foldl (bestStep cards) best ps in
  (res = best ∨ ∃ ij, ij ∈ ps ∧ res = Some (evalFive (omitTwo ij.1 ij.2 0 cards))) ∧
  (∀ b, best = Some b → ∃ h, res = Some h ∧ score b ≤ score h) ∧
  (∀ ij, ij ∈ ps → ∃ h, res = Some h ∧ score (evalFive (omitTwo ij.1 ij.2 0 cards)) ≤ score h).
Proof.
  revert best. induction ps as [|ij ps IH]; intros best Hlen; simpl.
  - split; [by left|]. split; [eauto with lia|]. intros ? []%elem_of_nil.
  - assert (Hij : length (omitTwo ij.1 ij.2 0 cards) = 5%nat)
      by (apply Hlen; apply list_elem_of_here).
    assert (Hps : ∀ x, x ∈ ps → length (omitTwo x.1 x.2 0 cards) = 5%nat)
      by (intros; apply Hlen; by apply list_elem_of_further).
    destruct (IH (bestStep cards best ij) Hps) as (Hin & Hacc & Hmax).
    assert (Hstep : ∃ h, bestStep cards best ij = Some h ∧
              score (evalFive (omitTwo ij.1 ij.2 0 cards)) ≤ score h ∧
              (∀ b, best = Some b → score b ≤ score h) ∧
              (Some h = best ∨ h = evalFive (omitTwo ij.1 ij.2 0 cards))).
    { unfold bestStep. rewrite bool_decide_eq_false_2 by (rewrite Hij; auto).
      destruct best as [b|]; [case_bool_decide|]; eexists; (split; [reflexivity|]);
        repeat split; try lia; try (intros ? [= <-]; lia); auto; by intros ? [=]. }
    destruct Hstep as (h & Eh & Hle & Hb & Hh).
    split; [|split].
    + destruct Hin as [->|(x & Hx & ->)].
      * rewrite Eh. destruct Hh as [<-| ->]; [by left|].
        right. exists ij. split; [apply list_elem_of_here|done].
      * right. exists x. split; [by apply list_elem_of_further|done].
    + intros b ->. destruct (Hacc h Eh) as (h' & -> & ?).
      exists h'. split; [done|]. specialize (Hb b eq_refl). lia.
    + intros x [->|Hx]%elem_of_cons; [|by apply Hmax].
      destruct (Hacc h Eh) as (h' & -> & ?). exists h'. split; [done|lia].
Qed.

(** For seven cards the 21 arrays that the loops of [bestOf7] build are the
    21 five-card sub-lists. *)
Lemma candidates_combinations cards five :
  length cards = 7%nat → five ∈ candidates cards ↔ five ∈ combinations 5 cards.
Proof.
  intros Hlen.
  do 8 (destruct cards as [|? cards]; try discriminate Hlen). clear Hlen.
  match goal with |- _ ∈ ?l ↔ _ ∈ ?m =>
    let l' := eval vm_compute in l in
    let m' := eval vm_compute in m in
    change (five ∈ l' ↔ five ∈ m')
  end.
  split; intros H;
    repeat (apply elem_of_cons in H as [->|H]);
    try (by apply elem_of_nil in H);
    repeat (first [apply list_elem_of_here | apply list_elem_of_further]).
Qed.

Lemma candidates_length cards :
  length cards = 7%nat → Forall (λ l, length l = 5%nat) (candidates cards).
Proof.
  intros Hlen.
  do 8 (destruct cards as [|? cards]; try discriminate Hlen). clear Hlen.
  vm_compute. repeat constructor.
Qed.

Lemma combinations_7_5 {A} (l : list A) :
  length l = 7%nat → length (combinations 5 l) = 21%nat.
Proof.
  intros Hlen.
  do 8 (destruct l as [|? l]; try discriminate Hlen). reflexivity.
Qed.

(** C4.  On seven cards [bestOf7] returns the evaluation of one of the 21
    five-card sub-lists, and no five-card sub-list evaluates to a higher
    score. *)
Theorem bestOf7_is_maximum cards :
  length cards = 7%nat →
  length (combinations 5 cards) = 21%nat ∧
  (∃ five, five ∈ combinations 5 cards ∧ bestOf7 cards = evalFive five) ∧
  (∀ five, five ∈ combinations 5 cards →
     score (evalFive five) ≤ score (bestOf7 cards)).
Proof.
  intros Hlen. split; [by apply combinations_7_5|].
  assert (Hall : ∀ ij, ij ∈ indexPairs (length cards) →
            length (omitTwo ij.1 ij.2 0 cards) = 5%nat).
  { intros ij Hij.
    pose proof (candidates_length cards Hlen) as Hc.
    rewrite Forall_forall in Hc. apply Hc.
    unfold candidates. apply list_elem_of_fmap. eauto. }
  destruct (foldl_bestStep cards _ None Hall) as (Hin & _ & Hmax).
  assert (Hne : indexPairs (length cards) ≠ []) by (rewrite Hlen; discriminate).
  unfold bestOf7.
  destruct (indexPairs (length cards)) as [|ij0 ps] eqn:Eps; [done|].
  destruct (Hmax ij0 (list_elem_of_here _ _)) as (h0 & Eh0 & _).
  split.
  - destruct Hin as [Hin|(ij & Hij & Hres)]; [congruence|].
    exists (omitTwo ij.1 ij.2 0 cards). split.
    + apply candidates_combinations; [done|].
      unfold candidates. rewrite Eps. apply list_elem_of_fmap. eauto.
    + by rewrite Hres.
  - intros five Hfive.
    apply candidates_combinations in Hfive; [|done].
    unfold candidates in Hfive. rewrite Eps in Hfive.
    apply list_elem_of_fmap in Hfive as (ij & -> & Hij).
    destruct (Hmax ij Hij) as (h & -> & Hle). exact Hle.
Qed.

Lemma bestOf7_is_maximum_witness :
  let cards := [mkCard RA Spades; mkCard R2 Hearts; mkCard R3 Diamonds; mkCard R4 Clubs;
                mkCard R5 Spades; mkCard R6 Spades; mkCard R6 Clubs] in
  length (combinations 5 cards) = 21%nat ∧
  (∃ five, five ∈ combinations 5 cards ∧ bestOf7 cards = evalFive five) ∧
  (∀ five, five ∈ combinations 5 cards →
     score (evalFive five) ≤ score (bestOf7 cards)).
Proof. intros cards. apply (bestOf7_is_maximum cards). reflexivity. Defined.


(** ** Errors *)

Lemma showdown_is_showdown g : ∃ ws, (showdown g).1 = RShowdown ws.
Proof.
  unfold showdown. destruct (foldl showdownEval _ _). simpl. eauto.
Qed.

Lemma nextStreet_not_error g res g' :
  nextStreet g = Some (res, g') → isError res = false.
Proof.
  unfold nextStreet. intros H.
  destruct (phase (streetReset g)) eqn:Eph;
    try (destruct (dealStreet _) as [g1|]; simpl in H; [|discriminate];
         unfold newStreetTurn in H;
         destruct (nextActiveIndex _ _ _); simpl in H; [|discriminate];
         by injection H as <- <-).
  injection H as H. destruct (showdown_is_showdown (streetReset g)) as [ws Hws].
  rewrite H in Hws. simpl in Hws. by subst.
Qed.

Lemma advanceTurn_not_error g res g' :
  advanceTurn g = Some (res, g') → isError res = false.
Proof.
  unfold advanceTurn. intros H.
  assert (Hgen : (next ← findNextToAct g;
            if bool_decide (next = -1) then nextStreet g
            else let g0 := set_currentIndex next g in
                 p ← lookupZ (players g0) next; Some (RNextTurn (Player.id p), g0))
            = Some (res, g') → isError res = false).
  { intros H'. destruct (findNextToAct g) as [next|]; simpl in H'; [|discriminate].
    case_bool_decide; [by eapply nextStreet_not_error|].
    destruct (lookupZ _ next); simpl in H'; [|discriminate].
    by injection H' as <- <-. }
  destruct (inHandSeats g) as [|[i w] [|? ?]]; try exact (Hgen H).
  by injection H as <- <-.
Qed.

Lemma actionEffect_error_kinds i p action amount g e :
  actionEffect i p action amount g = inl e →
  e ∈ [MustCallOrFold; RaiseTooLow; InsufficientChips; UnknownAction].
Proof.
  unfold actionEffect. intros H.
  repeat (case_bool_decide; try discriminate H);
    injection H as <-; elem_tac.
Qed.

(** C2.  An entry point that returns an error leaves the game as it was, and
    the error is of a kind of that entry point: [NotEnoughPlayers] for
    [startHand]; [NotYourTurn], [MustCallOrFold], [RaiseTooLow],
    [InsufficientChips] or [UnknownAction] for [applyAction]; [TableFull] or
    [AlreadySeated] for [addPlayer].  A raise by the player to act to an
    amount that is not above [callAmount] is rejected with [RaiseTooLow] and
    writes nothing; so is, at a table whose [callAmount] is not negative,
    every raise to a negative amount. *)
Theorem errors_leave_state_unchanged g :
  (∀ rnd settings e g',
     startHand rnd settings g = Some (RError e, g') → g' = g ∧ e = NotEnoughPlayers) ∧
  (∀ playerId action amount e g',
     applyAction playerId action amount g = Some (RError e, g') →
     g' = g ∧ e ∈ [NotYourTurn; MustCallOrFold; RaiseTooLow; InsufficientChips; UnknownAction]) ∧
  (∀ pid nm stack emo e g',
     addPlayer pid nm stack emo g = (RError e, g') →
     g' = g ∧ e ∈ [TableFull; AlreadySeated]) ∧
  (∀ p amount,
     lookupZ (players g) (currentIndex g) = Some p → amount ≤ callAmount g →
     applyAction (Player.id p) "raise" amount g = Some (RError RaiseTooLow, g)) ∧
  (∀ p amount,
     lookupZ (players g) (currentIndex g) = Some p → 0 ≤ callAmount g → amount < 0 →
     applyAction (Player.id p) "raise" amount g = Some (RError RaiseTooLow, g)).
Proof.
  assert (Hlow : ∀ p amount,
            lookupZ (players g) (currentIndex g) = Some p → amount ≤ callAmount g →
            applyAction (Player.id p) "raise" amount g = Some (RError RaiseTooLow, g)).
  { intros p amount Hp Hle. unfold applyAction. rewrite Hp.
    rewrite bool_decide_eq_false_2 by auto.
    unfold actionEffect.
    rewrite (bool_decide_eq_false_2 ("raise" = "fold")) by discriminate.
    rewrite (bool_decide_eq_false_2 ("raise" = "check")) by discriminate.
    rewrite (bool_decide_eq_false_2 ("raise" = "call")) by discriminate.
    rewrite (bool_decide_eq_true_2 ("raise" = "raise")) by reflexivity.
    rewrite bool_decide_eq_true_2 by lia. reflexivity. }
  split; [|split; [|split; [|split]]].
  - intros rnd settings e g'. unfold startHand. case_bool_decide.
    + by intros [= <- <-].
    + destruct (startHand_writes _ _ _); simpl; intros [=].
  - intros playerId action amount e g'. unfold applyAction.
    destruct (lookupZ _ _) as [p|]; [|intros [= <- <-]; split; [done|elem_tac]].
    case_bool_decide; [intros [= <- <-]; split; [done|elem_tac]|].
    destruct (actionEffect _ _ _ _ _) as [e'|g1] eqn:Eeff.
    + intros [= <- <-]. split; [done|].
      apply actionEffect_error_kinds in Eeff.
      repeat (apply elem_of_cons in Eeff as [->|Eeff]); [elem_tac..|].
      by apply elem_of_nil in Eeff.
    + intros Hadv. apply advanceTurn_not_error in Hadv. discriminate.
  - intros pid nm stack emo e g'. unfold addPlayer.
    destruct (findPlayer pid g) as [[i ex]|].
    + destruct (negb _); intros [= <- <-]. split; [done|elem_tac].
    + case_bool_decide; intros [= <- <-]. split; [done|elem_tac].
  - exact Hlow.
  - intros p amount Hp Hcall Hneg. apply Hlow; [done|lia].
Qed.

Lemma errors_leave_state_unchanged_witness :
  applyAction "b" "raise" (-5) exPreflop = Some (RError RaiseTooLow, exPreflop).
Proof.
  destruct (errors_leave_state_unchanged exPreflop) as (_ & _ & _ & _ & H).
  apply (H exBob (-5)); [vm_compute; reflexivity | vm_compute; discriminate | lia].
Defined.

(** C2 as worded fails: [startHand] takes the blinds -20 and -10 as they
    come, and at the table it leaves, whose [callAmount] is -10, Bob's raise
    to -5 passes both guards of the raise and is applied: his stack goes
    from 1520 to 1505, his bet from -20 to -5, the pot from -30 to -15 and
    [callAmount] to -5. *)
Lemma negative_raise_applied :
  startHand exDraws (mkSettings (Some (-20)) (Some (-10))) exSeated
  = Some (RSuccess None, exNegBlinds) ∧
  callAmount exNegBlinds = -10 ∧
  (Player.chips <$> players exNegBlinds, Player.bet <$> players exNegBlinds,
   pot exNegBlinds) = ([1510; 1520], [-10; -20], -30) ∧
  ∃ g', applyAction "b" "raise" (-5) exNegBlinds = Some (RNextTurn "a", g') ∧
        (Player.chips <$> players g', Player.bet <$> players g', pot g', callAmount g')
        = ([1510; 1505], [-10; -5], -15, -5).
Proof.
  split_and!; [vm_compute; reflexivity..|].
  eexists. split; vm_compute; reflexivity.
Qed.

(** ** Chip accounting *)


Lemma sumZ_alter (f : Player.t → Player.t) (proj : Player.t → Z) ps i p :
  ps !! i = Some p →
  sumZ (proj <$> alter f i ps) = sumZ (proj <$> ps) - proj p + proj (f p).
Proof.
  revert i. induction ps as [|q ps IH]; intros [|i] H; simplify_eq/=; [lia|].
  rewrite (IH i H). lia.
Qed.


Lemma lookupZ_Some {A} (l : list A) i x :
  lookupZ l i = Some x → 0 ≤ i ∧ l !! Z.to_nat i = Some x.
Proof. unfold lookupZ. case_bool_decide; [done|discriminate]. Qed.


(** ** Seats still in the hand *)

Lemma inHandSeats_spec g i p :
  (i, p) ∈ inHandSeats g ↔ players g !! i = Some p ∧ inHand p = true.
Proof.
  unfold inHandSeats. rewrite list_elem_of_filter, elem_of_lookup_imap. simpl.
  rewrite Is_true_true. split.
  - intros (? & j & q & [= -> ->] & ?). done.
  - intros [? ?]. eauto.
Qed.




(** ** Settlement *)

(** Paying a list of seats writes only the stacks and the log. *)
Lemma payWinner_fold share ws g :
  players (foldl (payWinner share) g ws)
  = foldl (λ ps (e : nat * Player.t * HandResult), alter (credit share) e.1.1 ps)
      (players g) ws ∧
  pot (foldl (payWinner share) g ws) = pot g ∧
  phase (foldl (payWinner share) g ws) = phase g ∧
  community (foldl (payWinner share) g ws) = community g.
Proof.
  revert g. induction ws as [|[[i p] h] ws IH]; intros g; [done|].
  cbn [foldl].
  destruct (IH (payWinner share g (i, p, h))) as (E1 & E2 & E3 & E4).
  rewrite E1, E2, E3, E4. done.
Qed.

Lemma credit_fold_sum share (ws : list (nat * Player.t * HandResult))
    (ps : list Player.t) :
  (∀ e, e ∈ ws → (e.1.1 < length ps)%nat) →
  sumZ (Player.chips <$>
          foldl (λ ps (e : nat * Player.t * HandResult), alter (credit share) e.1.1 ps) ps ws)
  = sumZ (Player.chips <$> ps) + Z.of_nat (length ws) * share.
Proof.
  revert ps. induction ws as [|e ws IH]; intros ps Hlt; simpl foldl; [simpl; lia|].
  rewrite IH.
  - destruct (lookup_lt_is_Some_2 ps e.1.1) as [q Hq];
      [apply Hlt, list_elem_of_here|].
    rewrite (sumZ_alter _ _ _ _ _ Hq). simpl length. unfold credit. simpl. lia.
  - intros e' He'. rewrite length_alter. by apply Hlt, list_elem_of_further.
Qed.




(** The first loop of [showdown] writes the log only, and leaves in
    [bestScore] the maximum of its start value and the scores. *)
Lemma showdownEval_fold results g0 b0 :
  let r := foldl showdownEval (g0, b0) results in
  players r.1 = players g0 ∧ pot r.1 = pot g0 ∧ community r.1 = community g0 ∧
  phase r.1 = phase g0 ∧
  b0 ≤ r.2 ∧ (∀ e, e ∈ results → score e.2 ≤ r.2) ∧
  (r.2 = b0 ∨ ∃ e, e ∈ results ∧ score e.2 = r.2).
Proof.
  revert g0 b0. induction results as [|[[i p] h] rs IH]; intros g0 b0; cbn [foldl].
  - simpl. split_and!; try done; [by intros ? ?%elem_of_nil|by left].
  - cbn zeta in IH.
    destruct (IH (showdownEval (g0, b0) (i, p, h)).1 (showdownEval (g0, b0) (i, p, h)).2)
      as (E1 & E2 & E3 & E4 & Hle & Hall & Hex).
    rewrite <-surjective_pairing in E1, E2, E3, E4, Hle, Hall, Hex.
    cbn zeta. rewrite E1, E2, E3, E4.
    set (r := foldl showdownEval (showdownEval (g0, b0) (i, p, h)) rs) in *.
    assert (Hstep : (showdownEval (g0, b0) (i, p, h)).2
                    = if bool_decide (score h > b0) then score h else b0) by done.
    rewrite Hstep in Hle, Hex.
    set (x := if bool_decide (score h > b0) then score h else b0) in *.
    assert (Hx : b0 ≤ x ∧ score h ≤ x ∧ (x = b0 ∨ x = score h))
      by (unfold x; case_bool_decide; lia).
    clearbody x r.
    split_and!; try done.
    + lia.
    + intros e [->|He]%elem_of_cons; [|by apply Hall]. simpl. lia.
    + destruct Hex as [Hex|(e & He & Hex)].
      * destruct Hx as (_ & _ & [Hx|Hx]); [left; lia|]. right. exists (i, p, h).
        split; [apply list_elem_of_here|simpl; lia].
      * right. exists e. split; [by apply list_elem_of_further|done].
Qed.






(** What [showdown] does, in terms of the value [best] its first loop
    leaves in [bestScore]. *)
Lemma showdown_effect g :
  ∃ best,
    let ws := filter (λ e : nat * Player.t * HandResult, score e.2 = best) (showdownResults g) in
    let share := pot g `div` Z.of_nat (length ws) in
    (showdown g).1
    = RShowdown (map (λ e : nat * Player.t * HandResult,
                        Winner.mk (Player.id e.1.2) (Player.name e.1.2) (Some (name e.2)) share) ws) ∧
    players (showdown g).2
    = foldl (λ ps (e : nat * Player.t * HandResult), alter (credit share) e.1.1 ps) (players g) ws ∧
    pot (showdown g).2 = 0 ∧ phase (showdown g).2 = Waiting ∧
    community (showdown g).2 = community g ∧
    (∀ e, e ∈ showdownResults g → score e.2 ≤ best) ∧
    (best = -1 ∨ ∃ e, e ∈ showdownResults g ∧ score e.2 = best).
Proof.
  unfold showdown.
  set (g0 := addLog "--- SHOWDOWN ---" (set_phase Showdown g)).
  change (showdownResults g0) with (showdownResults g).
  pose proof (showdownEval_fold (showdownResults g) g0 (-1)) as Hfold.
  cbn zeta in Hfold.
  destruct (foldl showdownEval (g0, -1) (showdownResults g)) as [g1 best].
  simpl in Hfold. destruct Hfold as (E1 & E2 & E3 & E4 & Hle & Hall & Hex).
  exists best. cbn zeta.
  set (ws := filter (λ e : nat * Player.t * HandResult, score e.2 = best) (showdownResults g)).
  destruct (payWinner_fold (pot g1 `div` Z.of_nat (length ws)) ws g1) as (F1 & F2 & F3 & F4).
  change (pot g0) with (pot g) in E2. change (players g0) with (players g) in E1.
  change (community g0) with (community g) in E3.
  cbn [fst snd]. rewrite <-E2.
  split_and!; try done.
  - change (players (set_phase ?a (set_pot ?b ?x))) with (players x).
    by rewrite F1, E1.
  - change (community (set_phase ?a (set_pot ?b ?x))) with (community x).
    by rewrite F4, E3.
Qed.






(** The same showdown by evaluation: both seats hold the maximum and are
    credited 50 of the 101 in the pot. *)
Example exTie_showdown :
  Player.chips <$> players exTie = [1450; 1449] ∧
  Player.chips <$> players (showdown exTie).2 = [1500; 1499] ∧
  length (winnersWith exTie 141311097) = 2%nat.
Proof. vm_compute. done. Qed.

(** Within the exact range the source's [+=] is the addition of [credit]. *)
Lemma creditDouble_exact amount q :
  safeNum (Player.chips q) → safeNum amount →
  creditDouble amount q = credit amount q.
Proof.
  unfold safeNum, SAFE_AMOUNT, creditDouble, credit, roundDouble. intros Hc Ha.
  cbn zeta. rewrite bool_decide_eq_true_2; [done|]. unfold EXACT_MAX. lia.
Qed.


Lemma sumChips_streetReset g : sumChips (streetReset g) = sumChips g.
Proof.
  unfold sumChips, streetReset. simpl. rewrite <-list_fmap_compose.
  done.
Qed.

Lemma dealStreet_frame g g' :
  dealStreet g = Some g' → players g' = players g ∧ pot g' = pot g.
Proof.
  unfold dealStreet. intros H.
  destruct (phase g); simplify_eq/=; try done;
    repeat match goal with
    | H : context [pop ?d] |- _ => destruct (pop d) as [[? ?]|]; simplify_eq/=
    end; done.
Qed.

Lemma newStreetTurn_frame g res g' :
  newStreetTurn g = Some (res, g') →
  players g' = players g ∧ pot g' = pot g ∧ ∃ ph cur, res = RNewStreet ph cur.
Proof.
  unfold newStreetTurn. intros H.
  destruct (nextActiveIndex _ _ _); simplify_eq/=. eauto.
Qed.

(** The showdown payout: each of the [k] winners is credited
    [floor(pot / k)]. *)
Lemma showdown_value g :
  ∃ ws, (showdown g).1 = RShowdown ws ∧
    let share := pot g `div` Z.of_nat (length ws) in
    Forall (λ w, Winner.amount w = share) ws ∧
    pot (showdown g).2 = 0 ∧
    sumChips (showdown g).2 = sumChips g + Z.of_nat (length ws) * share.
Proof.
  destruct (showdown_effect g) as (best & Hres & Hps & Hpot & _ & _ & _ & _).
  cbn zeta in *.
  set (ws := filter (λ e : nat * Player.t * HandResult, score e.2 = best) (showdownResults g)) in *.
  eexists. split; [exact Hres|]. rewrite length_fmap.
  split_and!; [|done|].
  - apply Forall_fmap, Forall_forall. done.
  - unfold sumChips. rewrite Hps. apply credit_fold_sum.
    intros e [_ He]%list_elem_of_filter.
    apply list_elem_of_fmap in He as ([i q] & -> & Hq). simpl.
    apply inHandSeats_spec in Hq as [Hq _]. by eapply lookup_lt_Some.
Qed.

Lemma nextStreet_value g res g' :
  nextStreet g = Some (res, g') →
  match res with
  | RShowdown ws =>
      let share := pot g `div` Z.of_nat (length ws) in
      Forall (λ w, Winner.amount w = share) ws ∧ pot g' = 0 ∧
      sumChips g' = sumChips g + Z.of_nat (length ws) * share
  | RNewStreet _ _ => sumChips g' = sumChips g ∧ pot g' = pot g
  | _ => False
  end.
Proof.
  unfold nextStreet. cbn zeta.
  pose proof (sumChips_streetReset g) as Hs.
  assert (Hp : pot (streetReset g) = pot g) by done.
  assert (Hother : (g0 ← dealStreet (streetReset g); newStreetTurn g0) = Some (res, g') →
            match res with
            | RShowdown ws =>
                let share := pot g `div` Z.of_nat (length ws) in
                Forall (λ w, Winner.amount w = share) ws ∧ pot g' = 0 ∧
                sumChips g' = sumChips g + Z.of_nat (length ws) * share
            | RNewStreet _ _ => sumChips g' = sumChips g ∧ pot g' = pot g
            | _ => False
            end).
  { intros H. destruct (dealStreet _) as [g0|] eqn:Ed; simplify_eq/=.
    apply dealStreet_frame in Ed as [E1 E2].
    apply newStreetTurn_frame in H as (F1 & F2 & ph & cur & ->).
    unfold sumChips in *. rewrite F1, E1, F2, E2. done. }
  destruct (phase (streetReset g)); try exact Hother.
  intros [= H]. destruct (showdown_value (streetReset g)) as (ws & Hres & Hall & Hpot & Hsum).
  rewrite H in Hres, Hpot, Hsum. simpl in Hres, Hpot, Hsum. subst res.
  cbn zeta in *. rewrite Hp, Hs in *. done.
Qed.






(** ** Single remaining player *)



(** The same fold by evaluation: Alice's 1450 become 1525. *)
Example exPreflop_fold :
  (λ o, (λ rg : Result * Game, (Player.chips <$> players rg.2, pot rg.2, phase rg.2)) <$> o)
    (applyAction "b" "fold" 0 exPreflop)
  = Some ([1525; 1475], 0, Waiting).
Proof. vm_compute. reflexivity. Qed.


(** ** Turn order *)

Lemma wrap_mod x n : 0 < n → wrap x n = x `mod` n.
Proof.
  intros Hn. unfold wrap.
  pose proof (Z.rem_bound_abs x n ltac:(lia)) as Hb.
  assert (Hr : Z.rem x n = x - n * (x ÷ n)) by (pose proof (Z.quot_rem' x n); lia).
  rewrite Z.rem_mod_nonneg by lia.
  rewrite <-(Z_mod_plus_full x (1 - x ÷ n) n). f_equal. lia.
Qed.

Lemma lookupZ_lt {A} (l : list A) i :
  0 ≤ i < Z.of_nat (length l) → ∃ x, lookupZ l i = Some x ∧ l !! Z.to_nat i = Some x.
Proof.
  intros Hi. unfold lookupZ. rewrite bool_decide_eq_true_2 by lia.
  destruct (lookup_lt_is_Some_2 l (Z.to_nat i)) as [x Hx]; [lia|]. eauto.
Qed.

Lemma findNext_loop_spec g n k i :
  n = Z.of_nat (length (players g)) → 0 ≤ i < n →
  ∃ r, findNext_loop g n k i = Some r ∧
    ((r = -1 ∧ ∀ t : nat, (t < k)%nat →
        ∃ p, lookupZ (players g) ((i + Z.of_nat t) `mod` n) = Some p ∧ needsToAct g p = false)
     ∨ (0 ≤ r < n ∧ ∃ p, lookupZ (players g) r = Some p ∧ needsToAct g p = true)).
Proof.
  intros Hn. revert i. induction k as [|k IH]; intros i Hi; simpl.
  - eexists. split; [done|]. left. split; [done|]. intros; lia.
  - destruct (lookupZ_lt (players g) i) as (p & Hp & _); [lia|]. rewrite Hp. simpl.
    destruct (needsToAct g p) eqn:Ep.
    + eexists. split; [done|]. right. eauto.
    + rewrite wrap_mod by lia.
      destruct (IH ((i + 1) `mod` n)) as (r & Hr & Hcase); [apply Z.mod_pos_bound; lia|].
      exists r. split; [done|].
      destruct Hcase as [[-> Hall]|?]; [|by right].
      left. split; [done|]. intros [|t] Ht.
      * rewrite Z.add_0_r, Z.mod_small by lia. eauto.
      * destruct (Hall t ltac:(lia)) as (q & Hq & ?). exists q. split; [|done].
        rewrite <-Hq. f_equal.
        rewrite Zplus_mod_idemp_l. f_equal. lia.
Qed.

(** C8.  On every table [findNextToAct] returns -1 exactly when every seat
    that is not folded is all-in or has acted with a bet that is not below
    [callAmount]; any other value it returns is the index of a seat that is
    neither folded nor all-in; and when some such seat has bet less than
    [callAmount] it returns a seat.  On a table where no seat that can act
    has bet more than [callAmount], "not below" is "equal to": there it
    returns -1 exactly when every seat that is not folded is all-in or has
    acted with a bet equal to [callAmount], and with at least two seats that
    can act whose bets are not all equal to [callAmount] it returns a
    seat. *)
Theorem findNextToAct_spec g :
  ∃ r, findNextToAct g = Some r ∧
    (r = -1 ↔
     ∀ p, p ∈ players g → Player.folded p = false →
          Player.allIn p = true ∨
          (Player.id p ∈ actedThisRound g ∧ callAmount g ≤ Player.bet p)) ∧
    (r ≠ -1 →
     0 ≤ r < Z.of_nat (length (players g)) ∧
     ∃ p, players g !! Z.to_nat r = Some p ∧ canAct p = true) ∧
    ((∃ p, p ∈ players g ∧ canAct p = true ∧ Player.bet p < callAmount g) → r ≠ -1) ∧
    ((∀ p, p ∈ players g → canAct p = true → Player.bet p ≤ callAmount g) →
     (r = -1 ↔
      ∀ p, p ∈ players g → Player.folded p = false →
           Player.allIn p = true ∨
           (Player.id p ∈ actedThisRound g ∧ Player.bet p = callAmount g)) ∧
     ((2 ≤ length (filter (λ p, canAct p = true) (players g)))%nat →
      (∃ p, p ∈ players g ∧ canAct p = true ∧ Player.bet p ≠ callAmount g) →
      r ≠ -1)).
Proof.
  unfold findNextToAct.
  set (n := Z.of_nat (length (players g))).
  assert (Hdone : ∀ p, needsToAct g p = false ↔
            (Player.folded p = false → Player.allIn p = true ∨
               (Player.id p ∈ actedThisRound g ∧ callAmount g ≤ Player.bet p))).
  { intros p. unfold needsToAct.
    destruct (Player.folded p), (Player.allIn p); simpl.
    - split; [by intros _ ?|done].
    - split; [by intros _ ?|done].
    - split; [intros _ _; by left|done].
    - rewrite orb_false_iff, negb_false_iff, bool_decide_eq_true, bool_decide_eq_false.
      split; [intros [? ?] _; right; split; [done|lia]|].
      intros H. destruct (H eq_refl) as [?|[? ?]]; [done|]. split; [done|lia]. }
  assert (Hact : ∀ p, needsToAct g p = true → canAct p = true).
  { intros p. unfold needsToAct, canAct. by intros [? _]%andb_true_iff. }
  assert (Hcan : ∀ p, canAct p = true → Player.folded p = false ∧ Player.allIn p = false).
  { intros p. unfold canAct. intros [Hf Ha]%andb_true_iff.
    by apply negb_true_iff in Hf, Ha. }
  destruct (decide (n = 0)) as [Hz|Hnz].
  - assert (Hnil : players g = []) by (apply length_zero_iff_nil; lia).
    rewrite Hnil. simpl. eexists. split; [done|]. split_and!; try done.
    + split; [|done]. intros _ p Hp. by apply elem_of_nil in Hp.
    + intros (p & Hp & _). by apply elem_of_nil in Hp.
    + intros _. split.
      * split; [|done]. intros _ p Hp. by apply elem_of_nil in Hp.
      * intros _ (p & Hp & _). by apply elem_of_nil in Hp.
  - assert (Hpos : 0 < n) by lia.
    destruct (findNext_loop_spec g n (length (players g)) (wrap (currentIndex g + 1) n) eq_refl)
      as (r & Hr & Hcase).
    { rewrite wrap_mod by done. by apply Z.mod_pos_bound. }
    exists r. split; [exact Hr|].
    assert (Hiff : r = -1 ↔ ∀ p, p ∈ players g → needsToAct g p = false).
    { split.
      - intros ->. destruct Hcase as [[_ Hall]|[? _]]; [|lia].
        intros p [j Hj]%list_elem_of_lookup.
        pose proof (lookup_lt_Some _ _ _ Hj) as Hlt.
        set (s := wrap (currentIndex g + 1) n) in *.
        destruct (Hall (Z.to_nat ((Z.of_nat j - s) `mod` n))) as (q & Hq & Hdn).
        { pose proof (Z.mod_pos_bound (Z.of_nat j - s) n Hpos). lia. }
        rewrite Z2Nat.id in Hq by (apply Z.mod_pos_bound; lia).
        rewrite Zplus_mod_idemp_r in Hq.
        replace (s + (Z.of_nat j - s)) with (Z.of_nat j) in Hq by lia.
        rewrite Z.mod_small in Hq by lia.
        apply lookupZ_Some in Hq as [_ Hq]. rewrite Nat2Z.id in Hq. congruence.
      - intros Hall. destruct Hcase as [[-> _]|[Hrange (p & Hp & Hneed)]]; [done|].
        apply lookupZ_Some in Hp as [_ Hp].
        rewrite (Hall p) in Hneed by (by eapply list_elem_of_lookup_2). done. }
    assert (Hgen : r = -1 ↔
              ∀ p, p ∈ players g → Player.folded p = false →
                   Player.allIn p = true ∨
                   (Player.id p ∈ actedThisRound g ∧ callAmount g ≤ Player.bet p)).
    { rewrite Hiff. split.
      - intros Hall p Hp. by apply Hdone, Hall.
      - intros Hall p Hp. apply Hdone. by apply Hall. }
    split_and!.
    + exact Hgen.
    + intros Hne. destruct Hcase as [[-> _]|[Hrange (p & Hp & Hneed)]]; [done|].
      split; [done|]. exists p. apply lookupZ_Some in Hp as [_ Hp]. eauto.
    + intros (p & Hp & Hc & Hbet) ->.
      destruct (Hcan p Hc) as [Hf Ha].
      destruct (proj1 Hgen eq_refl p Hp Hf) as [?|[_ ?]]; [congruence|lia].
    + intros Hinv. split.
      * rewrite Hgen. split.
        -- intros Hall p Hp Hf.
           destruct (Player.allIn p) eqn:Ea; [by left|]. right.
           destruct (Hall p Hp Hf) as [?|[? ?]]; [congruence|].
           split; [done|].
           assert (Player.bet p ≤ callAmount g)
             by (apply Hinv; [done|]; unfold canAct; by rewrite Hf, Ea).
           lia.
        -- intros Hall p Hp Hf.
           destruct (Hall p Hp Hf) as [?|[? ?]]; [by left|]. right. split; [done|lia].
      * intros _ (p & Hp & Hc & Hbet) ->.
        destruct (Hcan p Hc) as [Hf Ha].
        destruct (proj1 Hgen eq_refl p Hp Hf) as [?|[_ ?]]; [congruence|].
        assert (Player.bet p ≤ callAmount g) by (by apply Hinv).
        lia.
Qed.

Lemma exPreflop_bets p :
  p ∈ players exPreflop → canAct p = true → Player.bet p ≤ callAmount exPreflop.
Proof.
  intros Hp _.
  apply elem_of_cons in Hp as [->|Hp]; [vm_compute; discriminate|].
  apply elem_of_cons in Hp as [->|Hp]; [vm_compute; discriminate|].
  by apply elem_of_nil in Hp.
Qed.

Lemma findNextToAct_spec_witness :
  ∃ r, findNextToAct exPreflop = Some r ∧
    (r ≠ -1 →
     0 ≤ r < Z.of_nat (length (players exPreflop)) ∧
     ∃ p, players exPreflop !! Z.to_nat r = Some p ∧ canAct p = true) ∧
    (r = -1 ↔
     ∀ p, p ∈ players exPreflop → Player.folded p = false →
          Player.allIn p = true ∨
          (Player.id p ∈ actedThisRound exPreflop ∧ Player.bet p = callAmount exPreflop)).
Proof.
  destruct (findNextToAct_spec exPreflop) as (r & Hr & _ & Hseat & _ & Hworded).
  exists r. exact (conj Hr (conj Hseat (proj1 (Hworded exPreflop_bets)))).
Defined.

(** C8 as worded fails.  Started with a small blind of 100 over a big blind
    of 50, the hand leaves Bob with a bet of 100 and Alice with one of 50 at
    a [callAmount] of 50.  Both check; when [advanceTurn] then looks for the
    next seat, both can act and their bets are not all equal to
    [callAmount], and Bob is neither all-in nor has a bet matching
    [callAmount], yet [findNextToAct] returns -1 and the street closes. *)
Lemma findNextToAct_closes_on_unequal_bets :
  startHand exDraws (mkSettings (Some 100) (Some 50)) exSeated
  = Some (RSuccess None, exCrossed) ∧
  applyAction "b" "check" 0 exCrossed = Some (RNextTurn "a", exCrossedChecked) ∧
  (∃ g', applyAction "a" "check" 0 exCrossedChecked = Some (RNewStreet Flop (Some "b"), g') ∧
         advanceTurn exCrossedClosing = Some (RNewStreet Flop (Some "b"), g')) ∧
  (2 ≤ length (filter (λ p, canAct p = true) (players exCrossedClosing)))%nat ∧
  Player.bet <$> players exCrossedClosing = [50; 100] ∧
  callAmount exCrossedClosing = 50 ∧
  findNextToAct exCrossedClosing = Some (-1) ∧
  ¬ (∀ p, p ∈ players exCrossedClosing → Player.folded p = false →
          Player.allIn p = true ∨
          (Player.id p ∈ actedThisRound exCrossedClosing ∧
           Player.bet p = callAmount exCrossedClosing)).
Proof.
  split_and!; try (vm_compute; reflexivity).
  - eexists. split; vm_compute; reflexivity.
  - intros H.
    destruct (H (default exBob (players exCrossedClosing !! 1%nat))) as [Ha|[_ Hb]].
    + vm_compute. elem_tac.
    + vm_compute. reflexivity.
    + vm_compute in Ha. discriminate.
    + vm_compute in Hb. discriminate.
Qed.

(** In the first hand Bob is to act and Alice, the big blind, has not acted:
    the next seat is hers. *)
Example exPreflop_next : findNextToAct exPreflop = Some 0.
Proof. vm_compute. reflexivity. Qed.

(** [nextActiveIndex] walks the seats after [from] in a circle and stops at
    the first that can act, or after [k] steps. *)
Lemma nextActive_loop_spec (ps : list Player.t) n k i :
  n = Z.of_nat (length ps) → 0 ≤ i < n →
  ∃ r t, nextActive_loop ps n 1 k i = Some r ∧
    (t ≤ k)%nat ∧ r = (i + Z.of_nat t) `mod` n ∧
    (∀ t' : nat, (t' < t)%nat →
       ∃ q, lookupZ ps ((i + Z.of_nat t') `mod` n) = Some q ∧ canAct q = false) ∧
    ((t < k)%nat → ∃ q, lookupZ ps r = Some q ∧ canAct q = true).
Proof.
  intros Hn. revert i. induction k as [|k IH]; intros i Hi; simpl;
    destruct (lookupZ_lt ps i) as (p & Hp & _); try lia; rewrite Hp; simpl.
  - exists i, 0%nat. rewrite Z.add_0_r, Z.mod_small by lia.
    split_and!; try done; intros; lia.
  - destruct (Player.folded p || Player.allIn p) eqn:Eok.
    + rewrite wrap_mod by lia.
      destruct (IH ((i + 1) `mod` n)) as (r & t & Hr & Ht & Hrt & Hbefore & Hok);
        [apply Z.mod_pos_bound; lia|].
      exists r, (S t). split_and!; try done; try lia.
      * rewrite Hrt, Zplus_mod_idemp_l. f_equal. lia.
      * intros [|t'] Ht'.
        -- rewrite Z.add_0_r, Z.mod_small by lia. exists p. split; [done|].
           unfold canAct. by destruct (Player.folded p), (Player.allIn p).
        -- destruct (Hbefore t' ltac:(lia)) as (q & Hq & ?). exists q. split; [|done].
           rewrite <-Hq. f_equal. rewrite Zplus_mod_idemp_l. f_equal. lia.
      * intros ?. apply Hok. lia.
    + exists i, 0%nat. rewrite Z.add_0_r, Z.mod_small by lia.
      split_and!; try done; try lia.
      intros _. exists p. split; [done|].
      unfold canAct. by destruct (Player.folded p), (Player.allIn p).
Qed.

Lemma nextActiveIndex_total g from :
  players g ≠ [] →
  ∃ r, nextActiveIndex g from 1 = Some r ∧ 0 ≤ r < Z.of_nat (length (players g)).
Proof.
  intros Hne. unfold nextActiveIndex.
  assert (0 < Z.of_nat (length (players g))) by (destruct (players g); simpl; [done|lia]).
  destruct (nextActive_loop_spec (players g) _ (length (players g))
              (wrap (from + 1) (Z.of_nat (length (players g)))) eq_refl)
    as (r & t & Hr & _ & -> & _).
  { rewrite wrap_mod by done. by apply Z.mod_pos_bound. }
  eexists. split; [done|]. by apply Z.mod_pos_bound.
Qed.

Lemma pop_length {A} (l : list A) :
  (1 ≤ length l)%nat → ∃ x l', pop l = Some (x, l') ∧ l = l' ++ [x].
Proof.
  intros Hl. unfold pop.
  destruct (reverse l) as [|x l'] eqn:E.
  - apply (f_equal length) in E. rewrite length_reverse in E. simpl in E. lia.
  - exists x, (reverse l'). split; [done|].
    rewrite <-(reverse_involutive l), E, reverse_cons. done.
Qed.

Lemma dealStreet_total g :
  (3 ≤ length (deck g))%nat →
  ∃ g', dealStreet g = Some g' ∧ players g' = players g.
Proof.
  intros Hd. unfold dealStreet.
  destruct (pop_length (deck g)) as (c1 & d1 & -> & E1); [lia|].
  assert (length d1 = (length (deck g) - 1)%nat) by (rewrite E1, length_app; simpl; lia).
  destruct (pop_length d1) as (c2 & d2 & E2' & E2); [lia|].
  assert (length d2 = (length d1 - 1)%nat) by (rewrite E2, length_app; simpl; lia).
  destruct (pop_length d2) as (c3 & d3 & E3' & E3); [lia|].
  destruct (phase g); simpl; rewrite ?E2'; simpl; rewrite ?E3'; simpl; eauto.
Qed.

Lemma advanceTurn_total g :
  players g ≠ [] → (3 ≤ length (deck g))%nat →
  ∃ res g', advanceTurn g = Some (res, g').
Proof.
  intros Hne Hd. unfold advanceTurn.
  assert (Hgen : ∃ res g', (next ← findNextToAct g;
            if bool_decide (next = -1) then nextStreet g
            else let g0 := set_currentIndex next g in
                 p ← lookupZ (players g0) next; Some (RNextTurn (Player.id p), g0))
            = Some (res, g')).
  { assert (Hn : 0 < Z.of_nat (length (players g)))
      by (destruct (players g); simpl; [done|lia]).
    unfold findNextToAct.
    destruct (findNext_loop_spec g _ (length (players g))
                (wrap (currentIndex g + 1) (Z.of_nat (length (players g)))) eq_refl)
      as (r & -> & Hcase).
    { rewrite wrap_mod by done. by apply Z.mod_pos_bound. }
    simpl. case_bool_decide as Hr.
    - unfold nextStreet. cbn zeta.
      destruct (dealStreet_total (streetReset g) Hd) as (g1 & Hg1 & Hps).
      destruct (nextActiveIndex_total g1 (dealerIndex g1)) as (cur & Hcur & _).
      { rewrite Hps. simpl. by destruct (players g). }
      destruct (phase (streetReset g)); try (rewrite Hg1; simpl; unfold newStreetTurn;
        rewrite Hcur; simpl; eauto).
      destruct (showdown (streetReset g)). eauto.
    - destruct Hcase as [[? _]|[_ (p & Hp & _)]]; [done|].
      simpl. change (players (set_currentIndex r g)) with (players g).
      rewrite Hp. simpl. eauto. }
  destruct (inHandSeats g) as [|[i w] [|? ?]]; try exact Hgen. eauto.
Qed.

(** ** The stored minimum raise *)

Lemma showdown_minRaise g : minRaise (showdown g).2 = minRaise g.
Proof.
  unfold showdown.
  assert (H1 : ∀ rs acc, minRaise (foldl showdownEval acc rs).1 = minRaise acc.1).
  { induction rs as [|[[i p] h] rs IH]; intros acc; [done|]. cbn [foldl]. by rewrite IH. }
  assert (H2 : ∀ sh ws g0, minRaise (foldl (payWinner sh) g0 ws) = minRaise g0).
  { intros sh. induction ws as [|[[i p] h] ws IH]; intros g0; [done|].
    cbn [foldl]. by rewrite IH. }
  set (g0 := addLog "--- SHOWDOWN ---" (set_phase Showdown g)).
  specialize (H1 (showdownResults g0) (g0, -1)).
  destruct (foldl showdownEval (g0, -1) (showdownResults g0)) as [g1 best].
  simpl in *. by rewrite H2, H1.
Qed.

Lemma dealStreet_minRaise g g' :
  dealStreet g = Some g' → minRaise g' = minRaise g.
Proof.
  unfold dealStreet. intros H.
  destruct (phase g); simplify_eq/=; try done;
    repeat match goal with
    | H : context [pop ?d] |- _ => destruct (pop d) as [[? ?]|]; simplify_eq/=
    end; done.
Qed.

Lemma nextStreet_minRaise g res g' :
  nextStreet g = Some (res, g') → minRaise g' = Some (BIG_BLIND g).
Proof.
  unfold nextStreet. cbn zeta. intros H.
  assert (Hother : (g0 ← dealStreet (streetReset g); newStreetTurn g0) = Some (res, g') →
            minRaise g' = Some (BIG_BLIND g)).
  { clear H. intros H. destruct (dealStreet _) as [g0|] eqn:Ed; simplify_eq/=.
    apply dealStreet_minRaise in Ed. unfold newStreetTurn in H.
    destruct (nextActiveIndex _ _ _); simplify_eq/=. done. }
  destruct (phase (streetReset g)); try exact (Hother H).
  injection H as H. apply (f_equal snd) in H. simpl in H. subst g'.
  by rewrite showdown_minRaise.
Qed.

Lemma advanceTurn_minRaise g res g' :
  advanceTurn g = Some (res, g') →
  match res with
  | RNextTurn _ | RHandOver _ => minRaise g' = minRaise g
  | _ => minRaise g' = Some (BIG_BLIND g)
  end.
Proof.
  unfold advanceTurn. intros H.
  assert (Hgen : (next ← findNextToAct g;
            if bool_decide (next = -1) then nextStreet g
            else let g0 := set_currentIndex next g in
                 p ← lookupZ (players g0) next; Some (RNextTurn (Player.id p), g0))
            = Some (res, g') →
          match res with
          | RNextTurn _ | RHandOver _ => minRaise g' = minRaise g
          | _ => minRaise g' = Some (BIG_BLIND g)
          end).
  { intros H'. destruct (findNextToAct g) as [next|]; simpl in H'; [|discriminate].
    case_bool_decide.
    - pose proof (nextStreet_minRaise _ _ _ H') as Hm.
      pose proof (nextStreet_value _ _ _ H') as Hv. destruct res; done.
    - destruct (lookupZ _ next); simpl in H'; [|discriminate].
      by injection H' as <- <-. }
  destruct (inHandSeats g) as [|[i w] [|? ?]]; try exact (Hgen H).
  by injection H as <- <-.
Qed.

Lemma findNext_loop_minRaise mr g n k i :
  findNext_loop (set_minRaise mr g) n k i = findNext_loop g n k i.
Proof.
  revert i. induction k as [|k IH]; intros i; [done|]. simpl.
  destruct (lookupZ (players g) i) as [p|]; [|done]. simpl.
  change (needsToAct (set_minRaise mr g) p) with (needsToAct g p).
  destruct (needsToAct g p); [done|]. apply IH.
Qed.

(** No step of [advanceTurn] reads [minRaise]. *)
Lemma advanceTurn_ignores_minRaise mr g :
  prod_map id (set_minRaise None) <$> advanceTurn (set_minRaise mr g)
  = prod_map id (set_minRaise None) <$> advanceTurn g.
Proof.
  unfold advanceTurn.
  change (inHandSeats (set_minRaise mr g)) with (inHandSeats g).
  assert (Hgen :
    prod_map id (set_minRaise None) <$>
      (next ← findNextToAct (set_minRaise mr g);
       if bool_decide (next = -1) then nextStreet (set_minRaise mr g)
       else let g0 := set_currentIndex next (set_minRaise mr g) in
            p ← lookupZ (players g0) next; Some (RNextTurn (Player.id p), g0))
    = prod_map id (set_minRaise None) <$>
      (next ← findNextToAct g;
       if bool_decide (next = -1) then nextStreet g
       else let g0 := set_currentIndex next g in
            p ← lookupZ (players g0) next; Some (RNextTurn (Player.id p), g0))).
  { unfold findNextToAct.
    change (players (set_minRaise mr g)) with (players g).
    change (currentIndex (set_minRaise mr g)) with (currentIndex g).
    rewrite findNext_loop_minRaise.
    destruct (findNext_loop g _ _ _) as [next|]; [|done]. simpl.
    case_bool_decide; [done|].
    change (players (set_currentIndex next (set_minRaise mr g))) with (players g).
    change (players (set_currentIndex next g)) with (players g).
    destruct (lookupZ (players g) next); done. }
  destruct (inHandSeats g) as [|[i w] [|? ?]]; try exact Hgen. done.
Qed.

Lemma actionEffect_ignores_minRaise mr i p action amount g :
  sum_map id (set_minRaise None) (actionEffect i p action amount (set_minRaise mr g))
  = sum_map id (set_minRaise None) (actionEffect i p action amount g).
Proof.
  unfold actionEffect.
  change (callAmount (set_minRaise mr g)) with (callAmount g).
  repeat case_bool_decide; done.
Qed.

Lemma applyAction_ignores_minRaise mr playerId action amount g :
  prod_map id (set_minRaise None) <$> applyAction playerId action amount (set_minRaise mr g)
  = prod_map id (set_minRaise None) <$> applyAction playerId action amount g.
Proof.
  unfold applyAction.
  change (players (set_minRaise mr g)) with (players g).
  change (currentIndex (set_minRaise mr g)) with (currentIndex g).
  destruct (lookupZ (players g) (currentIndex g)) as [p|]; [|done].
  case_bool_decide; [done|].
  pose proof (actionEffect_ignores_minRaise mr (Z.to_nat (currentIndex g)) p action amount g)
    as Heff.
  destruct (actionEffect _ p action amount (set_minRaise mr g)) as [e1|g1],
           (actionEffect _ p action amount g) as [e2|g2];
    try discriminate Heff.
  { assert (e1 = e2) as -> by (simpl in Heff; congruence). reflexivity. }
  assert (Heff' : set_minRaise None g1 = set_minRaise None g2)
    by (unfold sum_map in Heff; congruence).
  set (F := λ x : Game,
         set_lastAction (Some (mkLastAction playerId action amount))
           (set_actedThisRound ({[playerId]} ∪ actedThisRound x) x)).
  change (prod_map id (set_minRaise None) <$> advanceTurn (F g1)
          = prod_map id (set_minRaise None) <$> advanceTurn (F g2)).
  rewrite <-(advanceTurn_ignores_minRaise None (F g1)).
  rewrite <-(advanceTurn_ignores_minRaise None (F g2)).
  change (set_minRaise None (F g1)) with (F (set_minRaise None g1)).
  change (set_minRaise None (F g2)) with (F (set_minRaise None g2)).
  by rewrite Heff'.
Qed.

(** C10.  For the player to act, a raise to any amount above [callAmount]
    and within [chips + bet] passes the guards and is applied, whatever
    [minRaise] holds; (with at least the three cards of a flop left in the
    deck, which the embedding needs to deal the next street, the call
    returns a result that is not an error).  The raise writes
    [minRaise = amount - callAmount] after [callAmount = amount], that is
    0, which is what the returned state holds unless the raise closes the
    street, where [nextStreet] puts the big blind back.  No action ever
    reads [minRaise]: changing it changes neither a result nor any other
    field of the state returned. *)
Theorem raise_unconstrained_by_minRaise g p amount :
  lookupZ (players g) (currentIndex g) = Some p →
  callAmount g < amount ≤ Player.chips p + Player.bet p →
  (3 ≤ length (deck g))%nat →
  (∃ g1, actionEffect (Z.to_nat (currentIndex g)) p "raise" amount g = inr g1 ∧
         minRaise g1 = Some 0 ∧ callAmount g1 = amount) ∧
  (∃ res g', applyAction (Player.id p) "raise" amount g = Some (res, g') ∧
             isError res = false ∧
             match res with
             | RNextTurn _ | RHandOver _ => minRaise g' = Some 0
             | _ => minRaise g' = Some (BIG_BLIND g)
             end) ∧
  (∀ mr playerId action amount',
     prod_map id (set_minRaise None)
       <$> applyAction playerId action amount' (set_minRaise mr g)
     = prod_map id (set_minRaise None) <$> applyAction playerId action amount' g).
Proof.
  intros Hp [Hlo Hhi] Hdeck.
  assert (Heff : ∃ g1, actionEffect (Z.to_nat (currentIndex g)) p "raise" amount g = inr g1 ∧
            minRaise g1 = Some 0 ∧ callAmount g1 = amount ∧
            deck g1 = deck g ∧ length (players g1) = length (players g) ∧
            BIG_BLIND g1 = BIG_BLIND g).
  { unfold actionEffect.
    rewrite (bool_decide_eq_false_2 ("raise" = "fold")) by discriminate.
    rewrite (bool_decide_eq_false_2 ("raise" = "check")) by discriminate.
    rewrite (bool_decide_eq_false_2 ("raise" = "call")) by discriminate.
    rewrite (bool_decide_eq_true_2 ("raise" = "raise")) by reflexivity.
    rewrite !bool_decide_eq_false_2 by lia.
    eexists. split; [reflexivity|]. simpl. rewrite length_alter.
    split_and!; try done. f_equal. lia. }
  destruct Heff as (g1 & Heff & Hmr & Hca & Hdk & Hlen & Hbb).
  split; [eauto|]. split; [|intros; apply applyAction_ignores_minRaise].
  unfold applyAction. rewrite Hp, bool_decide_eq_false_2 by auto. rewrite Heff.
  set (g2 := set_lastAction _ _).
  destruct (advanceTurn_total g2) as (res & g' & Hadv).
  { change (players g2) with (players g1). intros Hnil.
    apply lookupZ_Some in Hp as [_ Hp]. apply lookup_lt_Some in Hp.
    rewrite Hnil in Hlen. simpl in Hlen. lia. }
  { change (deck g2) with (deck g1). by rewrite Hdk. }
  exists res, g'. split; [done|]. split; [by eapply advanceTurn_not_error|].
  apply advanceTurn_minRaise in Hadv.
  change (minRaise g2) with (minRaise g1) in Hadv.
  change (BIG_BLIND g2) with (BIG_BLIND g1) in Hadv.
  rewrite Hmr, Hbb in Hadv. exact Hadv.
Qed.

Lemma raise_unconstrained_by_minRaise_witness :
  ∃ res g', applyAction "b" "raise" 51 exPreflop = Some (res, g') ∧
            isError res = false.
Proof.
  destruct (raise_unconstrained_by_minRaise exPreflop exBob 51)
    as (_ & (res & g' & Happ & Hok & _) & _);
    [vm_compute; reflexivity | vm_compute; split; [reflexivity|discriminate]
    | vm_compute; lia |].
  exists res, g'. exact (conj Happ Hok).
Defined.

(** The same raise by evaluation: a raise to 51 over the big blind of 50 is
    taken although [minRaise] holds 50, and leaves [minRaise] at 0. *)
Example exPreflop_min_raise :
  minRaise exPreflop = Some 50 ∧
  (λ o, (λ rg : Result * Game, (rg.1, callAmount rg.2, minRaise rg.2)) <$> o)
    (applyAction "b" "raise" 51 exPreflop)
  = Some (RNextTurn "a", 51, Some 0).
Proof. vm_compute. done. Qed.

(** ** The redacted view *)






(** ** Starting a hand *)

Lemma floorMul_le u i : (floorMul u (i + 1) ≤ i)%nat.
Proof.
  unfold floorMul.
  set (b := (num u + gap u + 1)%nat). set (a := (num u * (i + 1))%nat).
  assert (Ha : (a < b * (i + 1))%nat) by (unfold a, b; nia).
  pose proof (Nat.Div0.mul_div_le a b) as Hd.
  set (d := (a `div` b)%nat) in *. clearbody d a.
  destruct (decide (d ≤ i)%nat); [done|exfalso].
  assert (b * (i + 1) ≤ b * d)%nat by (apply Nat.mul_le_mono_l; lia).
  lia.
Qed.

Lemma swap_Permutation {A} (i j : nat) (a : list A) : swap i j a ≡ₚ a.
Proof.
  unfold swap. destruct (a !! i) as [x|] eqn:Ei; [|done].
  destruct (a !! j) as [y|] eqn:Ej; [|done].
  by apply Permutation_insert_swap.
Qed.

Lemma shuffle_Permutation {A} rnd (arr : list A) : shuffle rnd arr ≡ₚ arr.
Proof.
  unfold shuffle. generalize (length arr) at 1. intros k. revert arr.
  induction k as [|i IH]; intros arr; [done|]. simpl.
  destruct i as [|i']; [done|].
  rewrite IH. apply swap_Permutation.
Qed.

(** The loop of [shuffle] at [i] leaves the array from [i + 1] on alone. *)
Lemma swap_length {A} (i j : nat) (a : list A) : length (swap i j a) = length a.
Proof.
  unfold swap. destruct (a !! i), (a !! j); by rewrite ?length_insert.
Qed.

Lemma swap_lookup_ne {A} (i j m : nat) (a : list A) :
  m ≠ i → m ≠ j → swap i j a !! m = a !! m.
Proof.
  intros Hi Hj. unfold swap. destruct (a !! i), (a !! j); try done.
  by rewrite !list_lookup_insert_ne by done.
Qed.

Lemma swap_lookup_i {A} (i j : nat) (a : list A) y :
  (i < length a)%nat → a !! j = Some y → swap i j a !! i = Some y.
Proof.
  intros Hi Hj. unfold swap.
  destruct (lookup_lt_is_Some_2 a i Hi) as [x Hx]. rewrite Hx, Hj.
  destruct (decide (i = j)) as [->|Hne].
  - rewrite list_lookup_insert_eq by (by rewrite length_insert). congruence.
  - rewrite list_lookup_insert_ne by done.
    by rewrite list_lookup_insert_eq.
Qed.

Lemma shuffle_loop_length {A} rnd k (a : list A) : length (shuffle_loop rnd k a) = length a.
Proof.
  revert a. induction k as [|i IH]; intros a; [done|]. simpl.
  destruct i as [|i']; [done|]. by rewrite IH, swap_length.
Qed.

Lemma shuffle_loop_above {A} rnd k (a : list A) m :
  (k ≤ m)%nat → shuffle_loop rnd k a !! m = a !! m.
Proof.
  revert a. induction k as [|i IH]; intros a Hm; [done|]. simpl.
  destruct i as [|i']; [done|].
  rewrite IH by lia.
  pose proof (floorMul_le (rnd (S i')) (S i')).
  apply swap_lookup_ne; lia.
Qed.

(** The loop at [i] and below reads the draws at [i] and below only. *)
Lemma shuffle_loop_ext {A} rnd1 rnd2 k (a : list A) :
  (∀ n, (n < k)%nat → rnd1 n = rnd2 n) →
  shuffle_loop rnd1 k a = shuffle_loop rnd2 k a.
Proof.
  revert a. induction k as [|i IH]; intros a Hext; [done|]. simpl.
  destruct i as [|i']; [done|].
  rewrite (Hext (S i')) by lia. apply IH. intros n Hn. apply Hext. lia.
Qed.

(** The draw [j / (i + 1)] picks the index [j]. *)
Lemma floorMul_pick (j i : nat) : (j ≤ i)%nat → floorMul (mkDraw j (i - j)) (i + 1) = j.
Proof.
  intros Hj. unfold floorMul. simpl.
  replace (j + (i - j) + 1)%nat with (i + 1)%nat by lia.
  apply Nat.div_mul. lia.
Qed.

Lemma take_swap {A} (i j n : nat) (a : list A) :
  (i < n)%nat → (j < n)%nat → take n (swap i j a) = swap i j (take n a).
Proof.
  intros Hi Hj. unfold swap.
  rewrite !lookup_take_lt by done.
  destruct (a !! i), (a !! j); try done.
  by rewrite !take_insert_lt by done.
Qed.

(** From the loop variable [k] down, the loop can bring the first [k]
    elements into any order. *)
Lemma shuffle_loop_reaches {A} k (a t : list A) :
  length a = length t → (k ≤ length a)%nat →
  take k a ≡ₚ take k t → drop k a = drop k t →
  ∃ rnd, shuffle_loop rnd k a = t.
Proof.
  revert a. induction k as [|i IH]; intros a Hlen Hk Htake Hdrop.
  { exists (λ _, mkDraw 0 0). simpl. by rewrite !drop_0 in Hdrop. }
  destruct i as [|i'].
  { exists (λ _, mkDraw 0 0). simpl.
    rewrite <-(take_drop 1 a), <-(take_drop 1 t), Hdrop. f_equal.
    destruct a as [|x a], t as [|y t]; simpl in *; try lia.
    by apply Permutation_singleton_l in Htake. }
  set (i := S i') in *.
  destruct (lookup_lt_is_Some_2 t i) as [y Hy]; [lia|].
  assert (Hyin : y ∈ take (S i) a).
  { rewrite Htake. apply list_elem_of_lookup. exists i.
    by rewrite lookup_take_lt by lia. }
  apply list_elem_of_lookup in Hyin as [j Hj].
  assert (Hjlt : (j < S i)%nat).
  { apply lookup_lt_Some in Hj. rewrite length_take in Hj. lia. }
  rewrite lookup_take_lt in Hj by done.
  set (a' := swap i j a).
  assert (Hi' : a' !! i = Some y) by (apply swap_lookup_i; [lia|done]).
  destruct (IH a') as [rnd' Hrnd'].
  - unfold a'. by rewrite swap_length.
  - unfold a'. rewrite swap_length. lia.
  - assert (Hs : take (S i) a' ≡ₚ take (S i) t).
    { unfold a'. rewrite take_swap by lia. by rewrite swap_Permutation. }
    rewrite (take_S_r a' i y), (take_S_r t i y) in Hs by done.
    by apply Permutation_app_inv_r in Hs.
  - rewrite (drop_S a' y i Hi'), (drop_S t y i Hy). f_equal.
    rewrite <-Hdrop. apply list_eq. intros m. rewrite !lookup_drop.
    unfold a'. apply swap_lookup_ne; lia.
  - exists (λ n, if decide (n = i) then mkDraw j (i - j) else rnd' n).
    change (shuffle_loop ?r (S i) a)
      with (shuffle_loop r i (swap i (floorMul (r i) (i + 1)) a)).
    cbn beta. rewrite decide_True by done.
    rewrite floorMul_pick by lia. fold a'. rewrite <-Hrnd'.
    apply shuffle_loop_ext. intros n Hn. by rewrite decide_False by lia.
Qed.

(** Every order of the array is the shuffle of some draws. *)
Lemma shuffle_reaches {A} (arr t : list A) : arr ≡ₚ t → ∃ rnd, shuffle rnd arr = t.
Proof.
  intros Hp. unfold shuffle.
  pose proof (Permutation_length Hp) as Hlen.
  apply shuffle_loop_reaches; [done|done| |].
  - by rewrite take_ge, (take_ge t) by lia.
  - by rewrite drop_ge, (drop_ge t) by lia.
Qed.

(** The first step of the loop: the last element of the shuffle is the
    element that the draw at the last index picks. *)
Lemma shuffle_last {A} rnd (arr : list A) n :
  length arr = S (S n) →
  shuffle rnd arr !! S n = arr !! floorMul (rnd (S n)) (S n + 1).
Proof.
  intros Hlen. unfold shuffle. rewrite Hlen.
  change (shuffle_loop rnd (S (S n)) arr)
    with (shuffle_loop rnd (S n) (swap (S n) (floorMul (rnd (S n)) (S n + 1)) arr)).
  rewrite shuffle_loop_above by lia.
  pose proof (floorMul_le (rnd (S n)) (S n)) as Hj.
  destruct (lookup_lt_is_Some_2 arr (floorMul (rnd (S n)) (S n + 1))) as [y Hy]; [lia|].
  rewrite Hy. apply swap_lookup_i; [lia|done].
Qed.

Lemma orderedDeck_NoDup : NoDup orderedDeck.
Proof. apply (bool_decide_unpack _). vm_compute. exact I. Qed.

(** A fresh deck holds each of the 52 cards once. *)
Lemma newDeck_spec rnd :
  newDeck rnd ≡ₚ orderedDeck ∧ length (newDeck rnd) = 52%nat ∧ NoDup (newDeck rnd).
Proof.
  assert (Hp : newDeck rnd ≡ₚ orderedDeck) by apply shuffle_Permutation.
  split_and!; [done| |].
  - by rewrite (Permutation_length Hp).
  - rewrite Hp. apply orderedDeck_NoDup.
Qed.

Lemma firstSeatAfter_ext ok1 ok2 (ps qs : list Player.t) from d :
  Forall2 (λ p q, ok1 p = ok2 q) ps qs →
  firstSeatAfter ok1 ps from d → firstSeatAfter ok2 qs from d.
Proof.
  intros Hpq (t & Ht & Hd & (p & Hp & Hok) & Hbefore).
  pose proof (Forall2_length _ _ _ Hpq) as Hlen.
  exists t. rewrite <-Hlen. split_and!; try done.
  - destruct (Forall2_lookup_l _ _ _ _ _ Hpq Hp) as (q & Hq & Heq).
    exists q. split; [done|]. congruence.
  - intros t' Ht'. destruct (Hbefore t' Ht') as (p' & Hp' & Hok').
    destruct (Forall2_lookup_l _ _ _ _ _ Hpq Hp') as (q & Hq & Heq).
    exists q. split; [done|]. congruence.
Qed.

(** [nextActiveIndex] finds the first seat after [from] that can act, when
    there is one. *)
Lemma nextActiveIndex_first g from :
  (∃ p, p ∈ players g ∧ canAct p = true) →
  ∃ d, nextActiveIndex g from 1 = Some d ∧
       0 ≤ d < Z.of_nat (length (players g)) ∧
       firstSeatAfter canAct (players g) from d.
Proof.
  intros (p0 & [j Hj]%list_elem_of_lookup & Hok0).
  pose proof (lookup_lt_Some _ _ _ Hj) as Hjlt.
  set (n := Z.of_nat (length (players g))).
  assert (Hn : 0 < n) by lia.
  unfold nextActiveIndex. fold n.
  assert (Hs : 0 ≤ wrap (from + 1) n < n)
    by (rewrite wrap_mod by done; by apply Z.mod_pos_bound).
  destruct (nextActive_loop_spec (players g) n (length (players g)) (wrap (from + 1) n)
              eq_refl Hs) as (r & t & Hr & Ht & Hrt & Hbefore & Hok).
  rewrite wrap_mod in Hrt, Hbefore by done.
  assert (Hidx : ∀ u : nat, ((from + 1) `mod` n + Z.of_nat u) `mod` n
                            = (from + 1 + Z.of_nat u) `mod` n)
    by (intros; by rewrite Zplus_mod_idemp_l).
  assert (Htn : (t < length (players g))%nat).
  { destruct (decide (t < length (players g))%nat); [done|exfalso].
    assert (t = length (players g)) as -> by lia.
    set (s := (from + 1) `mod` n) in *.
    destruct (Hbefore (Z.to_nat ((Z.of_nat j - s) `mod` n))) as (q & Hq & Hnot).
    { pose proof (Z.mod_pos_bound (Z.of_nat j - s) n Hn). lia. }
    rewrite Z2Nat.id in Hq by (apply Z.mod_pos_bound; lia).
    rewrite Zplus_mod_idemp_r in Hq.
    replace (s + (Z.of_nat j - s)) with (Z.of_nat j) in Hq by lia.
    rewrite Z.mod_small in Hq by lia.
    apply lookupZ_Some in Hq as [_ Hq]. rewrite Nat2Z.id in Hq. congruence. }
  exists r. split; [done|]. split; [subst r; by apply Z.mod_pos_bound|].
  exists t. split_and!; try done.
  - by rewrite Hrt, Hidx.
  - destruct (Hok Htn) as (q & Hq & ?). apply lookupZ_Some in Hq as [_ Hq]. eauto.
  - intros t' Ht'. destruct (Hbefore t' Ht') as (q & Hq & ?).
    rewrite Hidx in Hq. apply lookupZ_Some in Hq as [_ Hq]. eauto.
Qed.

Lemma canAct_resetPlayer p : canAct (resetPlayer p) = isActive p.
Proof.
  unfold canAct, resetPlayer, isActive. simpl.
  destruct (Player.connected p), (Player.sitOut p);
    rewrite ?orb_true_r, ?orb_false_r, ?andb_true_r, ?andb_false_r; simpl; try done.
  case_bool_decide; case_bool_decide; simpl; try done; lia.
Qed.

Lemma filter_two_seats (ok : Player.t → bool) (ps : list Player.t) :
  (2 ≤ length (filter ok ps))%nat →
  ∃ i j p q, i ≠ j ∧ ps !! i = Some p ∧ ps !! j = Some q ∧ ok p = true ∧ ok q = true.
Proof.
  induction ps as [|x ps IH]; [simpl; lia|].
  rewrite filter_cons. destruct (decide (ok x)) as [Hx|Hx].
  - simpl. intros Hlen.
    destruct (filter ok ps) as [|y ys] eqn:E; [simpl in Hlen; lia|].
    assert (Hy : y ∈ filter ok ps) by (rewrite E; apply list_elem_of_here).
    apply list_elem_of_filter in Hy as [Hy [j Hj]%list_elem_of_lookup].
    exists 0%nat, (S j), x, y. apply Is_true_true in Hx, Hy. done.
  - intros Hlen. destruct (IH Hlen) as (i & j & p & q & ? & ? & ? & ? & ?).
    exists (S i), (S j), p, q. split_and!; try done. lia.
Qed.

(** Two consecutive first seats are different seats when two seats pass
    the test. *)
Lemma firstSeatAfter_ne (ok : Player.t → bool) (ps : list Player.t) from d :
  (2 ≤ length (filter ok ps))%nat →
  0 ≤ from < Z.of_nat (length ps) →
  firstSeatAfter ok ps from d → d ≠ from.
Proof.
  intros Htwo Hfrom (t & Ht & Hd & _ & Hbefore) ->.
  set (n := Z.of_nat (length ps)) in *.
  destruct (filter_two_seats ok ps Htwo) as (i & j & p & q & Hij & Hi & Hj & Hp & Hq).
  assert (Hn : 0 < n) by lia.
  assert (Z.of_nat t = n - 1).
  { assert (Hm : (1 + Z.of_nat t) `mod` n = 0).
    { rewrite <-(Z.mod_small from n) in Hd at 1 by lia.
      assert (H' : (from + 1 + Z.of_nat t - from) `mod` n = 0).
      { rewrite Zminus_mod, <-Hd, Z.sub_diag. by rewrite Z.mod_0_l by lia. }
      rewrite <-H'. f_equal. lia. }
    apply Z.mod_divide in Hm as [c Hc]; [|lia].
    assert (Htn : Z.of_nat t < n) by (unfold n; lia).
    assert (c = 1); [|lia].
    destruct (decide (c ≤ 0)); [nia|]. destruct (decide (2 ≤ c)); [nia|lia]. }
  assert (Hex : ∀ k x, ps !! k = Some x → ok x = true → Z.of_nat k = from).
  { intros k x Hk Hx.
    destruct (decide (Z.of_nat k = from)) as [|Hne]; [done|exfalso].
    pose proof (lookup_lt_Some _ _ _ Hk) as Hklt.
    set (u := (Z.of_nat k - from - 1) `mod` n).
    assert (Hu : 0 ≤ u < n) by (apply Z.mod_pos_bound; lia).
    assert (Hu' : u ≠ n - 1).
    { intros Hu'. unfold u in Hu'.
      assert (Hm : (Z.of_nat k - from) `mod` n = 0).
      { replace (Z.of_nat k - from) with ((Z.of_nat k - from - 1) + 1) by lia.
        rewrite Zplus_mod, Hu'. replace (n - 1 + 1 `mod` n) with (n + (1 `mod` n - 1)) by lia.
        destruct (decide (n = 1)) as [->|]; [done|].
        rewrite (Z.mod_small 1 n) by lia. replace (n + (1 - 1)) with (1 * n) by lia.
        apply Z_mod_mult. }
      apply Z.mod_divide in Hm as [c Hc]; [|lia].
      assert (Hkn : Z.of_nat k < n) by (unfold n; lia).
      assert (c = 0); [|lia].
      destruct (decide (c ≤ -1)); [nia|]. destruct (decide (1 ≤ c)); [nia|lia]. }
    destruct (Hbefore (Z.to_nat u)) as (y & Hy & Hnot); [lia|].
    rewrite Z2Nat.id in Hy by lia. unfold u in Hy.
    replace (from + 1 + (Z.of_nat k - from - 1) `mod` n)
      with ((from + 1) + (Z.of_nat k - from - 1) `mod` n) in Hy by lia.
    rewrite Zplus_mod_idemp_r in Hy.
    replace (from + 1 + (Z.of_nat k - from - 1)) with (Z.of_nat k) in Hy by lia.
    rewrite Z.mod_small, Nat2Z.id in Hy by lia. congruence. }
  pose proof (Hex i p Hi Hp). pose proof (Hex j q Hj Hq). lia.
Qed.

Lemma dealAll_spec (ps : list Player.t) d :
  (2 * length ps ≤ length d)%nat →
  ∃ ps' d', dealAll ps d = Some (ps', d') ∧
    Forall2 (λ p p', if Player.folded p then p' = p
                     else ∃ c1 c2, p' = Player.set_hand [c1; c2] p) ps ps' ∧
    (Forall (λ p, Player.folded p = true → Player.hand p = []) ps →
     d' ++ reverse (concat (Player.hand <$> ps')) = d).
Proof.
  revert d. induction ps as [|p ps IH]; intros d Hlen; simpl in *.
  - exists [], d. split_and!; [done|constructor|]. intros _. simpl.
    by rewrite app_nil_r.
  - destruct (Player.folded p) eqn:Ef.
    + destruct (IH d) as (ps' & d' & -> & Hall & Hdeck); [lia|].
      simpl. exists (p :: ps'), d'. split_and!; [done| |].
      * constructor; [by rewrite Ef|done].
      * intros Hh. apply Forall_cons in Hh as [Hp Hh].
        simpl. rewrite (Hp Ef). simpl. by apply Hdeck.
    + destruct (pop_length d) as (c1 & d1 & -> & E1); [lia|]. simpl.
      assert (length d1 = (length d - 1)%nat) by (rewrite E1, length_app; simpl; lia).
      destruct (pop_length d1) as (c2 & d2 & -> & E2); [lia|]. simpl.
      assert (length d2 = (length d1 - 1)%nat) by (rewrite E2, length_app; simpl; lia).
      destruct (IH d2) as (ps' & d' & -> & Hall & Hdeck); [lia|].
      simpl. eexists _, d'. split_and!; [done| |].
      * constructor; [rewrite Ef; eauto|done].
      * intros Hh. apply Forall_cons in Hh as [_ Hh]. simpl.
        rewrite !reverse_cons, E1, E2, <-(Hdeck Hh), <-!app_assoc. done.
Qed.

Lemma startHand_reset_spec rnd settings g :
  let g0 := startHand_reset rnd settings g in
  handNumber g0 = handNumber g + 1 ∧
  SMALL_BLIND g0 = blindFor (smallBlind settings) (SMALL_BLIND g) ∧
  BIG_BLIND g0 = blindFor (bigBlind settings) (BIG_BLIND g) ∧
  callAmount g0 = blindFor (bigBlind settings) (BIG_BLIND g) ∧
  deck g0 = newDeck rnd ∧ community g0 = [] ∧ pot g0 = 0 ∧
  players g0 = map resetPlayer (players g) ∧ dealerIndex g0 = dealerIndex g.
Proof.
  unfold startHand_reset, blindFor.
  destruct (truthyZ (smallBlind settings)), (truthyZ (bigBlind settings)); done.
Qed.


Lemma postBlind_Some idx amount g p :
  lookupZ (players g) idx = Some p →
  postBlind idx amount g
  = Some (set_roundBets
            (<[Player.id p := default 0 (truthyZ (roundBets g !! Player.id p))
                              + Z.min amount (Player.chips p)]> (roundBets g))
            (set_pot (pot g + Z.min amount (Player.chips p))
               (set_players (<[Z.to_nat idx := postBlindOn amount p]> (players g)) g))).
Proof. intros H. unfold postBlind. by rewrite H. Qed.

Lemma startHand_deal_spec g0 :
  (∃ p, p ∈ players g0 ∧ canAct p = true) →
  (2 * length (players g0) ≤ length (deck g0))%nat →
  Forall (λ p, Player.folded p = true → Player.hand p = []) (players g0) →
  ∃ g1, startHand_deal g0 = Some g1 ∧
    firstSeatAfter canAct (players g0) (dealerIndex g0) (dealerIndex g1) ∧
    0 ≤ dealerIndex g1 < Z.of_nat (length (players g0)) ∧
    Forall2 (λ p p', if Player.folded p then p' = p
                     else ∃ c1 c2, p' = Player.set_hand [c1; c2] p)
      (players g0) (players g1) ∧
    deck g1 ++ reverse (concat (Player.hand <$> players g1)) = deck g0 ∧
    pot g1 = pot g0 ∧ sameSetup g0 g1.
Proof.
  intros Hok Hlen Hhands. unfold startHand_deal.
  destruct (nextActiveIndex_first g0 (dealerIndex g0) Hok) as (d & -> & Hd & Hfirst).
  bind_step. cbn [players deck set_dealerIndex].
  destruct (dealAll_spec (players g0) (deck g0) Hlen) as (ps' & dk & -> & Hall & Hdeck).
  bind_step. eexists. split; [done|]. simpl. split_and!; try done; try lia. by apply Hdeck.
Qed.

Lemma startHand_blinds_spec g1 :
  (2 ≤ length (filter canAct (players g1)))%nat →
  0 ≤ dealerIndex g1 < Z.of_nat (length (players g1)) →
  ∃ sb bb g3 psb pbb,
    startHand_blinds g1 = Some (sb, bb, g3) ∧
    firstSeatAfter canAct (players g1) (dealerIndex g1) sb ∧
    firstSeatAfter canAct (players g1) sb bb ∧ sb ≠ bb ∧
    0 ≤ sb < Z.of_nat (length (players g1)) ∧ 0 ≤ bb < Z.of_nat (length (players g1)) ∧
    players g1 !! Z.to_nat sb = Some psb ∧ players g1 !! Z.to_nat bb = Some pbb ∧
    players g3 = <[Z.to_nat bb := postBlindOn (BIG_BLIND g1) pbb]>
                   (<[Z.to_nat sb := postBlindOn (SMALL_BLIND g1) psb]> (players g1)) ∧
    pot g3 = pot g1 + Z.min (SMALL_BLIND g1) (Player.chips psb)
                    + Z.min (BIG_BLIND g1) (Player.chips pbb) ∧
    deck g3 = deck g1 ∧ dealerIndex g3 = dealerIndex g1 ∧ sameSetup g1 g3.
Proof.
  intros Htwo Hd. unfold startHand_blinds.
  assert (Hok : ∃ p, p ∈ players g1 ∧ canAct p = true).
  { destruct (filter_two_seats canAct _ Htwo) as (i & _ & p & _ & _ & Hi & _ & Hp & _).
    exists p. split; [by eapply list_elem_of_lookup_2|done]. }
  destruct (nextActiveIndex_first g1 (dealerIndex g1) Hok) as (sb & -> & Hsb & Hfsb).
  bind_step.
  destruct (nextActiveIndex_first g1 sb Hok) as (bb & -> & Hbb & Hfbb).
  bind_step.
  assert (Hne : sb ≠ bb).
  { intros ->. by eapply (firstSeatAfter_ne canAct (players g1) bb bb). }
  destruct (lookupZ_lt (players g1) sb Hsb) as (psb & Hpsb & Hpsb').
  destruct (lookupZ_lt (players g1) bb Hbb) as (pbb & Hpbb & Hpbb').
  rewrite (postBlind_Some _ _ _ _ Hpsb). bind_step.
  erewrite (postBlind_Some bb _ _ pbb).
  2:{ unfold lookupZ. rewrite bool_decide_eq_true_2 by lia.
      cbn [players set_roundBets set_pot set_players].
      rewrite list_lookup_insert_ne by lia. done. }
  bind_step.
  eexists sb, bb, _, psb, pbb. split; [done|].
  split_and!; try done; simpl; lia.
Qed.

Lemma startHand_open_spec sb bb g3 :
  0 ≤ dealerIndex g3 < Z.of_nat (length (players g3)) →
  0 ≤ sb < Z.of_nat (length (players g3)) →
  0 ≤ bb < Z.of_nat (length (players g3)) →
  ∃ g', startHand_open sb bb g3 = Some g' ∧
    players g' = players g3 ∧ pot g' = pot g3 ∧ deck g' = deck g3 ∧
    dealerIndex g' = dealerIndex g3 ∧ sameSetup g3 g' ∧ phase g' = Preflop ∧
    ((∃ q, q ∈ players g3 ∧ canAct q = true) →
     firstSeatAfter canAct (players g3) bb (currentIndex g')).
Proof.
  intros Hd Hsb Hbb. unfold startHand_open.
  assert (Hne : players g3 ≠ []) by (destruct (players g3); simpl in *; [lia|done]).
  destruct (nextActiveIndex_total (set_phase Preflop g3) bb Hne) as (cur & Hcur & _).
  rewrite Hcur. bind_step.
  destruct (lookupZ_lt (players g3) (dealerIndex g3) Hd) as (pd & Hpd & _).
  destruct (lookupZ_lt (players g3) sb Hsb) as (psb & Hpsb & _).
  destruct (lookupZ_lt (players g3) bb Hbb) as (pbb & Hpbb & _).
  unfold playerName.
  cbn [players dealerIndex set_currentIndex set_phase addLog set_log].
  rewrite Hpd. cbn [fmap option_fmap option_map]. bind_step.
  cbn [players dealerIndex set_currentIndex set_phase addLog set_log].
  rewrite Hpsb. cbn [fmap option_fmap option_map]. bind_step.
  cbn [players dealerIndex set_currentIndex set_phase addLog set_log].
  rewrite Hpbb. cbn [fmap option_fmap option_map]. bind_step.
  eexists. split; [done|]. split_and!; try done.
  intros Hok.
  destruct (nextActiveIndex_first (set_phase Preflop g3) bb Hok) as (cur' & Hcur' & _ & Hf).
  rewrite Hcur in Hcur'. injection Hcur' as <-. exact Hf.
Qed.

Lemma filter_length_Forall2 (ok1 ok2 : Player.t → bool) (ps qs : list Player.t) :
  Forall2 (λ p q, ok1 p = ok2 q) ps qs →
  length (filter ok1 ps) = length (filter ok2 qs).
Proof.
  induction 1 as [|p q ps qs Hpq _ IH]; [done|].
  rewrite !filter_cons. rewrite Hpq.
  destruct (decide (ok2 q)); simpl; by rewrite IH.
Qed.

Lemma sumZ_insert (proj : Player.t → Z) (ps : list Player.t) i p q :
  ps !! i = Some p →
  sumZ (proj <$> <[i := q]> ps) = sumZ (proj <$> ps) - proj p + proj q.
Proof. intros H. rewrite list_insert_alter. by rewrite (sumZ_alter _ _ _ _ _ H). Qed.

(** What the hand's first writes leave at a seat: the player [p] reset and,
    unless folded, holding two cards. *)
Lemma dealt_seat p p1 :
  (if Player.folded (resetPlayer p) then p1 = resetPlayer p
   else ∃ c1 c2, p1 = Player.set_hand [c1; c2] (resetPlayer p)) →
  Player.id p1 = Player.id p ∧ Player.chips p1 = Player.chips p ∧
  Player.bet p1 = 0 ∧ Player.allIn p1 = false ∧
  Player.folded p1 = negb (isActive p) ∧ canAct p1 = isActive p ∧
  length (Player.hand p1) = (if isActive p then 2 else 0)%nat.
Proof.
  intros H.
  assert (Hf : Player.folded (resetPlayer p) = negb (isActive p)).
  { pose proof (canAct_resetPlayer p) as Hc. unfold canAct in Hc.
    change (Player.allIn (resetPlayer p)) with false in Hc.
    rewrite andb_true_r in Hc. rewrite <-Hc. by rewrite negb_involutive. }
  rewrite Hf in H.
  assert (Hgen : Player.id p1 = Player.id p ∧ Player.chips p1 = Player.chips p ∧
            Player.bet p1 = 0 ∧ Player.allIn p1 = false ∧
            Player.folded p1 = Player.folded (resetPlayer p) ∧
            length (Player.hand p1) = (if isActive p then 2 else 0)%nat).
  { destruct (isActive p); simpl in H.
    - destruct H as (c1 & c2 & ->). done.
    - subst p1. done. }
  destruct Hgen as (? & ? & ? & Hai & Hfo & ?).
  unfold canAct. rewrite Hai, Hfo, Hf, negb_involutive, andb_true_r. done.
Qed.

Lemma sumZ_zero (proj : Player.t → Z) (l : list Player.t) :
  Forall (λ q, proj q = 0) l → sumZ (proj <$> l) = 0.
Proof.
  induction 1 as [|q qs Hq _ IH]; [done|].
  change (proj q + sumZ (proj <$> qs) = 0). lia.
Qed.

Lemma postBlindOn_hand amount p : Player.hand (postBlindOn amount p) = Player.hand p.
Proof. unfold postBlindOn. by case_bool_decide. Qed.

(** The four parts of [startHand] in sequence, and what each leaves. *)
Lemma startHand_stages rnd settings g :
  (2 ≤ length (activePlayers g))%nat → (length (players g) ≤ 9)%nat →
  ∃ g1 sb bb g3 psb pbb g',
    startHand rnd settings g = Some (RSuccess None, g') ∧
    (firstSeatAfter canAct (players (startHand_reset rnd settings g))
       (dealerIndex g) (dealerIndex g1) ∧
     deck g1 ++ reverse (concat (Player.hand <$> players g1)) = newDeck rnd ∧
     pot g1 = 0 ∧ sameSetup (startHand_reset rnd settings g) g1 ∧
     length (players g1) = length (players g) ∧
     (∀ i p, players g !! i = Some p →
        ∃ p1, players g1 !! i = Some p1 ∧
          Player.id p1 = Player.id p ∧ Player.chips p1 = Player.chips p ∧
          Player.bet p1 = 0 ∧ Player.allIn p1 = false ∧
          Player.folded p1 = negb (isActive p) ∧ canAct p1 = isActive p ∧
          length (Player.hand p1) = (if isActive p then 2 else 0)%nat)) ∧
    (firstSeatAfter canAct (players g1) (dealerIndex g1) sb ∧
     firstSeatAfter canAct (players g1) sb bb ∧ sb ≠ bb ∧
     0 ≤ sb < Z.of_nat (length (players g1)) ∧ 0 ≤ bb < Z.of_nat (length (players g1)) ∧
     players g1 !! Z.to_nat sb = Some psb ∧ players g1 !! Z.to_nat bb = Some pbb ∧
     players g3 = <[Z.to_nat bb := postBlindOn (BIG_BLIND g1) pbb]>
                    (<[Z.to_nat sb := postBlindOn (SMALL_BLIND g1) psb]> (players g1)) ∧
     pot g3 = pot g1 + Z.min (SMALL_BLIND g1) (Player.chips psb)
                     + Z.min (BIG_BLIND g1) (Player.chips pbb) ∧
     deck g3 = deck g1 ∧ dealerIndex g3 = dealerIndex g1 ∧ sameSetup g1 g3) ∧
    (players g' = players g3 ∧ pot g' = pot g3 ∧ deck g' = deck g3 ∧
     dealerIndex g' = dealerIndex g3 ∧ sameSetup g3 g' ∧ phase g' = Preflop ∧
     ((∃ q, q ∈ players g3 ∧ canAct q = true) →
      firstSeatAfter canAct (players g3) bb (currentIndex g'))).
Proof.
  intros Htwo Hnine.
  destruct (startHand_reset_spec rnd settings g)
    as (Hhn0 & Hsb0 & Hbb0 & Hca0 & Hdk0 & Hco0 & Hpot0 & Hps0 & Hdl0).
  set (g0 := startHand_reset rnd settings g) in *.
  destruct (newDeck_spec rnd) as (Hperm & Hlen52 & Hnd).
  destruct (startHand_deal_spec g0) as (g1 & Hdeal & Hfd & Hd1 & Hrel1 & Hdeck1 & Hpot1 & Hset1).
  { destruct (filter_two_seats isActive _ Htwo) as (i & _ & p & _ & _ & Hi & _ & Hp & _).
    exists (resetPlayer p). split; [|by rewrite canAct_resetPlayer].
    rewrite Hps0. apply list_elem_of_fmap. exists p. split; [done|].
    by eapply list_elem_of_lookup_2. }
  { rewrite Hdk0, Hlen52, Hps0, length_fmap. lia. }
  { rewrite Hps0. apply Forall_fmap, Forall_forall. done. }
  assert (Hlen1 : length (players g1) = length (players g)).
  { rewrite <-(Forall2_length _ _ _ Hrel1), Hps0. apply length_fmap. }
  assert (Hseat1 : ∀ i p, players g !! i = Some p →
            ∃ p1, players g1 !! i = Some p1 ∧
              Player.id p1 = Player.id p ∧ Player.chips p1 = Player.chips p ∧
              Player.bet p1 = 0 ∧ Player.allIn p1 = false ∧
              Player.folded p1 = negb (isActive p) ∧ canAct p1 = isActive p ∧
              length (Player.hand p1) = (if isActive p then 2 else 0)%nat).
  { intros i p Hp.
    assert (H0 : players g0 !! i = Some (resetPlayer p))
      by (rewrite Hps0, list_lookup_fmap, Hp; done).
    destruct (Forall2_lookup_l _ _ _ _ _ Hrel1 H0) as (p1 & Hp1 & Hdealt).
    exists p1. split; [done|]. by apply dealt_seat. }
  assert (Hrel01 : Forall2 (λ p q, isActive p = canAct q) (players g) (players g1)).
  { apply Forall2_same_length_lookup. split; [by rewrite Hlen1|].
    intros i p q Hp Hq. destruct (Hseat1 i p Hp) as (p1 & Hp1 & _ & _ & _ & _ & _ & Hc & _).
    rewrite Hq in Hp1. injection Hp1 as ->. done. }
  assert (Hd1' : 0 ≤ dealerIndex g1 < Z.of_nat (length (players g1)))
    by (by rewrite <-(Forall2_length _ _ _ Hrel1)).
  destruct (startHand_blinds_spec g1)
    as (sb & bb & g3 & psb & pbb & Hblinds & Hfsb & Hfbb & Hne & Hsb & Hbb & Hpsb & Hpbb
        & Hps3 & Hpot3 & Hdk3 & Hdl3 & Hset3).
  { rewrite <-(filter_length_Forall2 isActive canAct _ _ Hrel01). exact Htwo. }
  { exact Hd1'. }
  assert (Hlen3 : length (players g3) = length (players g))
    by (by rewrite Hps3, !length_insert).
  destruct (startHand_open_spec sb bb g3)
    as (g' & Hopen & Hps' & Hpot' & Hdk' & Hdl' & Hset' & Hph' & Hcur');
    [rewrite Hlen3, Hdl3, <-Hlen1; lia | rewrite Hlen3, <-Hlen1; lia..|].
  exists g1, sb, bb, g3, psb, pbb, g'.
  split; [|split; [|split]].
  - unfold startHand. rewrite bool_decide_eq_false_2 by lia.
    unfold startHand_writes. fold g0. rewrite Hdeal. bind_step.
    rewrite Hblinds. bind_step. cbn iota beta. rewrite Hopen. done.
  - rewrite <-Hdl0, <-Hdk0, Hpot1, Hpot0. done.
  - done.
  - done.
Qed.

(** C5.  [startHand] returns [NotEnoughPlayers], and writes nothing, exactly
    when fewer than two seats are eligible.  Otherwise, at a table of at
    most nine seats, it succeeds and: the hand counter is one higher; the
    deck was built by shuffling the 52 cards with the draws - it is a
    permutation of them, its last card, the first to be dealt, is the card
    that the first draw picks out of the ordered deck, and every order of
    the 52 cards is the deck of some draws - and what is left of it followed
    by the cards dealt is that deck, so no card is dealt twice; the board is
    empty; the dealer button is on the first eligible seat after the old
    one, the small blind on the first eligible seat after the button, the
    big blind on the first after that; every ineligible seat is folded and
    without cards, every eligible seat holds two cards; the two blind seats
    have bet their blind capped at their chips - and are all-in when that is
    all of them - while every other seat has bet nothing; [callAmount] is
    the big blind; the seat to act is the first seat after the big blind
    that can act; the phase is [preflop].  With the stacks and the blinds
    within the range in which the source's numbers are exact, each stack is
    down by what the seat has bet and the pot is the two posted blinds. *)
Theorem startHand_spec rnd settings g :
  (startHand rnd settings g = Some (RError NotEnoughPlayers, g)
   ↔ (length (activePlayers g) < 2)%nat) ∧
  ((2 ≤ length (activePlayers g))%nat → (length (players g) ≤ 9)%nat →
   let SB := blindFor (smallBlind settings) (SMALL_BLIND g) in
   let BB := blindFor (bigBlind settings) (BIG_BLIND g) in
   ∃ g' sb bb,
     startHand rnd settings g = Some (RSuccess None, g') ∧
     handNumber g' = handNumber g + 1 ∧
     (newDeck rnd ≡ₚ orderedDeck ∧ length (newDeck rnd) = 52%nat ∧
      newDeck rnd !! 51%nat = orderedDeck !! floorMul (rnd 51%nat) 52 ∧
      (∀ d, d ≡ₚ orderedDeck → ∃ rnd', newDeck rnd' = d) ∧
      deck g' ++ reverse (concat (Player.hand <$> players g')) = newDeck rnd ∧
      NoDup (deck g' ++ concat (Player.hand <$> players g'))) ∧
     community g' = [] ∧
     SMALL_BLIND g' = SB ∧ BIG_BLIND g' = BB ∧ callAmount g' = BB ∧ phase g' = Preflop ∧
     firstSeatAfter isActive (players g) (dealerIndex g) (dealerIndex g') ∧
     firstSeatAfter isActive (players g) (dealerIndex g') sb ∧
     firstSeatAfter isActive (players g) sb bb ∧ sb ≠ bb ∧
     length (players g') = length (players g) ∧
     (∀ i p, players g !! i = Some p →
        ∃ p', players g' !! i = Some p' ∧
          Player.id p' = Player.id p ∧
          Player.folded p' = negb (isActive p) ∧
          length (Player.hand p') = (if isActive p then 2 else 0)%nat ∧
          let posted :=
            if bool_decide (Z.of_nat i = sb) then Z.min SB (Player.chips p)
            else if bool_decide (Z.of_nat i = bb) then Z.min BB (Player.chips p)
            else 0 in
          Player.bet p' = posted ∧
          Player.allIn p'
          = bool_decide ((Z.of_nat i = sb ∨ Z.of_nat i = bb) ∧ posted = Player.chips p) ∧
          (stakesSafe g SB BB → Player.chips p' = Player.chips p - posted)) ∧
     (stakesSafe g SB BB → pot g' = sumBets g') ∧
     ((∃ q, q ∈ players g' ∧ canAct q = true) →
      firstSeatAfter canAct (players g') bb (currentIndex g'))).
Proof.
  split.
  { unfold startHand. case_bool_decide as Hlt; [done|].
    split; [|lia]. destruct (startHand_writes rnd settings g); simpl; intros [=]. }
  intros Htwo Hnine SB BB.
  destruct (startHand_reset_spec rnd settings g)
    as (Hhn0 & Hsb0 & Hbb0 & Hca0 & Hdk0 & Hco0 & Hpot0 & Hps0 & Hdl0).
  destruct (newDeck_spec rnd) as (Hperm & Hlen52 & Hnd).
  destruct (startHand_stages rnd settings g Htwo Hnine)
    as (g1 & sb & bb & g3 & psb & pbb & g' & Hstart
        & (Hfd & Hdeck1 & Hpot1 & Hset1 & Hlen1 & Hseat1)
        & (Hfsb & Hfbb & Hne & Hsb & Hbb & Hpsb & Hpbb & Hps3 & Hpot3 & Hdk3 & Hdl3 & Hset3)
        & (Hps' & Hpot' & Hdk' & Hdl' & Hset' & Hph' & Hcur')).
  set (g0 := startHand_reset rnd settings g) in *.
  assert (Hrel01 : Forall2 (λ p q, isActive p = canAct q) (players g) (players g1)).
  { apply Forall2_same_length_lookup. split; [by rewrite Hlen1|].
    intros i p q Hp Hq. destruct (Hseat1 i p Hp) as (p1 & Hp1 & _ & _ & _ & _ & _ & Hc & _).
    rewrite Hq in Hp1. injection Hp1 as ->. done. }
  exists g', sb, bb.
  destruct Hset1 as (S11 & S12 & S13 & S14 & S15).
  destruct Hset3 as (S31 & S32 & S33 & S34 & S35).
  destruct Hset' as (S41 & S42 & S43 & S44 & S45).
  assert (Hfirst_ext : ∀ from d, firstSeatAfter canAct (players g1) from d →
            firstSeatAfter isActive (players g) from d).
  { intros from d. apply firstSeatAfter_ext.
    eapply Forall2_flip, Forall2_impl; [exact Hrel01|]. simpl. done. }
  assert (Hn2s : Z.to_nat sb ≠ Z.to_nat bb) by lia.
  split_and!.
  - exact Hstart.
  - by rewrite S41, S31, S11.
  - done.
  - done.
  - apply (shuffle_last rnd orderedDeck 50). reflexivity.
  - intros d Hd. apply shuffle_reaches. by symmetry.
  - rewrite Hdk', Hps', Hps3, Hdk3, <-Hdeck1. f_equal. f_equal. f_equal.
    apply list_eq. intros i. rewrite !list_lookup_fmap.
    destruct (decide (i = Z.to_nat bb)) as [->|Hib].
    { rewrite list_lookup_insert_eq by (rewrite length_insert; lia).
      rewrite Hpbb. simpl. by rewrite postBlindOn_hand. }
    rewrite list_lookup_insert_ne by done.
    destruct (decide (i = Z.to_nat sb)) as [->|His].
    { rewrite list_lookup_insert_eq by lia.
      rewrite Hpsb. simpl. by rewrite postBlindOn_hand. }
    by rewrite list_lookup_insert_ne by done.
  - assert (Hh : Player.hand <$> players g' = Player.hand <$> players g1).
    { rewrite Hps', Hps3. apply list_eq. intros i. rewrite !list_lookup_fmap.
      destruct (decide (i = Z.to_nat bb)) as [->|Hib].
      { rewrite list_lookup_insert_eq by (rewrite length_insert; lia).
      rewrite Hpbb. simpl. by rewrite postBlindOn_hand. }
      rewrite list_lookup_insert_ne by done.
      destruct (decide (i = Z.to_nat sb)) as [->|His].
      { rewrite list_lookup_insert_eq by lia.
      rewrite Hpsb. simpl. by rewrite postBlindOn_hand. }
      by rewrite list_lookup_insert_ne by done. }
    rewrite Hh, Hdk', Hdk3.
    assert (Hp' : deck g1 ++ concat (Player.hand <$> players g1) ≡ₚ newDeck rnd).
    { rewrite <-Hdeck1. by rewrite reverse_Permutation. }
    rewrite Hp'. exact Hnd.
  - by rewrite S42, S32, S12.
  - by rewrite S43, S33, S13.
  - by rewrite S44, S34, S14.
  - by rewrite S45, S35, S15.
  - done.
  - rewrite Hdl', Hdl3. apply Hfirst_ext. eapply firstSeatAfter_ext; [|exact Hfd].
    apply Forall2_same_length_lookup. split; [by rewrite Hps0, length_fmap, Hlen1|].
    intros i p0 p1 H0 H1. rewrite Hps0, list_lookup_fmap in H0.
    destruct (players g !! i) as [p|] eqn:Hp; [|done]. injection H0 as <-.
    destruct (Hseat1 i p Hp) as (p1' & Hp1 & _ & _ & _ & _ & _ & Hc & _).
    rewrite H1 in Hp1. injection Hp1 as <-. by rewrite canAct_resetPlayer.
  - rewrite Hdl', Hdl3. by apply Hfirst_ext.
  - by apply Hfirst_ext.
  - done.
  - rewrite Hps', Hps3, !length_insert. exact Hlen1.
  - intros i p Hp.
    destruct (Hseat1 i p Hp) as (p1 & Hp1 & Hid & Hch & Hbet & Hai & Hfo & _ & Hha).
    pose proof (lookup_lt_Some _ _ _ Hp) as Hilt.
    rewrite Hps', Hps3.
    destruct (decide (Z.of_nat i = bb)) as [Heb|Hnb].
    + assert (i = Z.to_nat bb) as -> by lia.
      rewrite list_lookup_insert_eq by (rewrite length_insert; lia).
      rewrite Hpbb in Hp1. injection Hp1 as ->.
      eexists. split; [done|].
      rewrite (bool_decide_eq_false_2 (_ = sb)) by lia.
      rewrite (bool_decide_eq_true_2 (_ = bb)) by lia.
      rewrite S14, Hbb0. fold BB. unfold postBlindOn. rewrite Hch, Hbet.
      case_bool_decide as Hz; simpl; rewrite ?Hch, ?Hbet, ?Hid, ?Hfo, ?Hha, ?Hai;
        split_and!; try done; try lia.
      * rewrite bool_decide_eq_true_2; [done|]. split; [by right|lia].
      * rewrite bool_decide_eq_false_2; [done|]. intros [_ ?]. lia.
    + rewrite list_lookup_insert_ne by lia.
      destruct (decide (Z.of_nat i = sb)) as [Hes|Hns].
      * assert (i = Z.to_nat sb) as -> by lia.
        rewrite list_lookup_insert_eq by lia.
        rewrite Hpsb in Hp1. injection Hp1 as ->.
        eexists. split; [done|].
        rewrite (bool_decide_eq_true_2 (_ = sb)) by lia.
        rewrite S13, Hsb0. fold SB. unfold postBlindOn. rewrite Hch, Hbet.
        case_bool_decide as Hz; simpl; rewrite ?Hch, ?Hbet, ?Hid, ?Hfo, ?Hha, ?Hai;
          split_and!; try done; try lia.
        -- rewrite bool_decide_eq_true_2; [done|]. split; [by left|lia].
        -- rewrite bool_decide_eq_false_2; [done|]. intros [_ ?]. lia.
      * rewrite list_lookup_insert_ne by lia.
        exists p1. split; [done|].
        rewrite (bool_decide_eq_false_2 (_ = sb)) by lia.
        rewrite (bool_decide_eq_false_2 (_ = bb)) by lia.
        rewrite Hch, Hbet, Hid, Hfo, Hha, Hai. cbn zeta.
        split_and!; try done; try lia.
        rewrite bool_decide_eq_false_2; [done|]. intros [[?|?] _]; lia.
  - intros _. rewrite Hpot', Hpot3, Hpot1. unfold sumBets. rewrite Hps', Hps3.
    assert (Hzero : sumZ (Player.bet <$> players g1) = 0).
    { assert (Hall : Forall (λ q, Player.bet q = 0) (players g1)).
      { apply Forall_lookup. intros i q Hq.
        destruct (lookup_lt_is_Some_2 (players g) i) as [p Hp];
          [rewrite <-Hlen1; by eapply lookup_lt_Some|].
        destruct (Hseat1 i p Hp) as (p1 & Hp1 & _ & _ & Hbet & _).
        rewrite Hq in Hp1. by injection Hp1 as ->. }
      by apply sumZ_zero. }
    assert (Hbsb : Player.bet psb = 0 ∧ Player.bet pbb = 0).
    { destruct (lookup_lt_is_Some_2 (players g) (Z.to_nat sb)) as [p Hp]; [lia|].
      destruct (Hseat1 _ p Hp) as (p1 & Hp1 & _ & _ & Hbet & _).
      rewrite Hpsb in Hp1. injection Hp1 as <-.
      destruct (lookup_lt_is_Some_2 (players g) (Z.to_nat bb)) as [q Hq]; [lia|].
      destruct (Hseat1 _ q Hq) as (q1 & Hq1 & _ & _ & Hbet' & _).
      rewrite Hpbb in Hq1. injection Hq1 as <-. done. }
    destruct Hbsb as [Hb1 Hb2].
    rewrite (sumZ_insert _ _ _ pbb) by (by rewrite list_lookup_insert_ne by done).
    rewrite (sumZ_insert _ _ _ psb) by done.
    rewrite Hzero, Hb1, Hb2. unfold postBlindOn.
    repeat case_bool_decide; simpl; lia.
  - intros Hq. rewrite Hps' in Hq |- *. by apply Hcur'.
Qed.


Lemma startHand_spec_witness :
  ∃ g' (sb bb : Z),
    startHand exDraws (mkSettings None None) exSeated = Some (RSuccess None, g') ∧
    handNumber g' = handNumber exSeated + 1 ∧ phase g' = Preflop ∧ sb ≠ bb ∧
    newDeck exDraws !! 51%nat = Some (mkCard R2 Spades) ∧
    deck g' ++ reverse (concat (Player.hand <$> players g')) = newDeck exDraws.
Proof.
  destruct (startHand_spec exDraws (mkSettings None None) exSeated) as [_ H].
  destruct H as (g' & sb & bb & Hs & Hh & (_ & _ & Hlast & _ & Hdealt & _) & _ & _ & _ & _
                 & Hph & _ & _ & _ & Hne & _);
    [vm_compute; lia..|].
  exists g', sb, bb.
  exact (conj Hs (conj Hh (conj Hph (conj Hne (conj Hlast Hdealt))))).
Defined.

(** The first hand at the two-seat table is the one the examples use. *)
Example exPreflop_started :
  startHand exDraws (mkSettings None None) exSeated = Some (RSuccess None, exPreflop).
Proof. vm_compute. reflexivity. Qed.

(** Three seats with 1500 each and blinds of 25 and 50: the seat after the
    big blind faces a call of 50, and once all three have called the phase
    is [flop], with three cards on the board and nothing to call. *)
Example three_seats_call_to_flop :
  let g0 := (addPlayer "c" "Carol" None None exSeated).2 in
  let run :=
    '(_, g1) ← startHand exDraws (mkSettings None None) g0;
    '(_, g2) ← applyAction "a" "call" 0 g1;
    '(_, g3) ← applyAction "b" "call" 0 g2;
    '(_, g4) ← applyAction "c" "call" 0 g3;
    Some (callAmount g1, Player.id <$> getCurrentPlayer g1,
          phase g4, length (community g4), callAmount g4, pot g4) in
  run = Some (50, Some "a", Flop, 3%nat, 0, 150).
Proof. vm_compute. reflexivity. Qed.

(** ** Invariants of the betting state *)










(** ** The hand evaluator beyond the seven-card case *)

#[local] Instance Zge_Total : Total Z.ge.
Proof. intros x y. lia. Qed.
#[local] Instance Zge_Transitive : Transitive Z.ge.
Proof. intros x y z. lia. Qed.
#[local] Instance Zge_AntiSymm : AntiSymm (=) Z.ge.
Proof. intros x y. lia. Qed.

(** A numeric sort sees only the values present, not their order. *)
Lemma sort_desc_Permutation l1 l2 : l1 ≡ₚ l2 → sort_desc l1 = sort_desc l2.
Proof.
  intros Hp. unfold sort_desc.
  apply (Sorted_unique Z.ge); [apply (Sorted_merge_sort Z.ge)..|].
  by rewrite !merge_sort_Permutation.
Qed.

Lemma handVals_Permutation c1 c2 : c1 ≡ₚ c2 → handVals c1 = handVals c2.
Proof.
  intros Hp. unfold handVals. apply sort_desc_Permutation.
  by apply Permutation_map.
Qed.

(** The [every] test of the flush holds exactly when no two suits differ. *)
Lemma flush_all_equal (suits : list Suit) :
  forallb (λ x, bool_decide (Some x = suits !! 0%nat)) suits = true
  ↔ ∀ x y, x ∈ suits → y ∈ suits → x = y.
Proof.
  destruct suits as [|s0 t]; [split; [intros _ x y []%elem_of_nil|done]|].
  change ((s0 :: t) !! 0%nat) with (Some s0).
  rewrite forallb_forall. split.
  - intros H x y Hx Hy.
    apply list_elem_of_In, H, bool_decide_eq_true in Hx.
    apply list_elem_of_In, H, bool_decide_eq_true in Hy. congruence.
  - intros H x Hx%list_elem_of_In. apply bool_decide_eq_true. f_equal.
    apply H; [done|apply list_elem_of_here].
Qed.

Lemma flush_Permutation (l1 l2 : list Suit) :
  l1 ≡ₚ l2 →
  forallb (λ x, bool_decide (Some x = l1 !! 0%nat)) l1
  = forallb (λ x, bool_decide (Some x = l2 !! 0%nat)) l2.
Proof.
  intros Hp.
  destruct (forallb _ l1) eqn:E1, (forallb _ l2) eqn:E2; try done.
  - pose proof (proj1 (flush_all_equal l1) E1) as H1.
    rewrite <-E2. symmetry. apply flush_all_equal.
    intros x y Hx Hy. apply H1; by rewrite Hp.
  - pose proof (proj1 (flush_all_equal l2) E2) as H2.
    rewrite <-E1. apply flush_all_equal.
    intros x y Hx Hy. apply H2; by rewrite <-Hp.
Qed.

(** Counting the values one by one gives the same object in any order. *)
Lemma countVals_Permutation l1 l2 : l1 ≡ₚ l2 → countVals l1 = countVals l2.
Proof.
  unfold countVals. generalize (∅ : gmap Z Z).
  intros m Hp. revert m.
  induction Hp as [|x l l' _ IH|x y l|l l' l'' _ IH1 _ IH2]; intros m.
  - done.
  - simpl. apply IH.
  - simpl. f_equal. destruct (decide (x = y)) as [->|Hxy]; [done|].
    rewrite !lookup_insert_ne by done. by rewrite insert_insert_ne.
  - by rewrite IH1.
Qed.

(** X1.  [evalFive] does not depend on the order in which the cards are
    given: two arrays holding the same cards get the same category, the same
    name and the same score. *)
Theorem evalFive_order_independent c1 c2 :
  c1 ≡ₚ c2 → evalFive c1 = evalFive c2.
Proof.
  intros Hp.
  pose proof (handVals_Permutation _ _ Hp) as Hv.
  pose proof (flush_Permutation (map s c1) (map s c2) (Permutation_map s Hp)) as Hf.
  assert (Hw : isWheel c1 = isWheel c2) by (unfold isWheel; by rewrite Hv).
  assert (Hc : category c1 = category c2).
  { unfold category. cbn zeta. by rewrite Hv, Hf, Hw. }
  assert (Ht : tieVals c1 = tieVals c2) by (unfold tieVals; by rewrite Hv, Hw).
  unfold evalFive. by rewrite Hc, Ht.
Qed.

Lemma evalFive_order_independent_witness :
  let h := [mkCard RA Spades; mkCard RK Spades; mkCard RQ Spades; mkCard RJ Spades;
            mkCard R10 Spades] in
  reverse h ≡ₚ h ∧ evalFive (reverse h) = evalFive h.
Proof.
  intros h.
  assert (Hp : reverse h ≡ₚ h) by apply reverse_Permutation.
  split; [exact Hp|]. exact (evalFive_order_independent (reverse h) h Hp).
Defined.

(** The array that [bestOf7] evaluates for a pair of indices is two cards
    short of the input. *)
Lemma omitTwo_length {A} (l : list A) i j k :
  (i < j)%nat →
  (length (omitTwo i j k l)
   + (if bool_decide (k ≤ i < k + length l)%nat then 1 else 0)
   + (if bool_decide (k ≤ j < k + length l)%nat then 1 else 0)
   = length l)%nat.
Proof.
  intros Hij. revert k. induction l as [|x l IH]; intros k.
  - simpl. rewrite !bool_decide_eq_false_2 by lia. done.
  - cbn [omitTwo length]. specialize (IH (S k)).
    repeat case_bool_decide; simpl in *; lia.
Qed.

Lemma indexPairs_lt n i j : (i, j) ∈ indexPairs n → (i < j < n)%nat.
Proof.
  unfold indexPairs. intros H%list_elem_of_In%in_flat_map.
  destruct H as (a & Ha%in_seq & Hb%in_map_iff).
  destruct Hb as (b & [= <- <-] & Hb%in_seq). lia.
Qed.

Lemma bestOf7_no_candidate cards ps :
  (∀ ij, ij ∈ ps → length (omitTwo ij.1 ij.2 0 cards) ≠ 5%nat) →
  foldl (bestStep cards) None ps = None.
Proof.
  induction ps as [|ij ps IH]; intros H; [done|].
  cbn [foldl]. unfold bestStep at 2.
  rewrite bool_decide_eq_true_2 by (apply H, list_elem_of_here).
  apply IH. intros x Hx. by apply H, list_elem_of_further.
Qed.

(** X2.  Only an array of exactly seven cards is searched: on any other
    number of cards no pair of omitted indices leaves five, and [bestOf7]
    falls back to evaluating the first five cards alone (so a sixth card, or
    an eighth, is never looked at).  (On no card at all the source's score
    is NaN, which the embedding of [evalFive] leaves out.) *)
Theorem bestOf7_not_seven_cards cards :
  cards ≠ [] → length cards ≠ 7%nat →
  bestOf7 cards = evalFive (take 5 cards).
Proof.
  intros _ Hlen. unfold bestOf7. cbn zeta.
  rewrite bestOf7_no_candidate; [done|].
  intros [i j] Hij%indexPairs_lt. simpl.
  pose proof (omitTwo_length cards i j 0 ltac:(lia)) as Hl.
  rewrite !bool_decide_eq_true_2 in Hl by lia. lia.
Qed.

Lemma bestOf7_not_seven_cards_witness :
  let six := [mkCard R2 Clubs; mkCard R7 Diamonds; mkCard R9 Clubs; mkCard RJ Diamonds;
              mkCard R3 Spades; mkCard R2 Hearts] in
  bestOf7 six = evalFive (take 5 six) ∧ name (bestOf7 six) = "High Card".
Proof.
  intros six. split.
  - apply (bestOf7_not_seven_cards six); [discriminate|]. simpl. lia.
  - vm_compute. reflexivity.
Defined.

(** X3.  The category can be read back from the score, as its quotient by
    [1e10]; hence of two hands in different categories the one in the higher
    category has the higher score, whatever the cards and however many.
    (On no card at all the source's score is NaN, which the embedding of
    [evalFive] leaves out.) *)
Theorem evalFive_score_encodes_category c1 c2 :
  c1 ≠ [] → c2 ≠ [] →
  score (evalFive c1) `div` 10000000000 = rank (evalFive c1) ∧
  0 ≤ rank (evalFive c1) ≤ 8 ∧
  (rank (evalFive c1) < rank (evalFive c2) ↔
   score (evalFive c1) `div` 10000000000 < score (evalFive c2) `div` 10000000000) ∧
  (rank (evalFive c1) < rank (evalFive c2) → score (evalFive c1) < score (evalFive c2)).
Proof.
  intros _ _.
  assert (Hq : ∀ c, score (evalFive c) `div` 10000000000 = rank (evalFive c)).
  { intros c. rewrite evalFive_score.
    pose proof (weigh_bounds (rank (evalFive c)) c) as Hb.
    symmetry. apply (Z.div_unique_pos _ _ _
      (weigh (rank (evalFive c)) (tieVals c) - rank (evalFive c) * 10000000000)); lia. }
  split; [apply Hq|]. split.
  { rewrite evalFive_rank. apply category_range. }
  split; [by rewrite !Hq|].
  intros Hlt. rewrite !evalFive_score.
  pose proof (weigh_bounds (rank (evalFive c1)) c1).
  pose proof (weigh_bounds (rank (evalFive c2)) c2). lia.
Qed.

Lemma evalFive_score_encodes_category_witness :
  let pair := [mkCard R2 Clubs; mkCard R2 Diamonds; mkCard R9 Clubs; mkCard RJ Diamonds;
               mkCard R3 Spades] in
  let high := [mkCard RA Clubs; mkCard RK Diamonds; mkCard R9 Clubs; mkCard RJ Diamonds;
               mkCard R3 Spades] in
  score (evalFive high) `div` 10000000000 = rank (evalFive high) ∧
  score (evalFive high) < score (evalFive pair).
Proof.
  intros pair high.
  destruct (evalFive_score_encodes_category high pair) as (H1 & _ & _ & H4);
    [discriminate..|].
  split; [exact H1|]. apply H4. vm_compute. reflexivity.
Defined.

(** ** Whose turn it is *)

(** The loop of [findNextToAct] stops at the first seat, counted from its
    starting seat, whose player passes the test. *)
Lemma findNext_loop_first g n k i :
  n = Z.of_nat (length (players g)) → 0 ≤ i < n →
  ∃ r, findNext_loop g n k i = Some r ∧
    ((r = -1 ∧ ∀ t : nat, (t < k)%nat →
        ∃ p, lookupZ (players g) ((i + Z.of_nat t) `mod` n) = Some p ∧ needsToAct g p = false)
     ∨ (∃ t : nat, (t < k)%nat ∧ r = (i + Z.of_nat t) `mod` n ∧
          (∃ p, lookupZ (players g) r = Some p ∧ needsToAct g p = true) ∧
          ∀ t' : nat, (t' < t)%nat →
            ∃ q, lookupZ (players g) ((i + Z.of_nat t') `mod` n) = Some q ∧
                 needsToAct g q = false)).
Proof.
  intros Hn. revert i. induction k as [|k IH]; intros i Hi; simpl.
  - eexists. split; [done|]. left. split; [done|]. intros; lia.
  - destruct (lookupZ_lt (players g) i) as (p & Hp & _); [lia|]. rewrite Hp. simpl.
    destruct (needsToAct g p) eqn:Ep.
    + eexists. split; [done|]. right. exists 0%nat.
      rewrite Z.add_0_r, Z.mod_small by lia.
      split_and!; [lia|done|by exists p|intros; lia].
    + rewrite wrap_mod by lia.
      assert (Hshift : ∀ t : nat,
                (((i + 1) `mod` n) + Z.of_nat t) `mod` n = (i + Z.of_nat (S t)) `mod` n).
      { intros t. rewrite Zplus_mod_idemp_l. f_equal. lia. }
      assert (Hzero : (i + Z.of_nat 0) `mod` n = i)
        by (rewrite Z.add_0_r, Z.mod_small by lia; done).
      destruct (IH ((i + 1) `mod` n)) as (r & Hr & Hcase); [apply Z.mod_pos_bound; lia|].
      exists r. split; [done|].
      destruct Hcase as [[-> Hall]|(t & Ht & Hrt & Hfound & Hbefore)].
      * left. split; [done|]. intros [|t] Ht.
        -- rewrite Hzero. eauto.
        -- destruct (Hall t ltac:(lia)) as (q & Hq & ?). exists q.
           by rewrite <-Hshift.
      * right. exists (S t). split_and!; [lia|by rewrite <-Hshift|done|].
        intros [|t'] Ht'.
        -- rewrite Hzero. eauto.
        -- destruct (Hbefore t' ltac:(lia)) as (q & Hq & ?). exists q.
           by rewrite <-Hshift.
Qed.

(** A seat returned by [findNextToAct] is the first one after the current
    seat, going round the table, that still has to act. *)
Lemma findNextToAct_found g r :
  findNextToAct g = Some r → r ≠ -1 →
  firstSeatAfter (needsToAct g) (players g) (currentIndex g) r.
Proof.
  unfold findNextToAct. set (n := Z.of_nat (length (players g))). intros Hr Hne.
  destruct (decide (n = 0)) as [Hz|Hnz].
  { assert (Hnil : players g = []) by (apply length_zero_iff_nil; lia).
    rewrite Hnil in Hr. simpl in Hr. congruence. }
  assert (Hpos : 0 < n) by lia.
  destruct (findNext_loop_first g n (length (players g)) (wrap (currentIndex g + 1) n) eq_refl)
    as (r' & Hr' & Hcase).
  { rewrite wrap_mod by done. by apply Z.mod_pos_bound. }
  rewrite Hr' in Hr. injection Hr as ->.
  destruct Hcase as [[-> _]|(t & Ht & Hrt & (p & Hp & Hneed) & Hbefore)]; [done|].
  rewrite wrap_mod in Hrt, Hbefore by done.
  assert (Hidx : ∀ t : nat, ((currentIndex g + 1) `mod` n + Z.of_nat t) `mod` n
                            = (currentIndex g + 1 + Z.of_nat t) `mod` n)
    by (intros; by rewrite Zplus_mod_idemp_l).
  exists t. fold n. split_and!.
  - done.
  - by rewrite <-Hidx.
  - exists p. by apply lookupZ_Some in Hp as [_ Hp].
  - intros t' Ht'. destruct (Hbefore t' Ht') as (q & Hq & Hdn).
    exists q. rewrite <-Hidx. by apply lookupZ_Some in Hq as [_ Hq].
Qed.

(** [findNextToAct] always returns, and returns -1 exactly when no seat
    passes its test. *)
Lemma findNextToAct_total_iff g :
  ∃ r, findNextToAct g = Some r ∧
       (r = -1 ↔ ∀ p, p ∈ players g → needsToAct g p = false).
Proof.
  unfold findNextToAct. set (n := Z.of_nat (length (players g))).
  destruct (decide (n = 0)) as [Hz|Hnz].
  { assert (Hnil : players g = []) by (apply length_zero_iff_nil; lia).
    rewrite Hnil. simpl. eexists. split; [done|].
    split; [|done]. intros _ p Hp. by apply elem_of_nil in Hp. }
  assert (Hpos : 0 < n) by lia.
  destruct (findNext_loop_first g n (length (players g)) (wrap (currentIndex g + 1) n)
              eq_refl) as (r & Hr & Hcase).
  { rewrite wrap_mod by done. by apply Z.mod_pos_bound. }
  exists r. split; [exact Hr|]. split.
  - intros ->. destruct Hcase as [[_ Hall]|(t & _ & Hrt & _)].
    + intros p [j Hj]%list_elem_of_lookup.
      pose proof (lookup_lt_Some _ _ _ Hj) as Hlt.
      set (s := wrap (currentIndex g + 1) n) in *.
      destruct (Hall (Z.to_nat ((Z.of_nat j - s) `mod` n))) as (q & Hq & Hdn).
      { pose proof (Z.mod_pos_bound (Z.of_nat j - s) n Hpos). lia. }
      rewrite Z2Nat.id in Hq by (apply Z.mod_pos_bound; lia).
      rewrite Zplus_mod_idemp_r in Hq.
      replace (s + (Z.of_nat j - s)) with (Z.of_nat j) in Hq by lia.
      rewrite Z.mod_small in Hq by lia.
      apply lookupZ_Some in Hq as [_ Hq]. rewrite Nat2Z.id in Hq. congruence.
    + pose proof (Z.mod_pos_bound (wrap (currentIndex g + 1) n + Z.of_nat t) n Hpos). lia.
  - intros Hall. destruct Hcase as [[-> _]|(t & _ & _ & (p & Hp & Hneed) & _)]; [done|].
    apply lookupZ_Some in Hp as [_ Hp].
    rewrite (Hall p) in Hneed by (by eapply list_elem_of_lookup_2). done.
Qed.

(** X4.  [findNextToAct] always returns: -1 exactly when no seat passes its
    test (not folded, not all-in, and not yet acted or with a bet below
    [callAmount]); otherwise the first seat after the current one, in seat
    order round the table, that passes it: the seat found is in range, its
    player passes the test, and no seat between the current one and it
    does. *)
Theorem findNextToAct_first_needing_to_act g :
  ∃ r, findNextToAct g = Some r ∧
    (r = -1 ↔ ∀ p, p ∈ players g → needsToAct g p = false) ∧
    (r ≠ -1 →
     0 ≤ r < Z.of_nat (length (players g)) ∧
     firstSeatAfter (needsToAct g) (players g) (currentIndex g) r).
Proof.
  destruct (findNextToAct_total_iff g) as (r & Hr & Hiff).
  exists r. split_and!; [done..|].
  intros Hne. pose proof (findNextToAct_found g r Hr Hne) as Hfirst.
  split; [|done].
  destruct Hfirst as (t & Ht & -> & _).
  apply Z.mod_pos_bound. lia.
Qed.

(** X5.  [nextActiveIndex(from)]: on an empty table the source reads a
    field of [undefined]; with a seat that is neither folded nor all-in it
    returns the first such seat after [from]; with none the loop gives up
    after one round and returns the seat right after [from], whoever sits
    there. *)
Theorem nextActiveIndex_cases g from :
  (players g = [] → nextActiveIndex g from 1 = None) ∧
  ((∃ p, p ∈ players g ∧ canAct p = true) →
   ∃ d, nextActiveIndex g from 1 = Some d ∧ firstSeatAfter canAct (players g) from d) ∧
  (players g ≠ [] → (∀ p, p ∈ players g → canAct p = false) →
   nextActiveIndex g from 1 = Some ((from + 1) `mod` Z.of_nat (length (players g)))).
Proof.
  split_and!.
  - intros Hnil. unfold nextActiveIndex. rewrite Hnil. simpl.
    unfold lookupZ. by case_bool_decide.
  - intros Hex. destruct (nextActiveIndex_first g from Hex) as (d & Hd & _ & Hfirst).
    by exists d.
  - intros Hne Hnone. unfold nextActiveIndex.
    set (n := Z.of_nat (length (players g))).
    assert (Hpos : 0 < n) by (unfold n; destruct (players g); simpl; [done|lia]).
    destruct (nextActive_loop_spec (players g) n (length (players g)) (wrap (from + 1) n)
                eq_refl) as (r & t & Hr & Ht & Hrt & _ & Hok).
    { rewrite wrap_mod by done. by apply Z.mod_pos_bound. }
    rewrite Hr. f_equal.
    destruct (decide (t < length (players g))%nat) as [Hlt|Hge].
    + destruct (Hok Hlt) as (q & Hq & Hc).
      apply lookupZ_Some in Hq as [_ Hq].
      rewrite (Hnone q) in Hc by (by eapply list_elem_of_lookup_2). done.
    + assert (t = length (players g)) as -> by lia.
      rewrite Hrt, wrap_mod by done. fold n.
      rewrite Zplus_mod_idemp_l, <-(Z_mod_plus_full (from + 1) 1 n). f_equal. lia.
Qed.

(** When [advanceTurn] passes the turn on, it only moves [currentIndex], to
    the seat found by [findNextToAct]. *)
Lemma advanceTurn_next_turn g c g' :
  advanceTurn g = Some (RNextTurn c, g') →
  ∃ next, findNextToAct g = Some next ∧ next ≠ -1 ∧ g' = set_currentIndex next g.
Proof.
  unfold advanceTurn. intros Happ.
  assert (Hgen : (next ← findNextToAct g;
            if bool_decide (next = -1) then nextStreet g
            else let g0 := set_currentIndex next g in
                 q ← lookupZ (players g0) next; Some (RNextTurn (Player.id q), g0))
            = Some (RNextTurn c, g') →
          ∃ next, findNextToAct g = Some next ∧ next ≠ -1 ∧ g' = set_currentIndex next g).
  { intros H. destruct (findNextToAct g) as [next|]; simpl in H; [|discriminate].
    case_bool_decide as Hn.
    - apply nextStreet_value in H. done.
    - destruct (lookupZ _ next); simpl in H; [|discriminate].
      injection H as _ <-. by exists next. }
  destruct (inHandSeats g) as [|[? ?] [|? ?]]; try exact (Hgen Happ). discriminate.
Qed.

(** X6.  A raise re-opens the betting.  At a table where no id is seated
    twice (as [addPlayer] keeps it), when a raise by the player to act
    passes the turn on, [callAmount] is the amount raised to, the raiser is
    the only one recorded as having acted, and the turn goes to the first
    seat after the raiser that is neither folded nor all-in, whether or not
    that seat had already acted on this street and whatever it has bet. *)
Theorem raise_reopens_betting g p amount c g' :
  lookupZ (players g) (currentIndex g) = Some p →
  NoDup (Player.id <$> players g) →
  applyAction (Player.id p) "raise" amount g = Some (RNextTurn c, g') →
  callAmount g < amount ∧ callAmount g' = amount ∧
  actedThisRound g' = {[Player.id p]} ∧
  currentIndex g' ≠ currentIndex g ∧
  firstSeatAfter canAct (players g') (currentIndex g) (currentIndex g').
Proof.
  intros Hp Hbets Happ.
  destruct (lookupZ_Some _ _ _ Hp) as [Hcur Hpi].
  unfold applyAction in Happ. rewrite Hp in Happ.
  rewrite bool_decide_eq_false_2 in Happ by (intros H; by apply H).
  unfold actionEffect in Happ.
  rewrite (bool_decide_eq_false_2 ("raise" = "fold")) in Happ by done.
  rewrite (bool_decide_eq_false_2 ("raise" = "check")) in Happ by done.
  rewrite (bool_decide_eq_false_2 ("raise" = "call")) in Happ by done.
  rewrite (bool_decide_eq_true_2 ("raise" = "raise")) in Happ by done.
  case_bool_decide as Hlow; [discriminate|].
  case_bool_decide as Hhigh; [discriminate|].
  cbn zeta in Happ.
  set (i := Z.to_nat (currentIndex g)) in *.
  set (p2 := if bool_decide (Player.chips p - (amount - Player.bet p) = 0)
             then Player.set_allIn true
                    (Player.set_bet amount
                       (Player.set_chips (Player.chips p - (amount - Player.bet p)) p))
             else Player.set_bet amount
                    (Player.set_chips (Player.chips p - (amount - Player.bet p)) p)) in *.
  match type of Happ with advanceTurn ?x = _ => set (g2 := x) in * end.
  assert (Hps2 : players g2 = alter (λ _, p2) i (players g)) by done.
  assert (Hca2 : callAmount g2 = amount) by done.
  assert (Hact2 : actedThisRound g2 = {[Player.id p]}).
  { unfold g2. simpl. by rewrite (right_id_L ∅ (∪)). }
  assert (Hci2 : currentIndex g2 = currentIndex g) by done.
  assert (Hbet2 : Player.bet p2 = amount) by (unfold p2; by case_bool_decide).
  assert (Hid2 : Player.id p2 = Player.id p) by (unfold p2; by case_bool_decide).
  assert (Hneed : ∀ j q, players g2 !! j = Some q →
            needsToAct g2 q = (if bool_decide (j = i) then false else canAct q)).
  { intros j q Hq. unfold needsToAct, canAct. rewrite Hps2 in Hq.
    rewrite Hact2, Hca2. destruct (decide (j = i)) as [Hji|Hji].
    - rewrite (bool_decide_eq_true_2 (j = i)) by done.
      subst j. rewrite list_lookup_alter_eq, Hpi in Hq. injection Hq as <-.
      rewrite Hid2, Hbet2, bool_decide_eq_true_2, bool_decide_eq_false_2;
        [|lia|by apply elem_of_singleton].
      by rewrite andb_false_r.
    - rewrite (bool_decide_eq_false_2 (j = i)) by done.
      rewrite list_lookup_alter_ne in Hq by done.
      assert (Hqid : Player.id q ≠ Player.id p).
      { intros Heq. apply Hji.
        apply (NoDup_lookup _ j i (Player.id p) Hbets);
          rewrite list_lookup_fmap; [by rewrite Hq; simpl; f_equal|by rewrite Hpi]. }
      rewrite (bool_decide_eq_false_2 (Player.id q ∈ _))
        by (by rewrite elem_of_singleton).
      by rewrite andb_true_r. }
  destruct (advanceTurn_next_turn _ _ _ Happ) as (next & Hfind & Hne & Hg').
  subst g'. simpl.
  split_and!; [lia|done|done|..].
  - destruct (findNextToAct_found g2 next Hfind Hne) as (t & Ht & Hd & (q & Hq & Hn) & _).
    intros Heq. rewrite (Hneed _ _ Hq) in Hn.
    rewrite bool_decide_eq_true_2 in Hn; [done|]. unfold i. by rewrite Heq.
  - destruct (findNextToAct_found g2 next Hfind Hne)
      as (t & Ht & Hd & (q & Hq & Hn) & Hbefore).
    rewrite Hci2 in Hd, Hbefore.
    set (n := Z.of_nat (length (players g2))) in *.
    assert (Hpos : 0 < n) by lia.
    assert (Hlen : length (players g2) = length (players g))
      by (by rewrite Hps2, length_alter).
    assert (Hilt : (i < length (players g))%nat) by (by eapply lookup_lt_Some).
    assert (Hseat : ∀ t' : nat, (t' < length (players g2) - 1)%nat →
              Z.to_nat ((currentIndex g + 1 + Z.of_nat t') `mod` n) ≠ i).
    { intros t' Ht' Heq.
      pose proof (Z.mod_pos_bound (currentIndex g + 1 + Z.of_nat t') n Hpos) as Hb.
      assert (Hm : (currentIndex g + 1 + Z.of_nat t') `mod` n = currentIndex g)
        by (unfold i in Heq; lia).
      assert (Hsm : currentIndex g `mod` n = currentIndex g)
        by (apply Z.mod_small; unfold n; lia).
      assert (Hz : (1 + Z.of_nat t') `mod` n = 0).
      { pose proof (Zminus_mod (currentIndex g + 1 + Z.of_nat t') (currentIndex g) n) as Hmm.
        rewrite Hm, Hsm, Z.sub_diag, Z.mod_0_l in Hmm by lia.
        rewrite <-Hmm. f_equal. lia. }
      rewrite Z.mod_small in Hz by (unfold n; lia). lia. }
    assert (Hti : Z.to_nat next ≠ i).
    { intros Heq. rewrite (Hneed _ _ Hq) in Hn.
      by rewrite bool_decide_eq_true_2 in Hn. }
    assert (Htlt : (t < length (players g2) - 1)%nat).
    { destruct (decide (t < length (players g2) - 1)%nat) as [|Hge]; [done|].
      exfalso. apply Hti. rewrite Hd.
      assert (t = (length (players g2) - 1)%nat) as -> by lia.
      replace (currentIndex g + 1 + Z.of_nat (length (players g2) - 1))
        with (currentIndex g + 1 * n) by (unfold n; lia).
      rewrite Z_mod_plus_full, Z.mod_small by (unfold n; lia). done. }
    exists t. split_and!; [done|done|..].
    + exists q. split; [done|].
      rewrite (Hneed _ _ Hq), bool_decide_eq_false_2 in Hn by done. done.
    + intros t' Ht'. destruct (Hbefore t' Ht') as (q' & Hq' & Hn').
      exists q'. split; [done|].
      rewrite (Hneed _ _ Hq'), bool_decide_eq_false_2 in Hn'; [done|].
      apply Hseat. lia.
Qed.

Lemma raise_reopens_betting_witness :
  ∃ g', applyAction "b" "raise" 100 exPreflop = Some (RNextTurn "a", g') ∧
        actedThisRound g' = {["b"]} ∧ currentIndex g' ≠ currentIndex exPreflop.
Proof.
  assert (Hp : lookupZ (players exPreflop) (currentIndex exPreflop) = Some exBob)
    by (vm_compute; reflexivity).
  assert (Hb : NoDup (Player.id <$> players exPreflop))
    by (apply (bool_decide_unpack _); vm_compute; exact I).
  assert (Hrun : ∃ g', applyAction (Player.id exBob) "raise" 100 exPreflop
                       = Some (RNextTurn "a", g')).
  { eexists. vm_compute. reflexivity. }
  destruct Hrun as [g' Hrun]. exists g'.
  destruct (raise_reopens_betting exPreflop exBob 100 "a" g' Hp Hb Hrun)
    as (_ & _ & Hact & Hne & _).
  split; [exact Hrun|]. split; [exact Hact|exact Hne].
Defined.

(** ** What an action leaves alone *)

Lemma sameTable_refl g : sameTable g g.
Proof. by unfold sameTable. Qed.

Lemma sameTable_trans g1 g2 g3 : sameTable g1 g2 → sameTable g2 g3 → sameTable g1 g3.
Proof.
  intros (L1 & S1 & T1 & C1) (L2 & S2 & T2 & C2).
  split_and!; [auto|congruence..].
Qed.

Lemma addLog_length msg g :
  logBounded g →
  length (log (addLog msg g)) = Nat.min 50 (S (length (log g))) ∧ logBounded (addLog msg g).
Proof.
  unfold logBounded, addLog. intros Hb. cbn [log set_log].
  case_bool_decide as Hlen.
  - rewrite removelast_firstn_len, length_take. cbn [length] in *. lia.
  - cbn [length] in *. lia.
Qed.

Lemma addLog_sameTable msg g : sameTable g (addLog msg g).
Proof.
  split_and!; try done. intros Hb. by apply addLog_length.
Qed.

(** A write to a player object that keeps the seat's identity. *)
Lemma updPlayer_sameTable i f g :
  (∀ p, players g !! i = Some p → seatIdentity (f p) = seatIdentity p) →
  sameTable g (updPlayer i f g).
Proof.
  intros Hf. split_and!; try done. simpl.
  apply list_eq. intros j. rewrite !list_lookup_fmap.
  destruct (decide (i = j)) as [->|Hij].
  - rewrite list_lookup_alter_eq. destruct (players g !! j) as [p|] eqn:Hp; [|done].
    simpl. f_equal. by apply Hf.
  - by rewrite list_lookup_alter_ne.
Qed.

Lemma foldl_sameTable {A} (f : Game → A → Game) (l : list A) g :
  (∀ g a, sameTable g (f g a)) → sameTable g (foldl f g l).
Proof.
  intros Hf. revert g. induction l as [|a l IH]; intros g; [apply sameTable_refl|].
  simpl. eapply sameTable_trans; [apply Hf|apply IH].
Qed.

Lemma showdownEval_sameTable rs acc : sameTable acc.1 (foldl showdownEval acc rs).1.
Proof.
  revert acc. induction rs as [|[[i p] h] rs IH]; intros acc; [apply sameTable_refl|].
  cbn [foldl]. eapply sameTable_trans; [|apply IH]. apply addLog_sameTable.
Qed.

Lemma payWinner_sameTable share g e : sameTable g (payWinner share g e).
Proof.
  destruct e as [[i p] h]. unfold payWinner.
  eapply sameTable_trans; [|apply addLog_sameTable].
  by apply updPlayer_sameTable.
Qed.

Lemma showdown_sameTable g : sameTable g (showdown g).2.
Proof.
  unfold showdown.
  set (g0 := addLog "--- SHOWDOWN ---" (set_phase Showdown g)).
  assert (H0 : sameTable g g0).
  { eapply sameTable_trans; [|apply addLog_sameTable]. done. }
  pose proof (showdownEval_sameTable (showdownResults g0) (g0, -1)) as H1.
  destruct (foldl showdownEval (g0, -1) (showdownResults g0)) as [g1 best].
  simpl in H1. cbn [snd].
  set (ws := filter _ _). set (share := pot g1 `div` Z.of_nat (length ws)).
  pose proof (foldl_sameTable (payWinner share) ws g1 (payWinner_sameTable share)) as H2.
  eapply sameTable_trans; [exact H0|]. eapply sameTable_trans; [exact H1|].
  eapply sameTable_trans; [exact H2|]. done.
Qed.

Lemma streetReset_sameTable g : sameTable g (streetReset g).
Proof.
  split_and!; try done. unfold streetReset. simpl.
  rewrite <-list_fmap_compose. by apply list_fmap_ext.
Qed.

(** A card popped off the deck is its last one. *)
Lemma pop_Some {A} (l : list A) x l' : pop l = Some (x, l') → l = l' ++ [x].
Proof.
  unfold pop. destruct (reverse l) as [|y t] eqn:E; [done|].
  intros [= <- <-]. by rewrite <-(reverse_involutive l), E, reverse_cons.
Qed.

Lemma dealStreet_sameTable g g' :
  dealStreet g = Some g' →
  sameTable g g' ∧ phase g' = nextPhase (phase g) ∧
  (∃ cs, community g' = community g ++ cs ∧ length cs = streetCards (phase g)) ∧
  pot g' = pot g ∧ players g' = players g.
Proof.
  unfold dealStreet. intros H.
  destruct (phase g) eqn:Eph; simplify_eq/=;
    try (split_and!; [apply sameTable_refl|by rewrite ?Eph
                     |exists []; by rewrite (right_id_L [] (++))|done..]);
    repeat match goal with
    | H : context [pop ?d] |- _ =>
        let E := fresh "E" in
        destruct (pop d) as [[? ?]|] eqn:E; simplify_eq/=; apply pop_Some in E
    end;
    (split_and!; [|done|by eexists|done..]);
    (eapply sameTable_trans; [|apply addLog_sameTable]);
    (split_and!; try done; unfold cardsOut; simpl; rewrite reverse_app; simpl;
     repeat match goal with E : _ = _ ++ [_] |- _ => rewrite E; clear E end;
     by rewrite <-?(assoc_L (++))).
Qed.

Lemma nextStreet_sameTable g res g' :
  nextStreet g = Some (res, g') → sameTable g g'.
Proof.
  unfold nextStreet. cbn zeta. intros H.
  pose proof (streetReset_sameTable g) as Hr.
  assert (Hother : (g0 ← dealStreet (streetReset g); newStreetTurn g0) = Some (res, g') →
                   sameTable g g').
  { clear H. intros H. destruct (dealStreet _) as [g0|] eqn:Ed; simplify_eq/=.
    apply dealStreet_sameTable in Ed as (Hd & _). unfold newStreetTurn in H.
    destruct (nextActiveIndex _ _ _); simplify_eq/=.
    eapply sameTable_trans; [exact Hr|]. eapply sameTable_trans; [exact Hd|]. done. }
  destruct (phase (streetReset g)); try exact (Hother H).
  injection H as H. apply (f_equal snd) in H. simpl in H. subst g'.
  eapply sameTable_trans; [exact Hr|]. apply showdown_sameTable.
Qed.

Lemma advanceTurn_sameTable g res g' :
  advanceTurn g = Some (res, g') → sameTable g g'.
Proof.
  unfold advanceTurn. intros H.
  assert (Hgen : (next ← findNextToAct g;
            if bool_decide (next = -1) then nextStreet g
            else let g0 := set_currentIndex next g in
                 p ← lookupZ (players g0) next; Some (RNextTurn (Player.id p), g0))
            = Some (res, g') → sameTable g g').
  { intros H'. destruct (findNextToAct g) as [next|]; simpl in H'; [|discriminate].
    case_bool_decide.
    - by eapply nextStreet_sameTable.
    - destruct (lookupZ _ next); simpl in H'; [|discriminate].
      injection H' as <- <-. done. }
  destruct (inHandSeats g) as [|[i w] [|? ?]]; try exact (Hgen H).
  injection H as <- <-.
  match goal with
  | |- sameTable _ (set_phase _ (set_pot _ ?G1)) => apply (sameTable_trans _ G1); [|done]
  end.
  eapply sameTable_trans; [|apply addLog_sameTable].
  by apply updPlayer_sameTable.
Qed.

Lemma sameTable_intro g g' :
  log g' = log g → seatIdentity <$> players g' = seatIdentity <$> players g →
  tableIdentity g' = tableIdentity g → cardsOut g' = cardsOut g → sameTable g g'.
Proof. intros Hl ? ? ?. split_and!; try done. unfold logBounded. by rewrite Hl. Qed.

Lemma alter_seatIdentity (ps : list Player.t) i p q :
  ps !! i = Some p → seatIdentity q = seatIdentity p →
  seatIdentity <$> alter (λ _, q) i ps = seatIdentity <$> ps.
Proof.
  intros Hp Hq. apply list_eq. intros j. rewrite !list_lookup_fmap.
  destruct (decide (i = j)) as [<-|Hij].
  - rewrite list_lookup_alter_eq, Hp. simpl. by rewrite Hq.
  - by rewrite list_lookup_alter_ne.
Qed.

Lemma actionEffect_sameTable i p action amount g g1 :
  players g !! i = Some p →
  actionEffect i p action amount g = inr g1 → sameTable g g1.
Proof.
  intros Hp. unfold actionEffect.
  repeat case_bool_decide; intros Heff; try discriminate Heff; injection Heff as <-;
    (eapply sameTable_trans; [|apply addLog_sameTable]);
    try apply sameTable_refl;
    try (by apply updPlayer_sameTable);
    (apply sameTable_intro; try done; simpl; by apply (alter_seatIdentity _ _ p)).
Qed.

Lemma applyAction_sameTable playerId action amount g res g' :
  applyAction playerId action amount g = Some (res, g') → sameTable g g'.
Proof.
  unfold applyAction. intros H.
  destruct (lookupZ (players g) (currentIndex g)) as [p|] eqn:Hp;
    [|injection H as <- <-; apply sameTable_refl].
  case_bool_decide; [injection H as <- <-; apply sameTable_refl|].
  destruct (actionEffect _ p action amount g) as [e|g1] eqn:Eeff;
    [injection H as <- <-; apply sameTable_refl|].
  apply lookupZ_Some in Hp as [_ Hp].
  pose proof (actionEffect_sameTable _ _ _ _ _ _ Hp Eeff) as H1.
  apply advanceTurn_sameTable in H.
  eapply sameTable_trans; [exact H1|]. eapply sameTable_trans; [|exact H]. done.
Qed.

(** X7.  An action never touches who sits where or with which cards: after
    [applyAction], whatever it returns, every seat has the [id], [name],
    hole cards, [sitOut], [connected], [buyIns], [emoji] and [seatIndex] it
    had, no seat was added or removed, and the room id, the dealer button,
    the hand number, the blinds, the default stack and the side pots are as
    before. *)
Theorem applyAction_keeps_seats_and_table playerId action amount g res g' :
  applyAction playerId action amount g = Some (res, g') →
  length (players g') = length (players g) ∧
  (∀ i p', players g' !! i = Some p' →
     ∃ p, players g !! i = Some p ∧
       Player.id p' = Player.id p ∧ Player.name p' = Player.name p ∧
       Player.hand p' = Player.hand p ∧ Player.sitOut p' = Player.sitOut p ∧
       Player.connected p' = Player.connected p ∧ Player.buyIns p' = Player.buyIns p ∧
       Player.emoji p' = Player.emoji p ∧ Player.seatIndex p' = Player.seatIndex p) ∧
  roomId g' = roomId g ∧ dealerIndex g' = dealerIndex g ∧
  handNumber g' = handNumber g ∧ SMALL_BLIND g' = SMALL_BLIND g ∧
  BIG_BLIND g' = BIG_BLIND g ∧ defaultStack g' = defaultStack g ∧
  sidePots g' = sidePots g.
Proof.
  intros H. destruct (applyAction_sameTable _ _ _ _ _ _ H) as (_ & Hs & Ht & _).
  split; [|split].
  - apply (f_equal length) in Hs. by rewrite !length_fmap in Hs.
  - intros i p' Hp'.
    apply (f_equal (λ l, l !! i)) in Hs. rewrite !list_lookup_fmap, Hp' in Hs.
    destruct (players g !! i) as [p|]; [|done]. exists p. split; [done|].
    injection Hs as Hs. unfold seatIdentity in Hs.
    destruct p, p'. simpl in *. by simplify_eq.
  - unfold tableIdentity in Ht. by simplify_eq.
Qed.

Lemma applyAction_keeps_seats_and_table_witness :
  ∃ g', applyAction "b" "call" 0 exPreflop = Some (RNextTurn "a", g') ∧
        length (players g') = length (players exPreflop) ∧
        dealerIndex g' = dealerIndex exPreflop.
Proof.
  assert (Hrun : ∃ g', applyAction "b" "call" 0 exPreflop = Some (RNextTurn "a", g')).
  { eexists. vm_compute. reflexivity. }
  destruct Hrun as [g' Hrun]. exists g'.
  destruct (applyAction_keeps_seats_and_table "b" "call" 0 exPreflop _ g' Hrun)
    as (Hl & _ & _ & Hd & _).
  split; [exact Hrun|]. split; [exact Hl|exact Hd].
Defined.

(** X8.  No card is dealt twice.  The community cards that an action puts
    on the board are the last cards of the deck, taken off it; so the deck
    followed by the board read backwards never changes, the hole cards never
    change, and if the deck, the board and the hands held no card twice
    before the action, they hold none twice after it. *)
Theorem applyAction_deals_from_the_deck playerId action amount g res g' :
  applyAction playerId action amount g = Some (res, g') →
  deck g' ++ reverse (community g') = deck g ++ reverse (community g) ∧
  Player.hand <$> players g' = Player.hand <$> players g ∧
  (NoDup (allCards g) → NoDup (allCards g')).
Proof.
  intros H. destruct (applyAction_sameTable _ _ _ _ _ _ H) as (_ & Hs & _ & Hc).
  assert (Hh : Player.hand <$> players g' = Player.hand <$> players g).
  { apply (f_equal (fmap Player.hand)) in Hs.
    by rewrite <-!list_fmap_compose in Hs. }
  split; [exact Hc|]. split; [exact Hh|].
  unfold allCards, cardsOut in *. rewrite Hh.
  assert (Hperm : ∀ x, deck x ++ community x ++ concat (Player.hand <$> players g)
                       ≡ₚ (deck x ++ reverse (community x))
                          ++ concat (Player.hand <$> players g)).
  { intros x. by rewrite reverse_Permutation, (assoc_L (++)). }
  rewrite !Hperm. by rewrite Hc.
Qed.

Lemma applyAction_deals_from_the_deck_witness :
  ∃ g', applyAction "b" "call" 0 exPreflop = Some (RNextTurn "a", g') ∧
        NoDup (allCards g').
Proof.
  assert (Hrun : ∃ g', applyAction "b" "call" 0 exPreflop = Some (RNextTurn "a", g')).
  { eexists. vm_compute. reflexivity. }
  destruct Hrun as [g' Hrun]. exists g'.
  destruct (applyAction_deals_from_the_deck "b" "call" 0 exPreflop _ g' Hrun)
    as (_ & _ & Hnd).
  split; [exact Hrun|]. apply Hnd.
  apply (bool_decide_unpack _). vm_compute. reflexivity.
Defined.

(** ** Streets, results and what a player is shown *)

Lemma nextStreet_phase g res g' :
  nextStreet g = Some (res, g') →
  match res with
  | RShowdown _ => phase g = River ∧ phase g' = Waiting ∧ community g' = community g
  | RNewStreet ph _ =>
      phase g ≠ River ∧ ph = nextPhase (phase g) ∧ phase g' = ph ∧
      ∃ cs, community g' = community g ++ cs ∧ length cs = streetCards (phase g)
  | _ => False
  end.
Proof.
  unfold nextStreet. cbn zeta. intros H.
  change (phase (streetReset g)) with (phase g) in H.
  assert (Hother : phase g ≠ River →
            (g0 ← dealStreet (streetReset g); newStreetTurn g0) = Some (res, g') →
            match res with
            | RNewStreet ph _ =>
                phase g ≠ River ∧ ph = nextPhase (phase g) ∧ phase g' = ph ∧
                ∃ cs, community g' = community g ++ cs ∧ length cs = streetCards (phase g)
            | _ => False
            end).
  { clear H. intros Hne H. destruct (dealStreet _) as [g0|] eqn:Ed; simplify_eq/=.
    apply dealStreet_sameTable in Ed as (_ & Hph & Hcs & _). unfold newStreetTurn in H.
    destruct (nextActiveIndex _ _ _); simplify_eq/=. done. }
  destruct (phase g) eqn:Eph;
    try (specialize (Hother ltac:(done) H); by destruct res).
  injection H as H.
  destruct (showdown_effect (streetReset g)) as (best & Hres & _ & _ & Hph & Hco & _).
  cbn zeta in Hres. rewrite H in Hres, Hph, Hco. simpl in Hres, Hph, Hco.
  subst res. done.
Qed.

Lemma advanceTurn_phase g res g' :
  advanceTurn g = Some (res, g') →
  match res with
  | RHandOver _ => phase g' = Waiting ∧ community g' = community g
  | RNextTurn _ => phase g' = phase g ∧ community g' = community g
  | RShowdown _ => phase g = River ∧ phase g' = Waiting ∧ community g' = community g
  | RNewStreet ph _ =>
      phase g ≠ River ∧ ph = nextPhase (phase g) ∧ phase g' = ph ∧
      ∃ cs, community g' = community g ++ cs ∧ length cs = streetCards (phase g)
  | _ => False
  end.
Proof.
  unfold advanceTurn. intros H.
  assert (Hgen : (next ← findNextToAct g;
            if bool_decide (next = -1) then nextStreet g
            else let g0 := set_currentIndex next g in
                 p ← lookupZ (players g0) next; Some (RNextTurn (Player.id p), g0))
            = Some (res, g') →
          match res with
          | RHandOver _ => phase g' = Waiting ∧ community g' = community g
          | RNextTurn _ => phase g' = phase g ∧ community g' = community g
          | RShowdown _ => phase g = River ∧ phase g' = Waiting ∧ community g' = community g
          | RNewStreet ph _ =>
              phase g ≠ River ∧ ph = nextPhase (phase g) ∧ phase g' = ph ∧
              ∃ cs, community g' = community g ++ cs ∧ length cs = streetCards (phase g)
          | _ => False
          end).
  { intros H'. destruct (findNextToAct g) as [next|]; simpl in H'; [|discriminate].
    case_bool_decide.
    - apply nextStreet_phase in H'. by destruct res.
    - destruct (lookupZ _ next); simpl in H'; [|discriminate].
      injection H' as <- <-. done. }
  destruct (inHandSeats g) as [|[i w] [|? ?]]; try exact (Hgen H).
  injection H as <- <-. done.
Qed.

Lemma actionEffect_phase i p action amount g g1 :
  actionEffect i p action amount g = inr g1 →
  phase g1 = phase g ∧ community g1 = community g ∧ deck g1 = deck g ∧
  length (players g1) = length (players g).
Proof.
  unfold actionEffect.
  repeat case_bool_decide; intros Heff; try discriminate Heff; injection Heff as <-;
    simpl; rewrite ?length_alter; done.
Qed.

(** X9.  The result of an action tells the street.  The turn passing on
    keeps the phase and the board; a new street is the one after the
    current street and puts its cards (three after the pre-flop, one after
    the flop and after the turn) at the end of the board, and never follows
    the river; a showdown is only ever returned from the river; and after a
    showdown or a hand won by the last player the table is back in the
    waiting phase with the board still on it.  A refused action leaves the
    table as it was. *)
Theorem applyAction_result_and_phase playerId action amount g res g' :
  applyAction playerId action amount g = Some (res, g') →
  match res with
  | RError _ => g' = g
  | RNextTurn _ => phase g' = phase g ∧ community g' = community g
  | RHandOver _ => phase g' = Waiting ∧ community g' = community g
  | RShowdown _ => phase g = River ∧ phase g' = Waiting ∧ community g' = community g
  | RNewStreet ph _ =>
      phase g ≠ River ∧ ph = nextPhase (phase g) ∧ phase g' = ph ∧
      ∃ cs, community g' = community g ++ cs ∧ length cs = streetCards (phase g)
  | RSuccess _ => False
  end.
Proof.
  unfold applyAction. intros H.
  destruct (lookupZ (players g) (currentIndex g)) as [p|] eqn:Hp;
    [|by injection H as <- <-].
  case_bool_decide; [by injection H as <- <-|].
  destruct (actionEffect _ p action amount g) as [e|g1] eqn:Eeff;
    [by injection H as <- <-|].
  apply actionEffect_phase in Eeff as (Hph & Hco & _).
  apply advanceTurn_phase in H. simpl in H.
  destruct res; try done; by rewrite <-?Hph, <-?Hco.
Qed.

Lemma applyAction_result_and_phase_witness :
  ∃ g', applyAction "b" "call" 0 exPreflop = Some (RNextTurn "a", g') ∧
        phase g' = phase exPreflop ∧ community g' = community exPreflop.
Proof.
  assert (Hrun : ∃ g', applyAction "b" "call" 0 exPreflop = Some (RNextTurn "a", g')).
  { eexists. vm_compute. reflexivity. }
  destruct Hrun as [g' Hrun]. exists g'.
  split; [exact Hrun|].
  exact (applyAction_result_and_phase "b" "call" 0 exPreflop _ g' Hrun).
Defined.

(** No action leaves the table in the showdown phase. *)
Lemma applyAction_not_showdown playerId action amount g res g' :
  phase g ≠ Showdown →
  applyAction playerId action amount g = Some (res, g') → phase g' ≠ Showdown.
Proof.
  intros Hph. unfold applyAction. intros H.
  destruct (lookupZ (players g) (currentIndex g)) as [p|] eqn:Hp;
    [|by injection H as <- <-].
  case_bool_decide; [by injection H as <- <-|].
  destruct (actionEffect _ p action amount g) as [e|g1] eqn:Eeff;
    [by injection H as <- <-|].
  apply actionEffect_phase in Eeff as (Hph1 & _).
  apply advanceTurn_phase in H. simpl in H. rewrite Hph1 in H.
  destruct res; try done; try (destruct H as (? & ? & ?); congruence);
    try (destruct H as (? & ?); congruence).
  destruct H as (? & -> & -> & _). by destruct (phase g).
Qed.

(** The first entries of the log, up to the fifty it keeps, are those of
    the log had nothing been dropped. *)
Lemma take_removelast {A} (k : nat) (l : list A) :
  (k < length l)%nat → take k (removelast l) = take k l.
Proof.
  intros Hk. rewrite removelast_firstn_len.
  change (firstn ?n l) with (take n l).
  rewrite take_take. f_equal. lia.
Qed.

Lemma addLog_head k msg g l :
  (k ≤ 50)%nat → take k (log g) = take k l →
  take k (log (addLog msg g)) = take k (msg :: l).
Proof.
  intros Hk Hl. unfold addLog. cbn [log set_log].
  assert (Hcons : take k (msg :: log g) = take k (msg :: l)).
  { destruct k as [|k']; [done|]. simpl. f_equal.
    rewrite <-(Nat.min_l k' (S k')) by lia.
    by rewrite <-!take_take, Hl. }
  case_bool_decide as Hlong; [|done].
  rewrite take_removelast by lia. done.
Qed.

Lemma showdownEval_head k rs g0 b0 l :
  (k ≤ 50)%nat → take k (log g0) = take k l →
  take k (log (foldl showdownEval (g0, b0) rs).1)
  = take k (reverse ((λ e : nat * Player.t * HandResult,
                        Player.name e.1.2 +:+ ": " +:+ handStr (Player.hand e.1.2)
                        +:+ " — " +:+ name e.2) <$> rs) ++ l).
Proof.
  intros Hk. revert g0 b0 l. induction rs as [|[[i p] h] rs IH]; intros g0 b0 l Hl; [done|].
  cbn [foldl]. csimpl. rewrite reverse_cons, <-app_assoc. simpl.
  apply IH. by apply addLog_head.
Qed.

Lemma payWinner_head k share ws g l :
  (k ≤ 50)%nat → take k (log g) = take k l →
  ∃ lines, length lines = length ws ∧
    take k (log (foldl (payWinner share) g ws)) = take k (lines ++ l).
Proof.
  intros Hk. revert g l. induction ws as [|[[i p] h] ws IH]; intros g l Hl.
  { exists []. done. }
  cbn [foldl].
  destruct (IH (payWinner share g (i, p, h))
              ((Player.name p +:+ " wins $" +:+ pretty share +:+ "!") :: l))
    as (lines & Hlen & Htake).
  { unfold payWinner. by apply addLog_head. }
  exists (lines ++ [Player.name p +:+ " wins $" +:+ pretty share +:+ "!"]).
  split; [rewrite length_app; simpl; lia|].
  by rewrite <-app_assoc.
Qed.

Lemma inHandSeats_length g : (length (inHandSeats g) ≤ length (players g))%nat.
Proof.
  unfold inHandSeats. etrans; [apply length_filter|]. by rewrite length_imap.
Qed.

(** What the log shows after a showdown: within its first twenty entries,
    the line of every seat that was in the hand. *)
Lemma showdown_log g i p :
  (length (players g) ≤ 9)%nat → players g !! i = Some p → inHand p = true →
  showdownLine g p ∈ take 20 (log (showdown g).2).
Proof.
  intros Hnine Hp Hin. unfold showdown.
  set (g0 := addLog "--- SHOWDOWN ---" (set_phase Showdown g)).
  change (showdownResults g0) with (showdownResults g).
  pose proof (showdownEval_head 20 (showdownResults g) g0 (-1) (log g0) ltac:(lia) eq_refl)
    as Hev.
  destruct (foldl showdownEval (g0, -1) (showdownResults g)) as [g1 best].
  cbn [fst] in Hev.
  set (ws := filter (λ e : nat * Player.t * HandResult, score e.2 = best) (showdownResults g)).
  destruct (payWinner_head 20 (pot g1 `div` Z.of_nat (length ws)) ws g1 _ ltac:(lia) Hev)
    as (lines & Hlen & Hpay).
  cbn [snd]. change (log (set_phase ?a (set_pot ?b ?x))) with (log x).
  rewrite Hpay, app_assoc.
  set (evs := reverse _) in *.
  assert (Hres : (length (showdownResults g) ≤ 9)%nat).
  { unfold showdownResults. rewrite length_map.
    etrans; [apply inHandSeats_length|done]. }
  assert (Hws : (length ws ≤ length (showdownResults g))%nat) by apply length_filter.
  rewrite take_app_ge
    by (rewrite length_app; unfold evs; rewrite length_reverse, length_fmap; lia).
  apply elem_of_app. left. apply elem_of_app. right.
  unfold evs. rewrite elem_of_reverse. apply list_elem_of_fmap.
  exists (i, p, bestOf7 (Player.hand p ++ community g)). split; [done|].
  unfold showdownResults. apply list_elem_of_fmap. exists (i, p). split; [done|].
  by apply inHandSeats_spec.
Qed.

(** A showdown is the river's [nextStreet]. *)
Lemma advanceTurn_showdown g ws g' :
  advanceTurn g = Some (RShowdown ws, g') → g' = (showdown (streetReset g)).2.
Proof.
  unfold advanceTurn. intros H.
  assert (Hgen : (next ← findNextToAct g;
            if bool_decide (next = -1) then nextStreet g
            else let g0 := set_currentIndex next g in
                 p ← lookupZ (players g0) next; Some (RNextTurn (Player.id p), g0))
            = Some (RShowdown ws, g') → g' = (showdown (streetReset g)).2).
  { intros H'. destruct (findNextToAct g) as [next|]; simpl in H'; [|discriminate].
    case_bool_decide.
    - unfold nextStreet in H'. cbn zeta in H'.
      destruct (phase (streetReset g));
        try (destruct (dealStreet _) as [g0|]; simpl in H'; [|discriminate];
             unfold newStreetTurn in H';
             destruct (nextActiveIndex _ _ _); simpl in H'; discriminate).
      injection H' as H'. by rewrite H'.
    - destruct (lookupZ _ next); simpl in H'; discriminate. }
  destruct (inHandSeats g) as [|[i w] [|? ?]]; try exact (Hgen H). discriminate.
Qed.

(** What a showdown leaves of a seat but its chips. *)
Lemma showdown_seat g i p' :
  players (showdown g).2 !! i = Some p' →
  ∃ p, players g !! i = Some p ∧ Player.name p' = Player.name p ∧
       Player.hand p' = Player.hand p ∧ Player.folded p' = Player.folded p.
Proof.
  destruct (showdown_effect g) as (best & _ & Hps & _). cbn zeta in Hps.
  rewrite Hps. clear Hps.
  generalize (pot g `div` Z.of_nat (length (filter (λ e : nat * Player.t * HandResult,
                                              score e.2 = best) (showdownResults g)))).
  intros share.
  generalize (filter (λ e : nat * Player.t * HandResult, score e.2 = best) (showdownResults g)).
  intros ws. revert p'.
  induction ws as [|e ws IH] using rev_ind; intros p' Hp'; [by exists p'|].
  rewrite foldl_app in Hp'. cbn [foldl] in Hp'.
  destruct (decide (i = e.1.1)) as [->|Hne].
  - rewrite list_lookup_alter_eq in Hp'.
    destruct (foldl _ _ ws !! e.1.1) as [q|] eqn:Hq; [|done].
    injection Hp' as <-. destruct (IH q eq_refl) as (p & Hp & ? & ? & ?).
    exists p. done.
  - rewrite list_lookup_alter_ne in Hp' by done. by apply IH.
Qed.

(** X10.  What a showdown shows.  [showdown] sets the phase to ['showdown']
    and back to ['waiting'] before it returns, so no action leaves the table
    in the showdown phase, whatever it returns, and the [hand] field of the
    state that [getStateFor] then builds for a player is null for every seat
    but that player's own.  The log is not so discreet: after an action that
    ends in a showdown, at a table of at most nine seats, the log that
    [getStateFor] hands to any player, and to no player, holds for every
    seat still in the hand the line that [showdown] wrote with its name, its
    two hole cards and its hand. *)
Theorem applyAction_never_reveals_hands viewer playerId action amount g res g' :
  phase g ≠ Showdown → (length (players g) ≤ 9)%nat →
  applyAction playerId action amount g = Some (res, g') →
  phase g' ≠ Showdown ∧
  View.phase (getStateFor viewer g') ≠ Showdown ∧
  (∀ pv, pv ∈ View.players (getStateFor viewer g') →
         PlayerView.hand pv ≠ None → Some (PlayerView.id pv) = viewer) ∧
  match res with
  | RShowdown _ =>
      ∀ p, p ∈ players g' → inHand p = true →
           showdownLine g' p ∈ View.log (getStateFor viewer g')
  | _ => True
  end.
Proof.
  intros Hph Hnine H.
  pose proof (applyAction_not_showdown _ _ _ _ _ _ Hph H) as Hph'.
  split; [done|]. split; [done|]. split.
  { intros pv (p & -> & _)%list_elem_of_fmap. unfold playerViewFor. simpl.
    rewrite (bool_decide_eq_false_2 (phase g' = Showdown)) by done.
    rewrite orb_false_r. case_bool_decide; done. }
  destruct res as [| | | | |ws]; try done.
  unfold applyAction in H.
  destruct (lookupZ (players g) (currentIndex g)) as [q|] eqn:Hq; [|discriminate].
  case_bool_decide; [discriminate|].
  destruct (actionEffect _ q action amount g) as [e|g1] eqn:Eeff; [discriminate|].
  apply actionEffect_phase in Eeff as (_ & _ & _ & Hlen).
  apply advanceTurn_showdown in H.
  set (gs := streetReset _) in H.
  assert (Hlens : length (players gs) = length (players g))
    by (unfold gs, streetReset; simpl; by rewrite length_map).
  intros p [i Hp]%list_elem_of_lookup Hin. rewrite H in Hp |- *.
  destruct (showdown_seat gs i p Hp) as (p0 & Hp0 & Hnm & Hhd & Hfo).
  destruct (showdown_effect gs) as (_ & _ & _ & _ & _ & Hco & _).
  assert (Hline : showdownLine (showdown gs).2 p = showdownLine gs p0)
    by (unfold showdownLine; by rewrite Hnm, Hhd, Hco).
  rewrite Hline. unfold getStateFor. cbn [View.log].
  apply (showdown_log gs i p0); [lia|done|].
  unfold inHand in *. by rewrite <-Hhd, <-Hfo.
Qed.

Lemma applyAction_never_reveals_hands_witness :
  ∃ ws, applyAction "a" "call" 0 exRiverCalled = Some (RShowdown ws, exShownDown) ∧
        phase exShownDown ≠ Showdown ∧
        PlayerView.hand <$> View.players (getStateFor (Some "b") exShownDown)
        = [None; Some [mkCard RA Hearts; mkCard RK Hearts]] ∧
        "Alice: A♠ K♠ — High Card" ∈ View.log (getStateFor (Some "b") exShownDown).
Proof.
  assert (Hrun : ∃ ws, applyAction "a" "call" 0 exRiverCalled
                       = Some (RShowdown ws, exShownDown)).
  { eexists. vm_compute. reflexivity. }
  destruct Hrun as (ws & Hrun). exists ws.
  destruct (applyAction_never_reveals_hands (Some "b") "a" "call" 0 exRiverCalled
              (RShowdown ws) exShownDown) as (Hph & _ & _ & Hlog);
    [discriminate|vm_compute; lia|exact Hrun|].
  split; [exact Hrun|]. split; [exact Hph|]. split; [reflexivity|].
  assert (Hin : default exBob (players exShownDown !! 0%nat) ∈ players exShownDown)
    by (vm_compute; elem_tac).
  pose proof (Hlog _ Hin eq_refl) as Hline.
  vm_compute in Hline. vm_compute. exact Hline.
Defined.



(** ** Chips, pot and bets through an action *)















(** ** The log *)

Lemma startHand_reset_log rnd settings g : log (startHand_reset rnd settings g) = log g.
Proof.
  unfold startHand_reset.
  by destruct (truthyZ (smallBlind settings)), (truthyZ (bigBlind settings)).
Qed.

Lemma startHand_deal_log g g1 : startHand_deal g = Some g1 → log g1 = log g.
Proof.
  unfold startHand_deal. intros H.
  destruct (nextActiveIndex g (dealerIndex g) 1); simpl in H; [|discriminate].
  destruct (dealAll _ _) as [[ps dk]|]; simpl in H; [|discriminate].
  by injection H as <-.
Qed.

Lemma postBlind_log idx amount g g1 : postBlind idx amount g = Some g1 → log g1 = log g.
Proof.
  unfold postBlind. intros H.
  destruct (lookupZ (players g) idx); simpl in H; [|discriminate].
  by injection H as <-.
Qed.

Lemma startHand_blinds_log g sb bb g3 :
  startHand_blinds g = Some (sb, bb, g3) → log g3 = log g.
Proof.
  unfold startHand_blinds. intros H.
  destruct (nextActiveIndex g (dealerIndex g) 1) as [s1|]; simpl in H; [|discriminate].
  destruct (nextActiveIndex g s1 1) as [b1|]; simpl in H; [|discriminate].
  destruct (postBlind s1 _ g) as [g1|] eqn:E1; simpl in H; [|discriminate].
  destruct (postBlind b1 _ g1) as [g2|] eqn:E2; simpl in H; [|discriminate].
  injection H as _ _ <-.
  apply postBlind_log in E1, E2. congruence.
Qed.

Lemma startHand_open_log sb bb g g' :
  startHand_open sb bb g = Some g' → logBounded g → logBounded g'.
Proof.
  unfold startHand_open. cbn zeta. intros H Hb.
  destruct (nextActiveIndex _ bb 1) as [cur|]; simpl in H; [|discriminate].
  destruct (playerName _ _) as [dn|]; simpl in H; [|discriminate].
  destruct (playerName _ sb) as [sn|]; simpl in H; [|discriminate].
  destruct (playerName _ bb) as [bn|]; simpl in H; [|discriminate].
  injection H as <-.
  apply addLog_length, addLog_length, addLog_length. exact Hb.
Qed.

Lemma startHand_writes_unfold rnd settings g :
  startHand_writes rnd settings g
  = (g ← startHand_deal (startHand_reset rnd settings g);
     '(sbIdx, bbIdx, g) ← startHand_blinds g;
     startHand_open sbIdx bbIdx g).
Proof. reflexivity. Qed.

Lemma startHand_log rnd settings g res g' :
  startHand rnd settings g = Some (res, g') → logBounded g → logBounded g'.
Proof.
  unfold startHand. intros H Hb. case_bool_decide; [by injection H as _ <-|].
  apply bind_Some in H as (g1 & Ew & H). injection H as _ <-.
  rewrite startHand_writes_unfold in Ew.
  apply bind_Some in Ew as (g2 & Ed & Ew).
  apply bind_Some in Ew as ([[sb bb] g3] & Eb & Ew).
  apply (startHand_open_log _ _ _ _ Ew). unfold logBounded.
  rewrite (startHand_blinds_log _ _ _ _ Eb), (startHand_deal_log _ _ Ed).
  by rewrite startHand_reset_log.
Qed.

(** X14.  The log never holds more than fifty entries.  [addLog] puts the
    new entry first and drops the oldest one beyond fifty, and every entry
    point of the engine writes the log through it: starting from a log
    within the bound (the constructor's is empty), seating, disconnecting,
    reconnecting, starting a hand and acting all keep it there. *)
Theorem log_stays_within_fifty g :
  logBounded g →
  (∀ msg, head (log (addLog msg g)) = Some msg ∧
          length (log (addLog msg g)) = Nat.min 50 (S (length (log g)))) ∧
  (∀ pid nm stack emo, logBounded (addPlayer pid nm stack emo g).2) ∧
  (∀ pid, logBounded (removePlayer pid g) ∧ logBounded (reconnectPlayer pid g)) ∧
  (∀ rnd settings res g', startHand rnd settings g = Some (res, g') → logBounded g') ∧
  (∀ playerId action amount res g',
     applyAction playerId action amount g = Some (res, g') → logBounded g').
Proof.
  intros Hb. split_and!.
  - intros msg. split; [|by apply addLog_length].
    unfold addLog. cbn [log set_log]. case_bool_decide as Hlen; [|done].
    destruct (log g) as [|m l]; [simpl in Hlen; lia|done].
  - intros pid nm stack emo. unfold addPlayer.
    destruct (findPlayer pid g) as [[i existing]|].
    + destruct (Player.connected existing); simpl; [done|].
      by apply addLog_length.
    + case_bool_decide; [done|]. cbn zeta. cbn [snd]. by apply addLog_length.
  - intros pid. unfold removePlayer, reconnectPlayer.
    destruct (findPlayer pid g) as [[i p]|]; [|done].
    split; by apply addLog_length.
  - intros rnd settings res g' H. by eapply startHand_log.
  - intros playerId action amount res g' H.
    by apply (applyAction_sameTable _ _ _ _ _ _ H).
Qed.

Lemma log_stays_within_fifty_witness :
  logBounded exPreflop ∧
  head (log (addLog "x" exPreflop)) = Some "x" ∧
  logBounded (removePlayer "a" exPreflop).
Proof.
  assert (Hb : logBounded exPreflop) by (vm_compute; lia).
  destruct (log_stays_within_fifty exPreflop Hb) as (H1 & _ & H3 & _).
  split; [exact Hb|]. split; [apply (H1 "x")|apply (H3 "a")].
Defined.

(** ** Seats *)

Lemma findPlayer_Some pid g i p :
  findPlayer pid g = Some (i, p) →
  players g !! i = Some p ∧ Player.id p = pid ∧
  ∀ j q, players g !! j = Some q → (j < i)%nat → Player.id q ≠ pid.
Proof. unfold findPlayer. by intros H%list_find_Some. Qed.

Lemma findPlayer_None pid g :
  findPlayer pid g = None ↔ pid ∉ Player.id <$> players g.
Proof.
  unfold findPlayer. rewrite list_find_None, Forall_forall. split.
  - intros H (p & -> & Hp)%list_elem_of_fmap. by apply (H p).
  - intros H p Hp Hid. apply H. apply list_elem_of_fmap. by exists p.
Qed.

(** Writing [connected] on the seat found for an id does not move it. *)
Lemma findPlayer_set_connected pid b g i p :
  findPlayer pid g = Some (i, p) →
  findPlayer pid (updPlayer i (Player.set_connected b) g)
  = Some (i, Player.set_connected b p).
Proof.
  intros (Hp & Hid & Hfirst)%findPlayer_Some. unfold findPlayer, updPlayer. simpl.
  apply list_find_Some. split_and!.
  - by rewrite list_lookup_alter_eq, Hp.
  - done.
  - intros j q Hq Hji. rewrite list_lookup_alter_ne in Hq by lia. by eapply Hfirst.
Qed.

Lemma set_connected_ids b i (ps : list Player.t) :
  Player.id <$> alter (Player.set_connected b) i ps = Player.id <$> ps.
Proof.
  apply list_eq. intros j. rewrite !list_lookup_fmap.
  destruct (decide (i = j)) as [->|].
  - rewrite list_lookup_alter_eq. by destruct (ps !! j).
  - by rewrite list_lookup_alter_ne.
Qed.

Lemma set_connected_wf b i g :
  seatsWellFormed g → seatsWellFormed (updPlayer i (Player.set_connected b) g).
Proof.
  intros (Hlen & Hnd & Hseat). unfold seatsWellFormed, updPlayer. simpl.
  rewrite length_alter, set_connected_ids. split_and!; [done..|].
  intros j q Hq. destruct (decide (i = j)) as [->|Hij].
  - rewrite list_lookup_alter_eq in Hq.
    destruct (players g !! j) as [p|] eqn:Hp; [|done]. injection Hq as <-.
    exact (Hseat _ _ Hp).
  - rewrite list_lookup_alter_ne in Hq by done. by apply Hseat.
Qed.

Lemma addLog_wf msg g : seatsWellFormed g → seatsWellFormed (addLog msg g).
Proof. done. Qed.

(** X15.  The seats stay well formed.  A table built by the constructor has
    at most nine seats, no id twice and every [seatIndex] equal to the
    position of its seat; [addPlayer], [removePlayer], [reconnectPlayer]
    and [applyAction] keep it so.  In particular a seat is never removed or
    moved, and an id already seated is never seated again. *)
Theorem seats_stay_well_formed g :
  seatsWellFormed g →
  (∀ pid nm stack emo, seatsWellFormed (addPlayer pid nm stack emo g).2) ∧
  (∀ pid, seatsWellFormed (removePlayer pid g) ∧ seatsWellFormed (reconnectPlayer pid g)) ∧
  (∀ playerId action amount res g',
     applyAction playerId action amount g = Some (res, g') → seatsWellFormed g').
Proof.
  intros Hwf. split_and!.
  - intros pid nm stack emo. unfold addPlayer.
    destruct (findPlayer pid g) as [[i existing]|] eqn:Hfind.
    + destruct (Player.connected existing); simpl; [done|].
      by apply addLog_wf, set_connected_wf.
    + case_bool_decide as Hfull; [done|]. cbn zeta. cbn [snd].
      apply addLog_wf. destruct Hwf as (Hlen & Hnd & Hseat).
      unfold seatsWellFormed. simpl. rewrite length_app, fmap_app. simpl.
      split_and!; [lia| |].
      * apply NoDup_app. split_and!; [done| |apply NoDup_singleton].
        intros x Hx ->%list_elem_of_singleton. by apply findPlayer_None in Hfind.
      * intros j q Hq. apply lookup_app_Some in Hq as [Hq|[Hj Hq]]; [by apply Hseat|].
        apply list_lookup_singleton_Some in Hq as [Hj0 <-]. simpl. lia.
  - intros pid. unfold removePlayer, reconnectPlayer.
    destruct (findPlayer pid g) as [[i p]|]; [|done].
    split; by apply addLog_wf, set_connected_wf.
  - intros playerId action amount res g' H.
    destruct (applyAction_sameTable _ _ _ _ _ _ H) as (_ & Hs & _).
    destruct Hwf as (Hlen & Hnd & Hseat).
    assert (Hl : length (players g') = length (players g)).
    { apply (f_equal length) in Hs. by rewrite !length_fmap in Hs. }
    assert (Hids : Player.id <$> players g' = Player.id <$> players g).
    { apply (f_equal (fmap Player.id)) in Hs. by rewrite <-!list_fmap_compose in Hs. }
    split_and!; [lia|by rewrite Hids|].
    intros j q Hq.
    apply (f_equal (fmap Player.seatIndex)) in Hs.
    rewrite <-!list_fmap_compose in Hs.
    apply (f_equal (λ l, l !! j)) in Hs. rewrite !list_lookup_fmap, Hq in Hs.
    destruct (players g !! j) as [p|] eqn:Hp; [|done].
    injection Hs as Hs. simpl in Hs. rewrite Hs. by apply Hseat.
Qed.

Lemma seats_stay_well_formed_witness :
  seatsWellFormed (newGame "R") ∧
  seatsWellFormed (addPlayer "a" "Alice" None None (newGame "R")).2.
Proof.
  assert (Hwf : seatsWellFormed (newGame "R")).
  { split_and!; [simpl; lia|constructor|]. intros i p Hp. done. }
  split; [exact Hwf|].
  destruct (seats_stay_well_formed (newGame "R") Hwf) as (H1 & _).
  apply H1.
Defined.

(** X16.  Taking a seat.  For an id not yet at the table, [addPlayer]
    refuses at nine seats; below nine it puts the new player in the seat
    after the last, connected, with no cards, no bet and a stack that is the
    stack given, else the table's default, else 1500, and that is never 0;
    the seats already taken are untouched; the id is then found at that
    seat, and adding it again is refused as already seated. *)
Theorem addPlayer_takes_the_next_seat pid nm stack emo g :
  findPlayer pid g = None →
  if bool_decide (9 ≤ length (players g))%nat
  then addPlayer pid nm stack emo g = (RError TableFull, g)
  else
    ∃ p g',
      addPlayer pid nm stack emo g = (RSuccess (Some (Z.of_nat (length (players g)))), g') ∧
      players g' = players g ++ [p] ∧
      findPlayer pid g' = Some (length (players g), p) ∧
      Player.id p = pid ∧ Player.name p = nm ∧
      Player.chips p
      = default (default 1500 (truthyZ (Some (defaultStack g)))) (truthyZ stack) ∧
      Player.chips p ≠ 0 ∧
      Player.hand p = [] ∧ Player.bet p = 0 ∧ Player.connected p = true ∧
      Player.folded p = false ∧ Player.sitOut p = false ∧
      Player.seatIndex p = Z.of_nat (length (players g)) ∧
      ∀ nm' stack' emo', addPlayer pid nm' stack' emo' g' = (RError AlreadySeated, g').
Proof.
  intros Hnone. unfold addPlayer at 1 2. rewrite Hnone.
  case_bool_decide as Hfull; [done|]. cbn zeta.
  eexists _, _. split; [reflexivity|].
  assert (Hfind : ∀ p, Player.id p = pid →
            list_find (λ q, Player.id q = pid) (players g ++ [p])
            = Some (length (players g), p)).
  { intros p Hid. apply list_find_Some. split_and!.
    - by rewrite lookup_app_r, Nat.sub_diag.
    - done.
    - intros j q Hq Hj. rewrite lookup_app_l in Hq by done.
      intros Hqid. apply findPlayer_None in Hnone. apply Hnone.
      apply list_elem_of_fmap. exists q. split; [done|].
      by eapply list_elem_of_lookup_2. }
  split_and!; try done.
  - unfold findPlayer. simpl. by apply Hfind.
  - cbn [Player.chips]. unfold truthyZ.
    destruct stack as [v|]; repeat case_bool_decide; simpl; lia.
  - intros nm' stack' emo'. unfold addPlayer, findPlayer.
    cbn [players addLog set_log set_players]. rewrite Hfind by done. done.
Qed.

Lemma addPlayer_takes_the_next_seat_witness :
  ∃ p g', addPlayer "c" "Carol" (Some 0) None exSeated = (RSuccess (Some 2), g') ∧
          players g' = players exSeated ++ [p] ∧ Player.chips p = 1500.
Proof.
  assert (Hnone : findPlayer "c" exSeated = None) by (vm_compute; reflexivity).
  pose proof (addPlayer_takes_the_next_seat "c" "Carol" (Some 0) None exSeated Hnone) as H.
  rewrite bool_decide_eq_false_2 in H by (vm_compute; lia).
  destruct H as (p & g' & Hadd & Hps & _ & _ & _ & Hch & _).
  exists p, g'. split; [exact Hadd|]. split; [exact Hps|exact Hch].
Defined.

(** The log after [addLog]: the new entry, then the old ones but for the
    oldest when they were fifty already. *)
Lemma addLog_log msg g :
  log (addLog msg g)
  = msg :: (if bool_decide (50 < S (length (log g)))%nat
            then removelast (log g) else log g).
Proof.
  unfold addLog. cbn [log set_log length].
  case_bool_decide as Hlen; [|done].
  destruct (log g) as [|m l]; [simpl in Hlen; lia|done].
Qed.

(** X17.  Leaving and coming back.  [removePlayer] keeps the seat and only
    marks it disconnected; for a seated, connected player a
    [reconnectPlayer] after it restores the table exactly, but for the two
    lines each has put in the log.  For an id that is not seated both leave
    the table as it is. *)
Theorem removePlayer_then_reconnect pid g :
  match findPlayer pid g with
  | None => removePlayer pid g = g ∧ reconnectPlayer pid g = g
  | Some (i, p) =>
      players (removePlayer pid g) = <[i := Player.set_connected false p]> (players g) ∧
      (Player.connected p = true →
       set_log [] (reconnectPlayer pid (removePlayer pid g)) = set_log [] g ∧
       take 2 (log (reconnectPlayer pid (removePlayer pid g)))
       = [Player.name p +:+ " reconnected."; Player.name p +:+ " disconnected."])
  end.
Proof.
  destruct (findPlayer pid g) as [[i p]|] eqn:Hfind.
  - pose proof (findPlayer_Some _ _ _ _ Hfind) as (Hp & Hid & _).
    assert (Hrm : removePlayer pid g
              = addLog (Player.name p +:+ " disconnected.")
                  (updPlayer i (Player.set_connected false) g))
      by (unfold removePlayer; by rewrite Hfind).
    split.
    { rewrite Hrm. simpl. apply list_eq. intros j.
      destruct (decide (i = j)) as [->|Hij].
      - rewrite list_lookup_alter_eq, Hp, list_lookup_insert_eq; [done|].
        by eapply lookup_lt_Some.
      - by rewrite list_lookup_alter_ne, list_lookup_insert_ne. }
    intros Hconn.
    pose proof (findPlayer_set_connected pid false g i p Hfind) as Hfind'.
    assert (Hrc : reconnectPlayer pid (removePlayer pid g)
              = addLog (Player.name p +:+ " reconnected.")
                  (updPlayer i (Player.set_connected true) (removePlayer pid g))).
    { unfold reconnectPlayer at 1. rewrite Hrm at 1.
      change (findPlayer pid (addLog ?m ?x)) with (findPlayer pid x).
      rewrite Hfind'. by rewrite Hrm. }
    assert (Hback : alter (Player.set_connected true) i
                      (alter (Player.set_connected false) i (players g)) = players g).
    { apply list_eq. intros j. destruct (decide (i = j)) as [->|Hij].
      - rewrite !list_lookup_alter_eq, Hp. simpl. f_equal.
        destruct p. simpl in *. by subst.
      - by rewrite !list_lookup_alter_ne. }
    split.
    + rewrite Hrc, Hrm. unfold addLog, updPlayer.
      cbn [set_log set_players players log]. rewrite Hback. by destruct g.
    + rewrite Hrc, Hrm. rewrite addLog_log.
      change (log (updPlayer i ?f (addLog ?m ?x))) with (log (addLog m x)).
      rewrite addLog_log. cbn [take]. f_equal.
      case_bool_decide as Hlen; [|done].
      cbn [length] in Hlen.
      destruct (if bool_decide (50 < S (length (log (updPlayer i (Player.set_connected false) g))))%nat
                then removelast (log (updPlayer i (Player.set_connected false) g))
                else log (updPlayer i (Player.set_connected false) g)) as [|m l];
        [simpl in Hlen; lia|done].
  - unfold removePlayer, reconnectPlayer. by rewrite Hfind.
Qed.

(** The loop of [findNextToAct] sees a table only through the test it
    applies to the seat at each index. *)
Lemma findNext_loop_ext g1 g n k j :
  (∀ j, needsToAct g1 <$> lookupZ (players g1) j = needsToAct g <$> lookupZ (players g) j) →
  findNext_loop g1 n k j = findNext_loop g n k j.
Proof.
  intros Hlook. revert j. induction k as [|k IH]; intros j; [done|].
  cbn [findNext_loop]. specialize (Hlook j).
  destruct (lookupZ (players g1) j) as [q1|], (lookupZ (players g) j) as [q|];
    simpl in Hlook; try done. cbn [mbind option_bind].
  injection Hlook as ->. destruct (needsToAct g q); [done|]. apply IH.
Qed.

(** X18.  A disconnect does not fold.  [removePlayer] touches neither the
    cards, the chips, the bets nor the folded and all-in marks of any seat,
    nor whose turn it is: the player who left is still in the hand, and
    [findNextToAct] finds the same seat as before. *)
Theorem removePlayer_keeps_the_hand pid g :
  let g' := removePlayer pid g in
  Player.set_connected true <$> players g' = Player.set_connected true <$> players g ∧
  inHand <$> players g' = inHand <$> players g ∧
  currentIndex g' = currentIndex g ∧ phase g' = phase g ∧ pot g' = pot g ∧
  callAmount g' = callAmount g ∧
  findNextToAct g' = findNextToAct g.
Proof.
  cbn zeta. unfold removePlayer.
  destruct (findPlayer pid g) as [[i p]|] eqn:Hfind; [|done].
  set (g1 := addLog _ _).
  assert (Hps : players g1 = alter (Player.set_connected false) i (players g)) by done.
  assert (Hlook : ∀ j, needsToAct g1 <$> lookupZ (players g1) j
                       = needsToAct g <$> lookupZ (players g) j).
  { intros j. unfold lookupZ. case_bool_decide; [|done]. rewrite Hps.
    destruct (decide (i = Z.to_nat j)) as [->|Hij].
    - rewrite list_lookup_alter_eq. by destruct (players g !! Z.to_nat j).
    - by rewrite list_lookup_alter_ne. }
  split_and!; try done.
  - rewrite Hps. apply list_eq. intros j. rewrite !list_lookup_fmap.
    destruct (decide (i = j)) as [->|Hij].
    + rewrite list_lookup_alter_eq. by destruct (players g !! j).
    + by rewrite list_lookup_alter_ne.
  - rewrite Hps. apply list_eq. intros j. rewrite !list_lookup_fmap.
    destruct (decide (i = j)) as [->|Hij].
    + rewrite list_lookup_alter_eq. by destruct (players g !! j).
    + by rewrite list_lookup_alter_ne.
  - unfold findNextToAct.
    assert (Hlen : length (players g1) = length (players g))
      by (by rewrite Hps, length_alter).
    rewrite Hlen. change (currentIndex g1) with (currentIndex g).
    by apply findNext_loop_ext.
Qed.

(** ** The start of a hand: two players, and where the chips go *)

(** The seats passing a test are at least as many as any list of distinct
    seats that pass it. *)
Lemma ok_seats_length (ok : Player.t → bool) (ps : list Player.t) (seats : list nat) :
  NoDup seats →
  (∀ i, i ∈ seats → ∃ p, ps !! i = Some p ∧ ok p = true) →
  (length seats ≤ length (filter ok ps))%nat.
Proof.
  intros Hnd Hok.
  set (k := filter (λ ip : nat * Player.t, ok ip.2) (imap pair ps)).
  assert (Hsnd : ∀ (l : list Player.t) (f : nat → nat),
            (filter (λ ip : nat * Player.t, ok ip.2) (imap (λ i x, (f i, x)) l)).*2
            = filter ok l).
  { induction l as [|x l IH]; intros f; [done|].
    rewrite imap_cons, !filter_cons. simpl.
    destruct (decide (ok x)); csimpl; f_equal; apply (IH (f ∘ S)). }
  assert (Hlen : length (filter ok ps) = length k).
  { rewrite <-(Hsnd ps (λ i, i)). by rewrite length_fmap. }
  rewrite Hlen, <-(length_fmap fst k).
  apply submseteq_length, NoDup_submseteq; [done|].
  intros i Hi. destruct (Hok i Hi) as (p & Hp & Hpok).
  apply list_elem_of_fmap. exists (i, p). split; [done|].
  unfold k. rewrite list_elem_of_filter, elem_of_lookup_imap. simpl.
  rewrite Is_true_true. eauto.
Qed.

(** Of two tables of the same size, the second passing its test only where
    the first passes its own: a seat that is first after [from] on the first
    table and passes on the second is also first after [from] on the
    second. *)
Lemma firstSeatAfter_narrow ok1 ok2 (ps1 ps2 : list Player.t) from d c :
  length ps1 = length ps2 →
  (∀ i p2, ps2 !! i = Some p2 → ok2 p2 = true → ∃ p1, ps1 !! i = Some p1 ∧ ok1 p1 = true) →
  firstSeatAfter ok1 ps1 from d →
  (∃ p, ps2 !! Z.to_nat d = Some p ∧ ok2 p = true) →
  firstSeatAfter ok2 ps2 from c → c = d.
Proof.
  intros Hlen Hsub (t1 & Ht1 & Hd & _ & Hb1) (p & Hp & Hpok) (t2 & Ht2 & Hc & (q & Hq & Hqok) & Hb2).
  rewrite <-Hlen in Hc, Hb2.
  destruct (decide (t1 = t2)) as [->|Hne]; [congruence|exfalso].
  destruct (decide (t2 < t1)%nat) as [Hlt|Hge].
  - destruct (Hb1 t2 Hlt) as (q1 & Hq1 & Hq1ok). rewrite <-Hc in Hq1.
    destruct (Hsub _ _ Hq Hqok) as (q1' & Hq1' & Hok'). congruence.
  - destruct (Hb2 t1 ltac:(lia)) as (p2 & Hp2 & Hp2ok). rewrite <-Hd in Hp2. congruence.
Qed.

(** X19.  Heads-up.  With exactly two players able to play, [startHand]
    makes the seat that gets the dealer button post the big blind and the
    other seat the small blind; and the other seat, if the small blind did
    not take all its chips, is the first to act. *)
Theorem startHand_heads_up rnd settings g :
  length (activePlayers g) = 2%nat → (length (players g) ≤ 9)%nat →
  let SB := blindFor (smallBlind settings) (SMALL_BLIND g) in
  let BB := blindFor (bigBlind settings) (BIG_BLIND g) in
  ∃ g' sb pd ps,
    startHand rnd settings g = Some (RSuccess None, g') ∧
    0 ≤ dealerIndex g' < Z.of_nat (length (players g)) ∧
    0 ≤ sb < Z.of_nat (length (players g)) ∧ sb ≠ dealerIndex g' ∧
    players g !! Z.to_nat (dealerIndex g') = Some pd ∧ isActive pd = true ∧
    players g !! Z.to_nat sb = Some ps ∧ isActive ps = true ∧
    Player.bet <$> players g' !! Z.to_nat (dealerIndex g') = Some (Z.min BB (Player.chips pd)) ∧
    Player.bet <$> players g' !! Z.to_nat sb = Some (Z.min SB (Player.chips ps)) ∧
    (SB < Player.chips ps → currentIndex g' = sb).
Proof.
  intros Htwo Hnine SB BB.
  destruct (startHand_reset_spec rnd settings g)
    as (_ & Hsb0 & Hbb0 & _ & _ & _ & _ & Hps0 & _).
  destruct (startHand_stages rnd settings g ltac:(lia) Hnine)
    as (g1 & sb & bb & g3 & psb & pbb & g' & Hstart
        & (Hfd & _ & _ & (_ & _ & S13 & S14 & _) & Hlen1 & Hseat1)
        & (Hfsb & Hfbb & Hne & Hsb & Hbb & Hpsb & Hpbb & Hps3 & _ & _ & Hdl3 & _)
        & (Hps' & _ & _ & Hdl' & _ & _ & Hcur')).
  set (n := Z.of_nat (length (players g1))) in *.
  assert (Hd : dealerIndex g' = dealerIndex g1) by congruence.
  (* The seat of a player of [g1] that can act holds an active player of [g]. *)
  assert (Hact : ∀ i p1, players g1 !! i = Some p1 → canAct p1 = true →
            ∃ p, players g !! i = Some p ∧ isActive p = true ∧
                 Player.chips p1 = Player.chips p ∧ Player.bet p1 = 0).
  { intros i p1 Hp1 Hc.
    destruct (lookup_lt_is_Some_2 (players g) i) as [p Hp];
      [rewrite <-Hlen1; by eapply lookup_lt_Some|].
    destruct (Hseat1 i p Hp) as (p1' & Hp1' & _ & Hch & Hbet & _ & _ & Hca & _).
    rewrite Hp1 in Hp1'. injection Hp1' as <-. exists p. split_and!; congruence. }
  assert (Hactive : length (filter canAct (players g1)) = 2%nat).
  { rewrite <-Htwo. symmetry. apply filter_length_Forall2.
    apply Forall2_same_length_lookup. split; [by rewrite Hlen1|].
    intros i p q Hp Hq. destruct (Hseat1 i p Hp) as (p1 & Hp1 & _ & _ & _ & _ & _ & Hc & _).
    rewrite Hq in Hp1. by injection Hp1 as <-. }
  (* The dealer's seat can act, and is in range. *)
  destruct Hfd as (td & Htd & Hdd & (pd0 & Hpd0 & Hpd0ok) & _).
  rewrite Hps0, length_fmap, <-Hlen1 in Hdd, Htd. fold n in Hdd.
  assert (Hn : 0 < n) by (unfold n; lia).
  assert (Hdr : 0 ≤ dealerIndex g1 < n) by (rewrite Hdd; by apply Z.mod_pos_bound).
  rewrite Hps0, list_lookup_fmap in Hpd0.
  destruct (players g !! Z.to_nat (dealerIndex g1)) as [pd|] eqn:Hpd; [|done].
  injection Hpd0 as <-. rewrite canAct_resetPlayer in Hpd0ok.
  destruct (Hseat1 _ _ Hpd) as (pd1 & Hpd1 & _ & Hpd1ch & Hpd1bet & _ & _ & Hpd1c & _).
  rewrite Hpd0ok in Hpd1c.
  (* The three seats: dealer, small blind, big blind. *)
  assert (Hsd : sb ≠ dealerIndex g1).
  { apply (firstSeatAfter_ne canAct (players g1)); [lia|done..]. }
  destruct Hfsb as (ts & Hts & Hsbd & (psb' & Hpsb' & Hpsbok) & Hsbbefore).
  destruct Hfbb as (tb & Htb & Hbbd & (pbb' & Hpbb' & Hpbbok) & Hbbbefore).
  rewrite Hpsb in Hpsb'. injection Hpsb' as <-.
  rewrite Hpbb in Hpbb'. injection Hpbb' as <-.
  assert (Hbd : bb = dealerIndex g1).
  { destruct (decide (bb = dealerIndex g1)) as [|Hbd]; [done|exfalso].
    pose proof (ok_seats_length canAct (players g1)
                  [Z.to_nat (dealerIndex g1); Z.to_nat sb; Z.to_nat bb]) as Hthree.
    rewrite Hactive in Hthree. simpl in Hthree.
    assert (3 ≤ 2)%nat; [|lia]. apply Hthree.
    - apply NoDup_cons. split; [|apply NoDup_cons; split; [|apply NoDup_singleton]].
      + intros [?|[?|[]%elem_of_nil]%elem_of_cons]%elem_of_cons; lia.
      + intros [?|[]%elem_of_nil]%elem_of_cons. lia.
    - intros i Hi. repeat (apply elem_of_cons in Hi as [->|Hi]); eauto.
      by apply elem_of_nil in Hi. }
  destruct (Hact _ _ Hpsb Hpsbok) as (ps & Hps & Hpsact & Hpsch & Hpsbet).
  exists g', sb, pd, ps. rewrite Hd.
  split_and!; try done; try (unfold n in *; lia).
  - rewrite Hps', Hps3, Hbd.
    rewrite list_lookup_insert_eq by (rewrite length_insert; lia).
    simpl. f_equal. rewrite Hbd, Hpd1 in Hpbb. injection Hpbb as <-.
    unfold postBlindOn. rewrite S14, Hbb0. fold BB.
    case_bool_decide; simpl; lia.
  - rewrite Hps', Hps3.
    rewrite list_lookup_insert_ne by lia.
    rewrite list_lookup_insert_eq by lia.
    simpl. f_equal. unfold postBlindOn. rewrite S13, Hsb0. fold SB.
    case_bool_decide; simpl; lia.
  - intros Hrich.
    assert (Hsb3 : ∃ p, players g3 !! Z.to_nat sb = Some p ∧ canAct p = true).
    { exists (postBlindOn (SMALL_BLIND g1) psb). split.
      - rewrite Hps3, list_lookup_insert_ne by lia.
        by rewrite list_lookup_insert_eq by lia.
      - unfold postBlindOn. rewrite S13, Hsb0. fold SB.
        unfold canAct in *. rewrite bool_decide_eq_false_2 by lia. done. }
    assert (Hex : ∃ q, q ∈ players g3 ∧ canAct q = true).
    { destruct Hsb3 as (p & Hp & Hpok). exists p. split; [|done].
      by eapply list_elem_of_lookup_2. }
    specialize (Hcur' Hex). rewrite Hbd in Hcur'.
    apply (firstSeatAfter_narrow canAct canAct (players g1) (players g3)
             (dealerIndex g1) sb (currentIndex g')); try done.
    + by rewrite Hps3, !length_insert.
    + intros i p3 Hp3 Hp3ok. rewrite Hps3 in Hp3.
      destruct (decide (i = Z.to_nat bb)) as [->|Hib].
      { rewrite list_lookup_insert_eq in Hp3 by (rewrite length_insert; lia). eauto. }
      rewrite list_lookup_insert_ne in Hp3 by done.
      destruct (decide (i = Z.to_nat sb)) as [->|His].
      { rewrite list_lookup_insert_eq in Hp3 by lia. eauto. }
      rewrite list_lookup_insert_ne in Hp3 by done. eauto.
    + exists ts. fold n. split_and!; [done|done|eauto|done].
Qed.

Lemma startHand_heads_up_witness :
  ∃ g' (sb : Z),
    startHand exDraws (mkSettings None None) exSeated = Some (RSuccess None, g') ∧
    sb ≠ dealerIndex g' ∧ currentIndex g' = sb.
Proof.
  assert (Htwo : length (activePlayers exSeated) = 2%nat) by (vm_compute; reflexivity).
  assert (Hnine : (length (players exSeated) ≤ 9)%nat) by (vm_compute; lia).
  destruct (startHand_heads_up exDraws (mkSettings None None) exSeated Htwo Hnine)
    as (g' & sb & pd & ps & Hstart & _ & Hr & Hne & _ & _ & Hps & _ & _ & _ & Hcur).
  exists g', sb. split; [exact Hstart|]. split; [exact Hne|].
  apply Hcur.
  assert (Hsb : sb = 1).
  { rewrite exPreflop_started in Hstart. injection Hstart as <-.
    change (Z.of_nat (length (players exSeated))) with 2 in Hr.
    change (dealerIndex exPreflop) with 0 in Hne. lia. }
  subst sb. vm_compute in Hps. injection Hps as <-. vm_compute. reflexivity.
Defined.







(** ** The room server *)








Lemma resetSeat_active stack p :
  0 < stack → isActive (resetSeat stack p) = Player.connected p && negb (Player.sitOut p).
Proof.
  intros Hs. unfold isActive, resetSeat. simpl.
  by rewrite bool_decide_eq_true_2 by lia.
Qed.

(** X22.  A new game.  For the host, [game:new_game] always goes through,
    even in the middle of a hand: every seat gets the same stack (the
    settings' starting stack, or 1500 if that is 0), no cards, no bet, and
    is neither folded nor all-in; the pot, the board, the log and the hand
    number are cleared; nobody is to act, so any action is refused as out of
    turn until a hand is dealt; and with a positive stack a hand can start
    exactly when two seats are connected and not sitting out. *)
Theorem newGameStart_resets leading caller ns room :
  Room.hostId room = Some caller →
  ∃ room',
    newGameStart leading caller ns room = Applied room' ∧
    let g := Room.game room in
    let g' := Room.game room' in
    let stack := default 1500 (truthyZ (Some (RoomSettings.startingStack (Room.settings room')))) in
    stack ≠ 0 ∧
    players g' = map (resetSeat stack) (players g) ∧
    Player.id <$> players g' = Player.id <$> players g ∧
    sumChips g' = Z.of_nat (length (players g)) * stack ∧
    pot g' = 0 ∧ phase g' = Waiting ∧ community g' = [] ∧ log g' = [] ∧
    handNumber g' = 0 ∧ dealerIndex g' = dealerIndex g ∧
    getCurrentPlayer g' = None ∧
    (∀ pid action amount, applyAction pid action amount g' = Some (RError NotYourTurn, g')) ∧
    (0 < stack →
     canStart g'
     = bool_decide (2 ≤ length (filter (λ p, Player.connected p && negb (Player.sitOut p))
                                  (players g)))%nat).
Proof.
  intros Hh. unfold newGameStart. rewrite bool_decide_eq_false_2 by (by intros []).
  eexists. split; [reflexivity|]. cbn zeta.
  set (s' := match ns with
             | Some x => mergeNewGame leading x (Room.settings room)
             | None => Room.settings room
             end).
  set (stack := default 1500 (truthyZ (Some (RoomSettings.startingStack s')))).
  assert (Hps : ∀ g0, players (match ns with
                                | Some _ => set_BIG_BLIND (RoomSettings.bigBlind s')
                                              (set_SMALL_BLIND (RoomSettings.smallBlind s') g0)
                                | None => g0
                                end) = players g0) by (intros; by destruct ns).
  assert (Hdl : ∀ g0, dealerIndex (match ns with
                                | Some _ => set_BIG_BLIND (RoomSettings.bigBlind s')
                                              (set_SMALL_BLIND (RoomSettings.smallBlind s') g0)
                                | None => g0
                                end) = dealerIndex g0) by (intros; by destruct ns).
  cbn [Room.game Room.settings players pot phase community log handNumber dealerIndex
       set_players set_pot set_phase set_community set_log set_handNumber set_currentIndex].
  fold s'. fold stack. rewrite Hps, Hdl.
  assert (Hstack : stack ≠ 0).
  { unfold stack, truthyZ. case_bool_decide; simpl; [done|lia]. }
  split_and!; try done.
  - rewrite <-list_fmap_compose. by apply list_fmap_ext.
  - unfold sumChips. simpl. rewrite ?Hps.
    induction (players (Room.game room)) as [|p l IH]; [simpl; lia|].
    cbn [map fmap list_fmap length sumZ foldr] in *.
    change (foldr Z.add 0 (Player.chips <$> map (resetSeat stack) l))
      with (sumZ (Player.chips <$> map (resetSeat stack) l)).
    rewrite IH. simpl. lia.
  - intros Hpos. unfold canStart, activePlayers. simpl. rewrite ?Hps.
    rewrite andb_true_r. f_equal. apply bool_decide_ext.
    rewrite (filter_length_Forall2 isActive
               (λ p, Player.connected p && negb (Player.sitOut p))
               (map (resetSeat stack) (players (Room.game room)))
               (players (Room.game room))); [done|].
    apply Forall2_fmap_l, Forall_Forall2_diag, Forall_forall.
    intros p _. by apply resetSeat_active.
Qed.

Lemma newGameStart_resets_witness :
  ∃ room',
    newGameStart (λ _, 1) "h" None (Room.mk exPreflop (Some "h") defaultSettings)
    = Applied room' ∧
    Player.chips <$> players (Room.game room') = [1500; 1500] ∧
    canStart (Room.game room') = true.
Proof.
  destruct (newGameStart_resets (λ _, 1) "h" None
              (Room.mk exPreflop (Some "h") defaultSettings) eq_refl) as (room' & E & _).
  exists room'. split; [exact E|].
  vm_compute in E. injection E as <-. vm_compute. split; reflexivity.
Defined.

(** After [addPlayer] has not refused, the id is seated and connected. *)
Lemma addPlayer_found pid nm stack emo g :
  isError (addPlayer pid nm stack emo g).1 = false →
  ∃ i p, findPlayer pid (addPlayer pid nm stack emo g).2 = Some (i, p) ∧
         Player.connected p = true.
Proof.
  unfold addPlayer.
  destruct (findPlayer pid g) as [[i existing]|] eqn:Hfind.
  - destruct (Player.connected existing) eqn:Hc; simpl; [done|]. intros _.
    exists i, (Player.set_connected true existing). split; [|done].
    change (findPlayer pid (addLog ?m ?x)) with (findPlayer pid x).
    by apply findPlayer_set_connected.
  - case_bool_decide; [done|]. cbn zeta. intros _.
    match goal with
    | |- context [players g ++ [?pl]] => exists (length (players g)), pl
    end.
    split; [|done].
    change (findPlayer pid (addLog ?m ?x)) with (findPlayer pid x).
    unfold findPlayer. simpl. apply list_find_Some. split_and!.
    + by rewrite lookup_app_r, Nat.sub_diag.
    + done.
    + intros j q Hq Hj. rewrite lookup_app_l in Hq by done.
      intros Hqid. apply findPlayer_None in Hfind. apply Hfind.
      apply list_elem_of_fmap. exists q. split; [done|].
      by eapply list_elem_of_lookup_2.
Qed.

(** X23.  Joining a room.  [room:join] either refuses, which happens only
    when the table takes no new seat, and then changes nothing; or it seats
    the caller, under the id sent if that id is at the table and under a
    fresh id otherwise, and that id is then found at the table, connected.
    The host is whoever joined first: a room with a host keeps it through
    any join and any disconnect, the host's own included, and a room without
    one gets the caller. *)
Theorem roomJoin_seats_and_host fresh nm playerId emoji room :
  match roomJoin fresh nm playerId emoji room with
  | Ignored => False
  | Refused msg =>
      (msg = "Table is full" ∨ msg = "Already seated") ∧
      (∀ pid, truthyStr playerId = Some pid → findPlayer pid (Room.game room) = None)
  | Applied room' =>
      ∃ pid i p,
        (match truthyStr playerId with
         | Some known =>
             if bool_decide (is_Some (findPlayer known (Room.game room)))
             then pid = known else pid = fresh
         | None => pid = fresh
         end) ∧
        findPlayer pid (Room.game room') = Some (i, p) ∧ Player.connected p = true ∧
        Room.hostId room' = Some (default pid (truthyStr (Room.hostId room))) ∧
        Room.settings room' = Room.settings room
  end ∧
  (∀ caller, Room.hostId (roomLeave caller room) = Room.hostId room).
Proof.
  split; [|done]. unfold roomJoin. cbn zeta.
  set (stack := Some (default 1500 _)). set (emo := Some (default _ _)).
  assert (Hnew : ∀ known,
            (match truthyStr playerId with
             | Some pid => findPlayer pid (Room.game room)
             | None => None
             end) = None →
            truthyStr playerId = Some known → findPlayer known (Room.game room) = None).
  { intros known Hex Hk. by rewrite Hk in Hex. }
  destruct (match truthyStr playerId with
            | Some pid => findPlayer pid (Room.game room)
            | None => None
            end) as [[i p0]|] eqn:Hex.
  - destruct (truthyStr playerId) as [known|] eqn:Hk; [|done].
    assert (Hpid : playerId = Some known).
    { unfold truthyStr in Hk. destruct playerId as [v|]; [|done].
      by case_bool_decide; simplify_eq. }
    rewrite Hpid. simpl.
    exists known, i, (Player.set_connected true p0).
    rewrite bool_decide_eq_true_2 by (by rewrite Hex).
    split_and!; try done.
    + unfold reconnectPlayer. rewrite Hex.
      change (findPlayer known (addLog ?m ?x)) with (findPlayer known x).
      by apply findPlayer_set_connected.
    + by destruct (truthyStr (Room.hostId room)).
  - pose proof (addPlayer_found fresh nm stack emo (Room.game room)) as Hfound.
    destruct (addPlayer fresh nm stack emo (Room.game room)) as [res g1] eqn:Eadd.
    assert (Hcases : isError res = false ∨
              (res = RError TableFull ∨ res = RError AlreadySeated)).
    { unfold addPlayer in Eadd.
      destruct (findPlayer fresh (Room.game room)) as [[j q]|].
      - destruct (Player.connected q); simpl in Eadd; injection Eadd as <- _; auto.
      - case_bool_decide; injection Eadd as <- _; auto. }
    destruct Hcases as [Hok|[-> | ->]].
    + destruct (Hfound Hok) as (i & p & Hf & Hc).
      assert (Happ : ∃ host, (match res with
                  | RError e => inl (errorMessage e)
                  | _ => inr (fresh, g1)
                  end : string + string * Game) = inr (fresh, g1))
        by (exists 0; by destruct res).
      destruct Happ as [_ ->]. simpl.
      exists fresh, i, p. split_and!; try done.
      * destruct (truthyStr playerId) as [known|] eqn:Hk; [|done].
        rewrite bool_decide_eq_false_2; [done|].
        rewrite (Hnew known eq_refl eq_refl). by intros [? ?].
      * by destruct (truthyStr (Room.hostId room)).
    + simpl. split; [by left|]. intros pid Hpid. by apply Hnew.
    + simpl. split; [by right|]. intros pid Hpid. by apply Hnew.
Qed.



(** ** Every table the engine reaches *)















(** ** The amounts stay in range *)































(** ** The shuffle *)

(** X26.  The shuffle loses nothing.  Whatever the random draws,
    [shuffle] returns a rearrangement of its input, of the same length, and
    leaves an array of fewer than two elements as it is; so the deck of
    [newDeck] holds each of the 52 cards, every rank in every suit, exactly
    once. *)
Theorem shuffle_keeps_every_card rnd :
  (∀ (arr : list Card), shuffle rnd arr ≡ₚ arr ∧ length (shuffle rnd arr) = length arr) ∧
  (∀ (arr : list Card), (length arr < 2)%nat → shuffle rnd arr = arr) ∧
  (∀ c : Card, c ∈ newDeck rnd) ∧ NoDup (newDeck rnd) ∧ length (newDeck rnd) = 52%nat.
Proof.
  split_and!.
  - intros arr. pose proof (shuffle_Permutation rnd arr) as Hp.
    split; [done|]. by rewrite Hp.
  - intros arr Hlen. unfold shuffle. by destruct arr as [|x [|y l]]; [..|simpl in Hlen; lia].
  - intros c. destruct (newDeck_spec rnd) as (Hp & _). rewrite Hp.
    destruct c as [ra su]. destruct ra, su; vm_compute; elem_tac.
  - by destruct (newDeck_spec rnd) as (_ & _ & ?).
  - by destruct (newDeck_spec rnd) as (_ & ? & _).
Qed.

(** ** A seat taken during a hand *)

(** X27.  A seat taken during a hand.  [addPlayer] does not look at the
    phase: a player seated while a hand is on gets no cards and is not among
    the players in the hand, but is neither folded nor all-in, so that the
    new seat, not having acted, passes the test of [findNextToAct] and is
    given a turn in the hand in progress. *)
Theorem addPlayer_during_a_hand pid nm stack emo g :
  findPlayer pid g = None → (length (players g) < 9)%nat →
  pid ∉ actedThisRound g →
  ∃ p g',
    addPlayer pid nm stack emo g = (RSuccess (Some (Z.of_nat (length (players g)))), g') ∧
    players g' = players g ++ [p] ∧ phase g' = phase g ∧
    Player.hand p = [] ∧ inHand p = false ∧ inHandPlayers g' = inHandPlayers g ∧
    canAct p = true ∧ needsToAct g' p = true ∧
    ∃ r, findNextToAct g' = Some r ∧ r ≠ -1.
Proof.
  intros Hnone Hlen Hacted. unfold addPlayer. rewrite Hnone.
  rewrite bool_decide_eq_false_2 by lia. cbn zeta.
  eexists _, _. split; [reflexivity|].
  set (p := Player.mk _ _ _ _ _ _ _ _ _ _ _ _).
  set (g' := addLog _ _).
  assert (Hneed : needsToAct g' p = true).
  { unfold needsToAct. simpl. by rewrite bool_decide_eq_false_2. }
  split_and!; try done.
  - unfold inHandPlayers. simpl. rewrite filter_app.
    assert (Hin : inHand p = false) by done.
    rewrite (filter_cons_False inHand) by (rewrite Hin; by intros []).
    by rewrite filter_nil, (right_id_L [] (++)).
  - destruct (findNextToAct_total_iff g') as (r & Hr & Hiff).
    exists r. split; [done|]. intros Hm.
    pose proof (proj1 Hiff Hm p) as Hno.
    rewrite Hno in Hneed; [done|].
    simpl. apply elem_of_app. right. apply list_elem_of_here.
Qed.

Lemma addPlayer_during_a_hand_witness :
  ∃ p g',
    addPlayer "c" "Carol" None None exPreflop = (RSuccess (Some 2), g') ∧
    players g' = players exPreflop ++ [p] ∧
    inHand p = false ∧ needsToAct g' p = true.
Proof.
  destruct (addPlayer_during_a_hand "c" "Carol" None None exPreflop)
    as (p & g' & Hadd & Hps & _ & _ & Hin & _ & _ & Hneed & _).
  - vm_compute. reflexivity.
  - vm_compute. lia.
  - apply (bool_decide_unpack _). vm_compute. reflexivity.
  - exists p, g'. split; [exact Hadd|]. split; [exact Hps|]. split; [exact Hin|exact Hneed].
Defined.
